(** * asecurityteam/settings: a shallow embedding of the configuration engine

    The development follows the Go package [settings]:
    - [source.go]    : [Source], [MapSource], [PrefixSource], [MultiSource],
                       [NewEnvSource], [lowerCaseMap], [convertYamlMap];
    - [setting.go]   : the [Setting] variants with their constructors, and
                       [SettingGroup];
    - [loader.go]    : [Load] and [LoadGroups];
    - [convert.go]   : [Convert] and [settingFromValue];
    - [component.go] : [VerifyComponent], [GroupFromComponent] and
                       [NewComponent].

    Part I holds the embedding, Part II the lemmas and theorems, Part III
    the theorems applied to values of the tests and the examples. *)

From Stdlib Require Import ZArith String Ascii List Bool Lia DecimalString.
From stdpp Require Import base option list gmap strings.

Open Scope string_scope.
Open Scope list_scope.

(* ===================================================================== *)
(** * Part I: the embedding                                               *)
(* ===================================================================== *)

(** ** Outcomes

    A Go call either returns or panics.  [Panic] carries the runtime
    message; nothing in the package recovers from a panic. *)

Inductive outcome (A : Type) : Type :=
| Ret (a : A)
| Panic (msg : string).
Arguments Ret {A} a.
Arguments Panic {A} msg.

#[global] Instance outcome_ret : MRet outcome := fun _ a => Ret a.
#[global] Instance outcome_bind : MBind outcome := fun _ _ f m =>
  match m with
  | Ret a => f a
  | Panic msg => Panic msg
  end.

(** Go's [error]: [None] is the nil error, [Some msg] an error whose
    [Error()] text is [msg]. *)
Definition error : Type := option string.

(** ** Raw values ([interface{}])

    The dynamic values a [Source] hands out and a [Setting] stores.  The
    integer kinds and [time.Duration] share [VInt]; a float is kept by its
    bits and a [time.Time] by its instant.  A Go map is kept as an
    association list: the order of the list is the order in which a
    [range] loop produces the entries, which the Go specification leaves
    open, so a statement about every list is a statement about every
    iteration order. *)

#[local] Unset Elimination Schemes.
Inductive value : Type :=
| VNil
| VBool (b : bool)
| VInt (z : Z)
| VString (s : string)
| VFloat (bits : Z)
| VTime (nanos : Z)
| VSlice (l : list value)
| VMap (m : list (string * value)).
#[local] Set Elimination Schemes.

Definition gomap : Type := list (string * value).

(** [v, ok := m[k]] *)
Fixpoint map_get (m : gomap) (k : string) : option value :=
  match m with
  | [] => None
  | (k', v) :: rest => if String.eqb k' k then Some v else map_get rest k
  end.

(** [delete(m, k)] *)
Definition map_delete (k : string) (m : gomap) : gomap :=
  List.filter (fun kv => negb (String.eqb (fst kv) k)) m.

(** [m[k] = v]: an existing entry is overwritten where it is, a new one is
    added. *)
Fixpoint map_set (k : string) (v : value) (m : gomap) : gomap :=
  match m with
  | [] => [(k, v)]
  | (k', v') :: rest =>
      if String.eqb k' k then (k', v) :: rest else (k', v') :: map_set k v rest
  end.

(** [v, ok := m[k]] as the pair Go returns: the zero value [nil] and
    [false] when the key is absent. *)
Definition map_index (m : gomap) (k : string) : value * bool :=
  match map_get m k with
  | Some v => (v, true)
  | None => (VNil, false)
  end.

(** ** Memory

    The memory pointers address is the [store].  A location outside the
    domain of the store stands for a nil or dangling pointer, and
    dereferencing it panics. *)

Definition loc : Type := nat.
Abbreviation store := (gmap loc value).

(** ** Strings

    [strings.ToLower].  On a string that holds ASCII bytes only the
    function works byte by byte: the letters [A] to [Z] are mapped and
    every other byte is left as it is.  On any other string it is
    [strings.Map(unicode.ToLower, s)], which decodes the runes of [s] and
    maps each through the case tables of the [unicode] package.  Those
    tables belong to the Go library, not to this package: what the
    function returns on a string that is not ASCII is the parameter
    [unicodeLower]. *)

Definition lower_ascii (c : ascii) : ascii :=
  let n := nat_of_ascii c in
  if (65 <=? n)%nat && (n <=? 90)%nat then ascii_of_nat (n + 32) else c.

Fixpoint lowerBytes (s : string) : string :=
  match s with
  | EmptyString => EmptyString
  | String c rest => String (lower_ascii c) (lowerBytes rest)
  end.

(** Every byte is below [utf8.RuneSelf]. *)
Fixpoint isASCII (s : string) : bool :=
  match s with
  | EmptyString => true
  | String c rest => (nat_of_ascii c <? 128)%nat && isASCII rest
  end.

Class UnicodeLower : Type := { unicodeLower : string -> string }.

Definition ToLower `{UnicodeLower} (s : string) : string :=
  if isASCII s then lowerBytes s else unicodeLower s.

(** The lower-case mapping of a rune has no lower-case mapping of its own:
    what [unicodeLower] returns is left as it is by [ToLower]. *)
Class UnicodeLowerStable `{UnicodeLower} : Prop :=
  unicodeLower_stable :
    forall s, isASCII s = false -> ToLower (unicodeLower s) = unicodeLower s.

(** A lower-case mapping to try the definitions on: it maps the ASCII
    letters everywhere and knows no other letter. *)
Definition byteLower : UnicodeLower := {| unicodeLower := lowerBytes |}.

(** From here on the development is about any lower-case mapping of the
    strings that are not ASCII.  Where a lemma needs the mapping to be
    stable, it is in a section that says so. *)
Section Unicode.
Context {unicode : UnicodeLower}.

(** [strings.Split(s, sep)] for a one-byte separator. *)
Fixpoint Split (sep : ascii) (s : string) : list string :=
  match s with
  | EmptyString => [EmptyString]
  | String c rest =>
      if Ascii.eqb c sep then EmptyString :: Split sep rest
      else match Split sep rest with
           | [] => [String c EmptyString]
           | h :: t => String c h :: t
           end
  end.

(** [strings.SplitN(s, sep, 2)] for a one-byte separator: the string is cut
    at the first separator only. *)
Fixpoint SplitN2 (sep : ascii) (s : string) : list string :=
  match s with
  | EmptyString => [EmptyString]
  | String c rest =>
      if Ascii.eqb c sep then [EmptyString; rest]
      else match SplitN2 sep rest with
           | [] => [String c EmptyString]
           | h :: t => String c h :: t
           end
  end.

(** ** Sources (source.go)

    [Source] is an interface with the single method
    [Get(ctx, path...) (interface{}, bool)].  No implementation of the
    package reads the context, so it is left out. *)

(** A slice of path segments is kept as its backing array, from the first
    element of the slice up to its capacity, and its length. *)
Record pathSlice : Type := mkPathSlice {
  backing : list string;
  slen : nat
}.

(** The elements of the slice, [path[0:len(path)]]. *)
Definition elems (path : pathSlice) : list string :=
  take (slen path) (backing path).

(** [s.Get(ctx, path...)] hands the slice [path] itself to the callee, which
    may write to its array: a call returns the result together with the
    backing array of [path] as the callee left it. *)
Record Source : Type := mkSource {
  GetSlice : pathSlice -> outcome (value * bool * list string)
}.

(** [s.Get(ctx, p1, ..., pn)]: the arguments are put in a new array of
    their own, of length and capacity [n], which nobody else sees. *)
Definition Get (s : Source) (path : list string) : outcome (value * bool) :=
  '(r, _) ← GetSlice s (mkPathSlice path (length path)); Ret r.
#[global] Arguments Get : simpl never.

(** *** MapSource *)

(** [lowerCaseMap], one map: the [range] loop over [current].  The keys are
    visited in the order of the list; the value bound to [v] is the one the
    map holds when the entry is reached.  Entries created by the loop are
    already lower case, and visiting them changes nothing, so they are not
    visited again. *)
Definition lowerCaseStep (current : gomap) (k : string) : gomap :=
  match map_get current k with
  | None => current
  | Some v =>
      let newKey := ToLower k in
      let current' :=
        if negb (String.eqb newKey k) then map_delete k current else current in
      map_set newKey v current'
  end.

Definition lowerCaseKeys (current : gomap) : gomap :=
  fold_left lowerCaseStep (map fst current) current.

(** [lowerCaseMap]: the work list of the source holds the nested maps met
    on the way, and each is rewritten in place when it is popped.  A nested
    map is shared by pointer between the work list and its parent, so the
    parent ends with the rewritten child: that is the recursion below. *)
Fixpoint lowerCaseValue (v : value) : value :=
  match v with
  | VMap m =>
      VMap (lowerCaseKeys (map (fun kv =>
              match kv with (k, v') => (k, lowerCaseValue v') end) m))
  | _ => v
  end.

Definition lowerCaseMap (m : gomap) : gomap :=
  match lowerCaseValue (VMap m) with
  | VMap m' => m'
  | _ => m
  end.

Record MapSource : Type := mkMapSource { Map : gomap }.

Definition NewMapSource (m : gomap) : MapSource :=
  {| Map := lowerCaseMap m |}.

(** [MapSource.Get].  The loop runs over [x = 0 .. len(path)-2]; the last
    segment is read after it with [path[len(path)-1]], which is out of
    range when the path is empty. *)
Fixpoint MapSource_walk (location : gomap) (p : string) (rest : list string)
  : value * bool :=
  match rest with
  | [] => map_index location (ToLower p)
  | p' :: rest' =>
      let pth := ToLower p in
      match map_get location pth with
      | None => (VNil, false)
      | Some (VMap next) => MapSource_walk next p' rest'
      | Some _ => (VNil, false)
      end
  end.

Definition MapSource_Get (s : MapSource) (path : list string)
  : outcome (value * bool) :=
  match path with
  | [] => Panic "runtime error: index out of range [-1]"
  | p :: rest => Ret (MapSource_walk (Map s) p rest)
  end.

(** [MapSource.Get] reads the elements of [path] and writes nothing. *)
Definition MapSource_Source (s : MapSource) : Source :=
  {| GetSlice := fun path =>
       r ← MapSource_Get s (elems path); Ret (r, backing path) |}.

(** *** PrefixSource *)

(** The builtin [copy(dst, src)]: the first [min(len(dst), len(src))]
    elements of [dst] are overwritten. *)
Definition copy {A} (dst src : list A) : list A :=
  let n := Nat.min (length dst) (length src) in
  take n src ++ drop n dst.

Record PrefixSource : Type := mkPrefixSource {
  PSource : Source;
  Prefix : list string
}.

Definition PrefixSource_Get (s : PrefixSource) (path : list string)
  : outcome (value * bool) :=
  let path1 := path ++ Prefix s in
  let n := length (Prefix s) in
  let path2 := take n path1 ++ copy (drop n path1) path1 in
  let path3 := copy path2 (Prefix s) in
  Get (PSource s) path3.

(** The three statements of [PrefixSource.Get] on the slice [path]: the
    path handed to the wrapped source, and the backing array of the caller
    after the call.  [append] writes into the array of [path] when its
    capacity holds the prefix too, and allocates a new array otherwise; the
    two [copy] calls then work on the array [append] returned. *)
Definition PrefixSource_path (prefix : list string) (path : pathSlice)
  : list string * list string :=
  let n := length prefix in
  let l := slen path in
  if (l + n <=? length (backing path))%nat then
    let arr1 := take l (backing path) ++ prefix ++ drop (l + n) (backing path) in
    let path1 := take (l + n) arr1 in
    let path2 := take n path1 ++ copy (drop n path1) path1 in
    let path3 := copy path2 prefix in
    (path3, path3 ++ drop (l + n) arr1)
  else
    let path1 := elems path ++ prefix in
    let path2 := take n path1 ++ copy (drop n path1) path1 in
    let path3 := copy path2 prefix in
    (path3, backing path).

(** [PrefixSource.Get] on the slice it is given.  When [append] wrote into
    the array of the caller, the wrapped source is handed a slice of that
    same array.  When [append] allocated, the wrapped source works on the
    new array and the array of the caller stays as it was; the new array
    is taken to hold the prefixed path and nothing more (the capacity
    [append] gives a new array beyond the length asked for is left to the
    Go implementation). *)
Definition PrefixSource_GetSlice (s : PrefixSource) (path : pathSlice)
  : outcome (value * bool * list string) :=
  let '(path3, arr) := PrefixSource_path (Prefix s) path in
  if (slen path + length (Prefix s) <=? length (backing path))%nat then
    GetSlice (PSource s) (mkPathSlice arr (slen path + length (Prefix s)))
  else
    r ← Get (PSource s) path3; Ret (r, arr).

Definition PrefixSource_Source (s : PrefixSource) : Source :=
  {| GetSlice := PrefixSource_GetSlice s |}.

(** *** MultiSource *)

Definition MultiSource : Type := list Source.

(** [MultiSource.Get]: every member is called with [path...], the one
    slice the method was given, so a member is handed the array as the
    members before it left it. *)
Fixpoint MultiSource_Get (s : MultiSource) (path : pathSlice)
  : outcome (value * bool * list string) :=
  match s with
  | [] => Ret (VNil, false, backing path)
  | ss :: rest =>
      '(v, found, arr) ← GetSlice ss path;
      if found : bool then Ret (v, found, arr)
      else MultiSource_Get rest (mkPathSlice arr (slen path))
  end.

Definition MultiSource_Source (s : MultiSource) : Source :=
  {| GetSlice := MultiSource_Get s |}.

(** [missed s path arr]: the members of [s], called one after the other
    with the slice [path], each reported a miss, and the array of [path]
    is [arr] after the last of them. *)
Fixpoint missed (s : MultiSource) (path : pathSlice) (arr : list string)
  : Prop :=
  match s with
  | [] => arr = backing path
  | a :: rest =>
      exists v arr1,
        GetSlice a path = Ret (v, false, arr1) /\
        missed rest (mkPathSlice arr1 (slen path)) arr
  end.

(** *** NewEnvSource *)

(** The inner loop of [NewEnvSource] with the final assignment, for one
    variable whose name was split into [part :: rest].  [location] is the
    map the cursor of the source points at.  Moving the cursor
    ([location = nextLocation]) is the recursive call on the nested map,
    whose result is stored back under [part]: the nested map is the very
    object the parent holds.  On a conflict the source executes [continue],
    which resumes the loop over [x]: the cursor stays where it is and the
    next segment is tried against the same map. *)
Fixpoint envInsert (location : gomap) (part : string) (rest : list string)
  (val : string) : gomap :=
  match rest with
  | [] => map_set part (VString val) location
  | part' :: rest' =>
      let location1 :=
        match map_get location part with
        | None => map_set part (VMap []) location
        | Some _ => location
        end in
      match map_get location1 part with
      | Some (VMap nextLocation) =>
          map_set part (VMap (envInsert nextLocation part' rest' val)) location1
      | _ => envInsert location1 part' rest' val
      end
  end.

Fixpoint NewEnvSource_loop (m : gomap) (env : list string)
  : outcome (gomap * error) :=
  match env with
  | [] => Ret (m, None)
  | envStr :: env' =>
      match SplitN2 "=" envStr with
      | [name; val] =>
          match Split "_" name with
          | [] => Panic "runtime error: index out of range [-1]"
          | part :: rest => NewEnvSource_loop (envInsert m part rest val) env'
          end
      | _ => Ret (m, Some ("failed to parse variable " +:+ envStr))
      end
  end.

(** [NewEnvSource] returns [(nil, err)] or [(NewMapSource(m), nil)]. *)
Definition NewEnvSource (env : list string)
  : outcome (option MapSource * error) :=
  '(m, err) ← NewEnvSource_loop [] env;
  match err with
  | Some e => Ret (None, Some e)
  | None => Ret (Some (NewMapSource m), None)
  end.

(** Every key of every map reachable through map values is in lower
    case. *)
Fixpoint lowerKeyed (v : value) : bool :=
  match v with
  | VMap m =>
      forallb (fun kv =>
        match kv with (k, v') => String.eqb (ToLower k) k && lowerKeyed v' end) m
  | _ => true
  end.


(** The invariant of the [range] loop of [lowerCaseMap]: a key of the map
    is in lower case or still to be visited, and every value satisfies
    [Q]. *)
Definition lowerCase_inv (Q : value -> Prop) (todo : list string)
  (current : gomap) : Prop :=
  Forall (fun kv => Q (snd kv) /\ (ToLower (fst kv) = fst kv \/ In (fst kv) todo))
         current.

(** ** Settings (setting.go)

    A [Setting] holds a pointer to its value ([IntValue *int], ...), a
    location of the [store]. *)

(** The [Setting] implementations of setting.go. *)
Inductive SettingKind : Type :=
| StringSetting | BoolSetting
| IntSetting | Int8Setting | Int16Setting | Int32Setting | Int64Setting
| UintSetting | Uint8Setting | Uint16Setting | Uint32Setting | Uint64Setting
| Float32Setting | Float64Setting
| TimeSetting | DurationSetting
| BoolSliceSetting | DurationSliceSetting | IntSliceSetting
| StringSliceSetting | StringMapStringSliceSetting.

(** The functions of github.com/spf13/cast the package calls.  Each has
    the Go signature [func(interface{}) (T, error)]: a value of the target
    type is returned on every call, also next to a non-nil error. *)
Inductive CastFn : Type :=
| ToStringE | ToBoolE
| ToIntE | ToInt8E | ToInt16E | ToInt32E | ToInt64E
| ToUintE | ToUint8E | ToUint16E | ToUint32E | ToUint64E
| ToFloat32E | ToFloat64E
| ToTimeE | ToDurationE
| ToStringSliceE | ToBoolSliceE | ToDurationSliceE | ToIntSliceE
| ToStringMapStringSliceE.

Record BaseSetting : Type := mkBaseSetting {
  NameValue : string;
  DescriptionValue : string
}.

Record Setting : Type := mkSetting {
  Variant : SettingKind;
  Base : BaseSetting;
  ValuePtr : loc
}.

Definition Setting_Name (s : Setting) : string := NameValue (Base s).
Definition Setting_Description (s : Setting) : string :=
  DescriptionValue (Base s).

(** [Value()]: [return *s.IntValue] *)
Definition Setting_Value (st : store) (s : Setting) : outcome value :=
  match st !! ValuePtr s with
  | Some v => Ret v
  | None => Panic "runtime error: invalid memory address or nil pointer dereference"
  end.

(** [*p = x] *)
Definition assign (st : store) (p : loc) (x : value) : outcome store :=
  match st !! p with
  | Some _ => Ret (<[p := x]> st)
  | None => Panic "runtime error: invalid memory address or nil pointer dereference"
  end.

(** The cast a one-step [SetValue] calls; for the three variants that go
    through a string slice, the cast of the second step. *)
Definition castOf (k : SettingKind) : CastFn :=
  match k with
  | StringSetting => ToStringE | BoolSetting => ToBoolE
  | IntSetting => ToIntE | Int8Setting => ToInt8E | Int16Setting => ToInt16E
  | Int32Setting => ToInt32E | Int64Setting => ToInt64E
  | UintSetting => ToUintE | Uint8Setting => ToUint8E
  | Uint16Setting => ToUint16E | Uint32Setting => ToUint32E
  | Uint64Setting => ToUint64E
  | Float32Setting => ToFloat32E | Float64Setting => ToFloat64E
  | TimeSetting => ToTimeE | DurationSetting => ToDurationE
  | BoolSliceSetting => ToBoolSliceE
  | DurationSliceSetting => ToDurationSliceE
  | IntSliceSetting => ToIntSliceE
  | StringSliceSetting => ToStringSliceE
  | StringMapStringSliceSetting => ToStringMapStringSliceE
  end.

(** The variants whose [SetValue] first casts to [[]string]
    ([tmp, err = cast.ToStringSliceE(v)]), with the word their error
    message starts with. *)
Definition interimStep (k : SettingKind) : option string :=
  match k with
  | BoolSliceSetting => Some "bool"
  | DurationSliceSetting => Some "duration"
  | IntSliceSetting => Some "int"
  | _ => None
  end.

Section Casting.

(** The cast library is a parameter of the development. *)
Variable cast : CastFn -> value -> value * error.

(** [SetValue].  The one-step variants are

      [*s.IntValue, err = cast.ToIntE(v); return err]

    and the three two-step variants return early when the interim cast
    fails and otherwise assign in the same way.  The map variant also
    prints its input; the standard output is not part of the model. *)
Definition SetValue (st : store) (s : Setting) (v : value)
  : outcome (store * error) :=
  match interimStep (Variant s) with
  | Some word =>
      let '(tmp, err) := cast ToStringSliceE v in
      match err with
      | Some e =>
          Ret (st, Some (word +:+ " slice parsing failed at interim string step: "
                              +:+ e))
      | None =>
          let '(x, err') := cast (castOf (Variant s)) tmp in
          st' ← assign st (ValuePtr s) x;
          Ret (st', err')
      end
  | None =>
      let '(x, err) := cast (castOf (Variant s)) v in
      st' ← assign st (ValuePtr s) x;
      Ret (st', err)
  end.

(** The interim cast of a two-step variant fails on [v]. *)
Definition interimFails (k : SettingKind) (v : value) : bool :=
  match interimStep k with
  | Some _ => bool_decide (snd (cast ToStringSliceE v) <> None)
  | None => false
  end.

(** The cast whose result [SetValue] assigns, applied to [v]. *)
Definition finalCast (k : SettingKind) (v : value) : value * error :=
  match interimStep k with
  | Some _ => cast (castOf k) (fst (cast ToStringSliceE v))
  | None => cast (castOf k) v
  end.

(** [v] cannot be cast to the type of the variant [k]: one of the casts
    [SetValue] runs on it reports an error. *)
Definition castFails (k : SettingKind) (v : value) : bool :=
  interimFails k v || bool_decide (snd (finalCast k v) <> None).

(** ** Loader (loader.go) *)

(** [Load] *)
Fixpoint Load (s : Source) (settings : list Setting) (st : store)
  : outcome (store * error) :=
  match settings with
  | [] => Ret (st, None)
  | setting :: rest =>
      '(v, found) ← Get s [Setting_Name setting];
      if found : bool then
        '(st', err) ← SetValue st setting v;
        match err with
        | Some e =>
            Ret (st', Some ("failed to load setting " +:+ Setting_Name setting
                              +:+ " due to: " +:+ e))
        | None => Load s rest st'
        end
      else Load s rest st
  end.

End Casting.

(** [Group] is an interface with the methods [Name], [Description],
    [Groups] and [Settings]; [SettingGroup] is its implementation in the
    package. *)
#[local] Unset Elimination Schemes.
Inductive Group : Type :=
| SettingGroup (NameValue : string) (DescriptionValue : string)
               (GroupValues : list Group) (SettingValues : list Setting).
#[local] Set Elimination Schemes.

Definition Group_Name (g : Group) : string :=
  match g with SettingGroup n _ _ _ => n end.
Definition Group_Description (g : Group) : string :=
  match g with SettingGroup _ d _ _ => d end.
Definition Group_Groups (g : Group) : list Group :=
  match g with SettingGroup _ _ gs _ => gs end.
Definition Group_Settings (g : Group) : list Setting :=
  match g with SettingGroup _ _ _ ss => ss end.

Record groupLoad : Type := mkGroupLoad {
  Path : list string;
  LGroup : Group
}.

(** The number of groups of a tree and of a forest: the number of turns the
    loop of [LoadGroups] can take. *)
Fixpoint Group_count (g : Group) : nat :=
  match g with
  | SettingGroup _ _ gs _ =>
      S ((fix forest (l : list Group) : nat :=
            match l with
            | [] => 0
            | g' :: l' => Group_count g' + forest l'
            end) gs)
  end.

Definition Groups_count (l : list Group) : nat :=
  fold_right (fun g n => Group_count g + n) 0 l.

Definition stack_count (stack : list groupLoad) : nat :=
  Groups_count (map LGroup stack).

(** [stack = append(stack, groupLoad{...})] for every child of [current].
    The stack is kept with its top (the last element of the Go slice) at
    the head of the list. *)
Definition pushGroups (path : list string) (groups : list Group)
  (stack : list groupLoad) : list groupLoad :=
  fold_left (fun stk group =>
               {| Path := path ++ [Group_Name group]; LGroup := group |} :: stk)
            groups stack.

Section Loading.

Variable cast : CastFn -> value -> value * error.

(** The loop [for len(stack) > 0] of [LoadGroups].  [fuel] bounds the
    number of turns; [None] is returned when it runs out. *)
Fixpoint LoadGroups_loop (fuel : nat) (s : Source) (stack : list groupLoad)
  (st : store) : option (outcome (store * error)) :=
  match stack with
  | [] => Some (Ret (st, None))
  | current :: stack' =>
      match fuel with
      | O => None
      | S fuel' =>
          let stack'' :=
            pushGroups (Path current) (Group_Groups (LGroup current)) stack' in
          match Load cast
                  (PrefixSource_Source {| PSource := s; Prefix := Path current |})
                  (Group_Settings (LGroup current)) st with
          | Panic msg => Some (Panic msg)
          | Ret (st', Some e) =>
              Some (Ret (st', Some ("failed to load group "
                                      +:+ Group_Name (LGroup current)
                                      +:+ " due to: " +:+ e)))
          | Ret (st', None) => LoadGroups_loop fuel' s stack'' st'
          end
      end
  end.

(** [LoadGroups].  The fuel is the number of groups of the forest, which
    the loop never exceeds ([LoadGroups_loop_total] below). *)
Definition LoadGroups (s : Source) (groups : list Group) (st : store)
  : outcome (store * error) :=
  let stack := pushGroups [] groups [] in
  match LoadGroups_loop (stack_count stack) s stack st with
  | Some r => r
  | None => Panic "LoadGroups: out of fuel"
  end.

(** *** The traversal as the specification words it

    Every group is loaded through a [PrefixSource] scoped to the names of
    its ancestors, root first, down to its own name. *)

(** [Load] with the path written out: the setting named [n] is looked up
    at [prefix ++ [n]]. *)
Fixpoint LoadAt (s : Source) (prefix : list string) (settings : list Setting)
  (st : store) : outcome (store * error) :=
  match settings with
  | [] => Ret (st, None)
  | setting :: rest =>
      '(v, found) ← Get s (prefix ++ [Setting_Name setting]);
      if found : bool then
        '(st', err) ← SetValue cast st setting v;
        match err with
        | Some e =>
            Ret (st', Some ("failed to load setting " +:+ Setting_Name setting
                              +:+ " due to: " +:+ e))
        | None => LoadAt s prefix rest st'
        end
      else LoadAt s prefix rest st
  end.

End Loading.

(** The groups of a tree with the path of each, in the order the loop
    visits them: a group, then its children from the last to the first,
    each with its whole subtree.  [path] is the path of [g] itself: the
    names of its ancestors, root first, and then its own name. *)
Fixpoint visits (path : list string) (g : Group)
  : list (list string * Group) :=
  match g with
  | SettingGroup _ _ gs _ =>
      (path, g) ::
      (fix forest (l : list Group) : list (list string * Group) :=
         match l with
         | [] => []
         | g' :: l' => forest l' ++ visits (path ++ [Group_Name g']) g'
         end) gs
  end.

(** The same for the groups [l] whose ancestors are [ancestors]. *)
Fixpoint visits_forest (ancestors : list string) (l : list Group)
  : list (list string * Group) :=
  match l with
  | [] => []
  | g :: l' =>
      visits_forest ancestors l' ++ visits (ancestors ++ [Group_Name g]) g
  end.

Section LoadingSpec.

Variable cast : CastFn -> value -> value * error.

(** Load the visited groups one after the other, each at its path, and
    stop at the first failure. *)
Fixpoint LoadVisits (s : Source) (vs : list (list string * Group))
  (st : store) : outcome (store * error) :=
  match vs with
  | [] => Ret (st, None)
  | (path, g) :: vs' =>
      match LoadAt cast s path (Group_Settings g) st with
      | Panic msg => Panic msg
      | Ret (st', Some e) =>
          Ret (st', Some ("failed to load group " +:+ Group_Name g
                            +:+ " due to: " +:+ e))
      | Ret (st', None) => LoadVisits s vs' st'
      end
  end.

End LoadingSpec.

(** *** A model of the casts used in the examples

    github.com/spf13/cast is not part of the repository.  The model covers
    [ToIntE], [ToStringE] and [ToBoolE] on nil, booleans, integers and
    strings, with decimal literals for the integers: a value of the target
    type is returned as it is, a string is parsed, and an input that cannot
    be interpreted yields the zero value of the target type together with
    an error.  The other casts are left out: they report an error on every
    input, and no statement below runs them. *)

Definition digit_of (c : ascii) : option Z :=
  let n := nat_of_ascii c in
  if (48 <=? n)%nat && (n <=? 57)%nat then Some (Z.of_nat (n - 48)) else None.

Fixpoint parse_digits (acc : Z) (s : string) : option Z :=
  match s with
  | EmptyString => Some acc
  | String c rest =>
      match digit_of c with
      | Some d => parse_digits (10 * acc + d) rest
      | None => None
      end
  end.

(** [strconv.ParseInt] on decimal literals with an optional sign. *)
Definition parse_int (s : string) : option Z :=
  match s with
  | EmptyString => None
  | String "-" (String c rest) => Z.opp <$> parse_digits 0 (String c rest)
  | String "+" (String c rest) => parse_digits 0 (String c rest)
  | _ => parse_digits 0 s
  end.

Definition castModel (f : CastFn) (v : value) : value * error :=
  match f with
  | ToIntE =>
      match v with
      | VInt z => (VInt z, None)
      | VBool b => (VInt (if b then 1 else 0), None)
      | VNil => (VInt 0, None)
      | VString s =>
          match parse_int s with
          | Some z => (VInt z, None)
          | None => (VInt 0, Some "unable to cast to int")
          end
      | _ => (VInt 0, Some "unable to cast to int")
      end
  | ToStringE =>
      match v with
      | VString s => (VString s, None)
      | VBool b => (VString (if b then "true" else "false"), None)
      | VInt z => (VString (NilZero.string_of_int (Z.to_int z)), None)
      | VNil => (VString "", None)
      | _ => (VString "", Some "unable to cast to string")
      end
  | ToBoolE =>
      match v with
      | VBool b => (VBool b, None)
      | VNil => (VBool false, None)
      | VInt z => (VBool (negb (z =? 0)%Z), None)
      | VString s =>
          if existsb (String.eqb s) ["1"; "t"; "T"; "TRUE"; "true"; "True"]
          then (VBool true, None)
          else if existsb (String.eqb s)
                    ["0"; "f"; "F"; "FALSE"; "false"; "False"]
          then (VBool false, None)
          else (VBool false, Some "unable to cast to bool")
      | _ => (VBool false, Some "unable to cast to bool")
      end
  | _ => (VNil, Some "cast outside the model")
  end.

(** The groups still to be visited, read off the stack from its top. *)
Definition stack_visits (stack : list groupLoad) : list (list string * Group) :=
  flat_map (fun gl => visits (Path gl) (LGroup gl)) stack.

(** The pairs [(T, error)] the converter returns: [(x, nil)] or
    [(nil, err)]. *)
Inductive result (A : Type) : Type :=
| Ok (a : A)
| Err (msg : string).
#[global] Arguments Ok {A} a.
#[global] Arguments Err {A} msg.

(** ** Reflection

    What the package sees of a Go value through the [reflect] package. *)

Inductive Kind : Type :=
| KInvalid | KBool
| KInt | KInt8 | KInt16 | KInt32 | KInt64
| KUint | KUint8 | KUint16 | KUint32 | KUint64 | KUintptr
| KFloat32 | KFloat64 | KComplex64 | KComplex128
| KArray | KChan | KFunc | KInterface | KMap | KPtr | KSlice | KString
| KStruct | KUnsafePointer.

#[global] Instance Kind_eq_dec : EqDecision Kind.
Proof. solve_decision. Defined.

(** [Kind.String()] *)
Definition Kind_String (k : Kind) : string :=
  match k with
  | KInvalid => "invalid" | KBool => "bool"
  | KInt => "int" | KInt8 => "int8" | KInt16 => "int16" | KInt32 => "int32"
  | KInt64 => "int64"
  | KUint => "uint" | KUint8 => "uint8" | KUint16 => "uint16"
  | KUint32 => "uint32" | KUint64 => "uint64" | KUintptr => "uintptr"
  | KFloat32 => "float32" | KFloat64 => "float64"
  | KComplex64 => "complex64" | KComplex128 => "complex128"
  | KArray => "array" | KChan => "chan" | KFunc => "func"
  | KInterface => "interface" | KMap => "map" | KPtr => "ptr"
  | KSlice => "slice" | KString => "string" | KStruct => "struct"
  | KUnsafePointer => "unsafe.Pointer"
  end.

(** [reflect.Type]: its [Kind()], [Name()], [String()] and, for a type with
    elements, [Elem()]. *)
#[local] Unset Elimination Schemes.
Inductive rtype : Type :=
| mkType (k : Kind) (name : string) (str : string) (elem : option rtype).
#[local] Set Elimination Schemes.

Definition tKind (t : rtype) : Kind := match t with mkType k _ _ _ => k end.
Definition tName (t : rtype) : string := match t with mkType _ n _ _ => n end.
Definition tString (t : rtype) : string := match t with mkType _ _ s _ => s end.
Definition tElem (t : rtype) : option rtype :=
  match t with mkType _ _ _ e => e end.

(** [reflect.StructField]: [Name], [Anonymous], [Tag.Get("description")] and
    [IsExported()]. *)
Record StructField : Type := mkField {
  FieldName : string;
  Anonymous : bool;
  TagDescription : string;
  Exported : bool
}.

(** A Go value as reflection walks it.  Every variable has its location in
    the store.  [GLeaf] is a value that is neither a pointer nor a struct;
    [GPtr] is a pointer with the variable it points to, if any; [GStruct] is
    a struct with its fields, and with the results of [Name()] and
    [Description()] when the pointer to the struct implements [namer] and
    [describer]. *)
#[local] Unset Elimination Schemes.
Inductive gval : Type :=
| GLeaf (t : rtype) (p : loc)
| GPtr (t : rtype) (p : loc) (target : option gval)
| GStruct (t : rtype) (p : loc) (namer : option string)
          (describer : option string) (fields : list (StructField * gval)).
#[local] Set Elimination Schemes.

Definition gtype (g : gval) : rtype :=
  match g with
  | GLeaf t _ => t
  | GPtr t _ _ => t
  | GStruct t _ _ _ _ => t
  end.

Definition gloc (g : gval) : loc :=
  match g with
  | GLeaf _ p => p
  | GPtr _ p _ => p
  | GStruct _ p _ _ _ => p
  end.

(** The read-only flags of a [reflect.Value]: set on a value reached through
    an unexported field, [flagEmbedRO] when the field is embedded and
    [flagStickyRO] when it is not. *)
Inductive ROFlag : Type := NotRO | EmbedRO | StickyRO.

(** [reflect.Value]: the value ([None] for the zero [Value]) with
    [flagAddr] and the read-only flag. *)
Record rvalue : Type := mkValue {
  rv : option gval;
  flagAddr : bool;
  flagRO : ROFlag
}.

Definition zeroValue : rvalue := mkValue None false NotRO.

(** [reflect.ValueOf(v)]; [None] is the nil interface. *)
Definition ValueOf (v : option gval) : rvalue := mkValue v false NotRO.

(** [reflect.Indirect]: [v.Elem()] for a pointer, [v] otherwise.  The
    element of a non-nil pointer is addressable and keeps the read-only
    flag; the element of a nil pointer is the zero [Value]. *)
Definition Indirect (x : rvalue) : rvalue :=
  match rv x with
  | Some (GPtr _ _ (Some g)) => mkValue (Some g) true (flagRO x)
  | Some (GPtr _ _ None) => zeroValue
  | _ => x
  end.

Definition rKind (x : rvalue) : Kind :=
  match rv x with
  | None => KInvalid
  | Some (GLeaf t _) => tKind t
  | Some (GPtr _ _ _) => KPtr
  | Some (GStruct _ _ _ _ _) => KStruct
  end.

Definition rType (x : rvalue) : outcome rtype :=
  match rv x with
  | None => Panic "reflect: call of reflect.Value.Type on zero Value"
  | Some g => Ret (gtype g)
  end.

Definition CanAddr (x : rvalue) : bool := flagAddr x.

(** [v.Addr()] *)
Definition rAddr (x : rvalue) : outcome loc :=
  match rv x with
  | Some g =>
      if flagAddr x then Ret (gloc g)
      else Panic "reflect.Value.Addr of unaddressable value"
  | None => Panic "reflect: call of reflect.Value.Addr on zero Value"
  end.

(** [v.Interface()]: refused on a read-only value. *)
Definition rInterface (x : rvalue) : outcome (option gval) :=
  match flagRO x with
  | NotRO => Ret (rv x)
  | _ => Panic "reflect.Value.Interface: cannot return value obtained from unexported field or method"
  end.

(** The flag of [v.Field(i)]: the sticky flag of [v] is inherited, and an
    unexported field sets its own. *)
Definition fieldRO (parent : ROFlag) (f : StructField) : ROFlag :=
  if Exported f then
    match parent with StickyRO => StickyRO | _ => NotRO end
  else if Anonymous f then
    match parent with StickyRO => StickyRO | _ => EmbedRO end
  else StickyRO.

(** [fieldAndValue] of convert.go *)
Record fieldAndValue : Type := mkFieldAndValue {
  Field : StructField;
  FValue : rvalue
}.

(** [v.Type().Field(x)] with [v.Field(x)], for [x = 0 .. v.NumField()-1]. *)
Definition structFields (x : rvalue) : list fieldAndValue :=
  match rv x with
  | Some (GStruct _ _ _ _ fields) =>
      map (fun fg : StructField * gval =>
             {| Field := fst fg;
                FValue := mkValue (Some (snd fg)) (flagAddr x)
                                  (fieldRO (flagRO x) (fst fg)) |}) fields
  | _ => []
  end.

(** [stack = append(stack, fieldAndValue{...})] for every field of [x]; the
    top of the stack is the head of the list. *)
Definition pushFields (x : rvalue) (stack : list fieldAndValue)
  : list fieldAndValue :=
  fold_left (fun stk fv => fv :: stk) (structFields x) stack.

(** [vv.Addr().Interface().(namer)] and [.(describer)] *)
Definition namerOf (x : rvalue) : option string :=
  match rv x with
  | Some (GStruct _ _ n _ _) => n
  | _ => None
  end.

Definition describerOf (x : rvalue) : option string :=
  match rv x with
  | Some (GStruct _ _ _ d _) => d
  | _ => None
  end.

(** ** Converter (convert.go) *)

Definition timeName : string := "time.Time".
Definition durationName : string := "time.Duration".

(** The [String()] of the type a variant stores: the type of the variable
    its pointer field may be set to.  A type is taken to be identified by
    its [String()]. *)
Definition valueType (k : SettingKind) : string :=
  match k with
  | StringSetting => "string" | BoolSetting => "bool"
  | IntSetting => "int" | Int8Setting => "int8" | Int16Setting => "int16"
  | Int32Setting => "int32" | Int64Setting => "int64"
  | UintSetting => "uint" | Uint8Setting => "uint8"
  | Uint16Setting => "uint16" | Uint32Setting => "uint32"
  | Uint64Setting => "uint64"
  | Float32Setting => "float32" | Float64Setting => "float64"
  | TimeSetting => "time.Time" | DurationSetting => "time.Duration"
  | BoolSliceSetting => "[]bool"
  | DurationSliceSetting => "[]time.Duration"
  | IntSliceSetting => "[]int"
  | StringSliceSetting => "[]string"
  | StringMapStringSliceSetting => "map[string][]string"
  end.

(** [s := &XSetting{BaseSetting: ...}; sv.FieldByName("XValue").Set(v.Addr())]:
    [Addr] needs an addressable value, and [Set] a value that is not
    read-only and whose type is the one of the field. *)
Definition newSettingAt (k : SettingKind) (name description : string)
  (v : rvalue) : outcome (result Setting) :=
  t ← rType v;
  p ← rAddr v;
  match flagRO v with
  | NotRO =>
      if String.eqb (tString t) (valueType k) then
        Ret (Ok (mkSetting k (mkBaseSetting name description) p))
      else
        Panic ("reflect.Set: value of type *" +:+ tString t
                 +:+ " is not assignable to type *" +:+ valueType k)
  | _ => Panic "reflect: reflect.Value.Set using value obtained using unexported field"
  end.

(** [settingFromValue] *)
Definition settingFromValue (name description : string) (v : rvalue)
  : outcome (result Setting) :=
  t ← rType v;
  if String.eqb (tString t) timeName then
    newSettingAt TimeSetting name description v
  else if String.eqb (tString t) durationName then
    newSettingAt DurationSetting name description v
  else
    match rKind v with
    | KBool => newSettingAt BoolSetting name description v
    | KInt8 => newSettingAt Int8Setting name description v
    | KInt16 => newSettingAt Int16Setting name description v
    | KInt32 => newSettingAt Int32Setting name description v
    | KInt64 => newSettingAt Int64Setting name description v
    | KMap =>
        if String.eqb (tString t) "map[string][]string" then
          newSettingAt StringMapStringSliceSetting name description v
        else Ret (Err ("unknown map value type for setting " +:+ tString t))
    | KUint => newSettingAt UintSetting name description v
    | KUint8 => newSettingAt Uint8Setting name description v
    | KUint16 => newSettingAt Uint16Setting name description v
    | KUint32 => newSettingAt Uint32Setting name description v
    | KUint64 => newSettingAt Uint64Setting name description v
    | KInt => newSettingAt IntSetting name description v
    | KFloat32 => newSettingAt Float32Setting name description v
    | KFloat64 => newSettingAt Float64Setting name description v
    | KString => newSettingAt StringSetting name description v
    | KSlice =>
        match tElem t with
        | None => Panic "reflect: Elem of invalid type"
        | Some te =>
            if String.eqb (tString te) durationName then
              newSettingAt DurationSliceSetting name description v
            else
              match tKind te with
              | KString => newSettingAt StringSliceSetting name description v
              | KInt => newSettingAt IntSliceSetting name description v
              | k => Ret (Err ("unknown setting type []" +:+ Kind_String k))
              end
        end
    | k => Ret (Err ("unknown setting type " +:+ Kind_String k))
    end.

(** [nameTmp[len(nameTmp)-1]] of [strings.Split(name, ".")] *)
Definition lastSegment (name : string) : string :=
  List.last (Split "." name) "".

Definition addSetting (g : Group) (set : Setting) : Group :=
  match g with
  | SettingGroup n d gs ss => SettingGroup n d gs (ss ++ [set])
  end.

Definition addGroup (g : Group) (sub : Group) : Group :=
  match g with
  | SettingGroup n d gs ss => SettingGroup n d (gs ++ [sub]) ss
  end.


(** The part of [Convert] before the loop: the checks on [v], and the name
    and description of the group.  It ends with an early return or with the
    empty group and the stack of the fields of the struct. *)
Inductive start : Type :=
| StartDone (r : outcome (result Group))
| StartLoop (name : string) (g : Group) (stack : list fieldAndValue).

Definition Convert_start (v : option gval) : start :=
  let vv := Indirect (ValueOf v) in
  match v with
  | None => StartDone (Ret (Err "nil value given to Convert"))
  | Some _ =>
      match rType vv with
      | Panic msg => StartDone (Panic msg)
      | Ret t =>
          if negb (bool_decide (rKind vv = KStruct)) then
            StartDone (Ret (Err ("non-struct value " +:+ tString t
                                   +:+ " given to Convert")))
          else if negb (CanAddr vv) then
            StartDone (Ret (Err ("unaddressable value " +:+ tString t
                                   +:+ " given to Convert")))
          else
            let name :=
              match namerOf vv with
              | Some n => n
              | None => lastSegment (tName t)
              end in
            let desc :=
              match describerOf vv with
              | Some d => d
              | None => ""
              end in
            StartLoop name (SettingGroup name desc [] []) (pushFields vv [])
      end
  end.

(** One turn of the loop on the entry [current] popped from the stack, up
    to what the turn does next: it returns ([StepDone]), it pushes the
    fields of an embedded struct ([StepFlatten]), it appends a setting
    ([StepSetting]), or it calls [Convert] on the field and appends the
    group ([StepGroup]). *)
Inductive step : Type :=
| StepDone (r : outcome (result Group))
| StepFlatten
| StepSetting (set : Setting)
| StepGroup (i : option gval).

Definition Convert_step (name : string) (g : Group) (current : fieldAndValue)
  : step :=
  let currentF := Field current in
  let currentV := FValue current in
  let currentVV := Indirect currentV in
  let desc := TagDescription currentF in
  if bool_decide (rKind currentVV = KStruct) && Anonymous currentF then
    StepFlatten
  else if negb (CanAddr currentVV) then
    match rType currentV with
    | Panic msg => StepDone (Panic msg)
    | Ret t =>
        StepDone (Ret (Err (tString t +:+ " field " +:+ name +:+ "."
                              +:+ FieldName currentF
                              +:+ " must be a pointer type")))
    end
  else
    match rType currentVV with
    | Panic msg => StepDone (Panic msg)
    | Ret t =>
        if negb (bool_decide (rKind currentVV = KStruct))
           || String.eqb (tString t) timeName then
          match settingFromValue (FieldName currentF) desc currentVV with
          | Panic msg => StepDone (Panic msg)
          | Ret (Err e) =>
              StepDone (Ret (Err ("failed to convert " +:+ Group_Name g
                                    +:+ "." +:+ FieldName currentF
                                    +:+ " due to: " +:+ e)))
          | Ret (Ok set) => StepSetting set
          end
        else
          match rInterface currentV with
          | Panic msg => StepDone (Panic msg)
          | Ret i => StepGroup i
          end
    end.

(** [Convert] and its loop [for len(stack) > 0].  [fuel] bounds the calls
    and the turns together; [None] is returned when it runs out. *)
Fixpoint Convert_fuel (fuel : nat) (v : option gval) {struct fuel}
  : option (outcome (result Group)) :=
  match fuel with
  | O => None
  | S fuel' =>
      match Convert_start v with
      | StartDone r => Some r
      | StartLoop name g stack => Convert_loop fuel' name g stack
      end
  end
with Convert_loop (fuel : nat) (name : string) (g : Group)
       (stack : list fieldAndValue) {struct fuel}
  : option (outcome (result Group)) :=
  match stack with
  | [] => Some (Ret (Ok g))
  | current :: stack' =>
      match fuel with
      | O => None
      | S fuel' =>
          match Convert_step name g current with
          | StepDone r => Some r
          | StepFlatten =>
              Convert_loop fuel' name g
                           (pushFields (Indirect (FValue current)) stack')
          | StepSetting set => Convert_loop fuel' name (addSetting g set) stack'
          | StepGroup i =>
              match Convert_fuel fuel' i with
              | None => None
              | Some (Ret (Ok sub)) =>
                  Convert_loop fuel' name (addGroup g sub) stack'
              | Some (Ret (Err e)) => Some (Ret (Err e))
              | Some (Panic msg) => Some (Panic msg)
              end
          end
      end
  end.

(** The size of a value, and the fuel a stack and a call need. *)
Fixpoint gsize (g : gval) : nat :=
  match g with
  | GLeaf _ _ => 1
  | GPtr _ _ None => 1
  | GPtr _ _ (Some g') => S (gsize g')
  | GStruct _ _ _ _ fields =>
      S ((fix sum (l : list (StructField * gval)) : nat :=
            match l with
            | [] => 0
            | fg :: l' => 3 + gsize (snd fg) + sum l'
            end) fields)
  end.

Definition rsize (x : rvalue) : nat :=
  match rv x with
  | Some g => gsize g
  | None => 0
  end.

Definition stack_cost (stack : list fieldAndValue) : nat :=
  fold_right (fun e n => 3 + rsize (FValue e) + n) 0 stack.

Definition Convert_cost (v : option gval) : nat :=
  match v with
  | None => 1
  | Some g => 2 + gsize g
  end.

(** [Convert].  The fuel is enough for every value ([Convert_fuel_stable]
    below). *)
Definition Convert (v : option gval) : outcome (result Group) :=
  match Convert_fuel (Convert_cost v) v with
  | Some r => r
  | None => Panic "Convert: out of fuel"
  end.

(** The loop of [Convert] from a given group and stack. *)
Definition Convert_rest (name : string) (g : Group)
  (stack : list fieldAndValue) : outcome (result Group) :=
  match Convert_loop (stack_cost stack) name g stack with
  | Some r => r
  | None => Panic "Convert: out of fuel"
  end.

(** The setting an entry contributes, when its turn of the loop makes
    one.  The name and the group a turn is given only show in its error
    messages. *)
Definition entrySetting (e : fieldAndValue) : option Setting :=
  match Convert_step "" (SettingGroup "" "" [] []) e with
  | StepSetting set => Some set
  | _ => None
  end.

(** The name [Convert] gives to the group of a struct. *)
Definition groupName (g : gval) : string :=
  match g with
  | GStruct t _ (Some n) _ _ => n
  | _ => lastSegment (tName (gtype g))
  end.

(** ** Components (component.go) *)

(** A method of the method set of a type: its name and the types of its
    arguments and results, the receiver left out
    ([Type.Method(x).Name], [Value.MethodByName(n).Type()]). *)
Record Method : Type := mkMethod {
  MethodName : string;
  MIn : list rtype;
  MOut : list rtype
}.

(** The first result of [New] as [reflect] hands it out: a pointer, nil or
    not, or another value, each with its type. *)
Inductive newValue : Type :=
| NewPtr (t : rtype) (target : option (rtype * value))
| NewVal (t : rtype) (x : value).

(** An implementation of the component contract as the package sees it: the
    type and the method set reflection reports, and what running
    [Settings()] and [New(ctx, settings)] does.  Both are code of the user:
    they may write to the store and may panic.  The conversions of the two
    arguments of [New] are part of the call, and the second result of [New]
    is taken to be of the interface type [error]. *)
Record Component : Type := mkComponent {
  CType : rtype;
  Methods : list Method;
  CallSettings : store -> outcome (store * option gval);
  CallNew : option gval -> store -> outcome (store * (newValue * error))
}.

(** The loop over [vv.Type().Method(x).Name]: the pair
    [(hasSettings, hasNew)]. *)
Definition scanMethods (ms : list Method) : bool * bool :=
  fold_left (fun (acc : bool * bool) m =>
               if String.eqb (MethodName m) "Settings" then (true, snd acc)
               else if String.eqb (MethodName m) "New" then (fst acc, true)
               else acc)
            ms (false, false).

(** [vv.MethodByName(name)] *)
Definition MethodByName (ms : list Method) (name : string) : option Method :=
  List.find (fun m => String.eqb (MethodName m) name) ms.

Section Components.

(** [Type.ConvertibleTo] and the assignability [Value.Set] asks for are
    relations of the Go language; [backgroundType] is
    [reflect.TypeOf(context.Background())]. *)
Variable ConvertibleTo : rtype -> rtype -> bool.
Variable AssignableTo : rtype -> rtype -> bool.
Variable backgroundType : rtype.

(** [VerifyComponent]; [None] is the nil interface. *)
Definition VerifyComponent (v : option Component) : outcome error :=
  match v with
  | None => Panic "reflect: call of reflect.Value.Type on zero Value"
  | Some c =>
      let ty := tString (CType c) in
      let '(hasSettings, hasNew) := scanMethods (Methods c) in
      if negb hasSettings then
        Ret (Some ("type " +:+ ty +:+ " does not have a `Settings() T` method"))
      else if negb hasNew then
        Ret (Some ("type " +:+ ty
                     +:+ " does not have a `New(ctx, T) (T2, error)` method"))
      else
        match MethodByName (Methods c) "Settings",
              MethodByName (Methods c) "New" with
        | Some sm, Some nm =>
            if negb (length (MIn sm) =? 0)%nat then
              Ret (Some ("method Settings for " +:+ ty
                           +:+ " must not take arguments"))
            else
              match MOut sm with
              | [smOut] =>
                  match MIn nm with
                  | [in0; in1] =>
                      match MOut nm with
                      | [out0; out1] =>
                          if negb (ConvertibleTo backgroundType in0) then
                            Ret (Some ("method New for " +:+ ty
                              +:+ " must accept context as the first argument"))
                          else if negb (ConvertibleTo smOut in1) then
                            Ret (Some ("method New for " +:+ ty
                              +:+ " must accept an instance of Settings() return value"))
                          else if negb (String.eqb (tName out1) "error") then
                            Ret (Some ("method New for " +:+ ty
                              +:+ " must return an error as the second value"))
                          else Ret None
                      | _ =>
                          Ret (Some ("method New for " +:+ ty
                                       +:+ " must return only two values"))
                      end
                  | _ =>
                      Ret (Some ("method New for " +:+ ty
                                   +:+ " must take only two arguments"))
                  end
              | _ =>
                  Ret (Some ("method Settings for " +:+ ty
                               +:+ " must return only one value"))
              end
        | _, _ => Panic "reflect: call of reflect.Value.Type on zero Value"
        end
  end.

(** The [destination] argument of [NewComponent]: the nil interface, a
    value that is not a pointer, or a pointer of type [t] to a variable of
    type [elem], nil or not. *)
Inductive destination : Type :=
| DestNil
| DestOther (t : rtype)
| DestPtr (t : rtype) (elem : rtype) (target : option loc).

(** [reflect.Indirect(nV)] with its type: [None] is the zero [Value]. *)
Definition indirectNew (nV : newValue) : option (rtype * value) :=
  match nV with
  | NewPtr _ target => target
  | NewVal t x => Some (t, x)
  end.

Variable cast : CastFn -> value -> value * error.

(** [NewComponent].  With a nil interface as destination the message of the
    first error is built from [dv.Type()], which panics. *)
Definition NewComponent (s : Source) (v : option Component)
  (dst : destination) (st : store) : outcome (store * error) :=
  match dst with
  | DestNil => Panic "reflect: call of reflect.Value.Type on zero Value"
  | DestOther t =>
      Ret (st, Some ("destination " +:+ tString t +:+ " must be a pointer type"))
  | DestPtr t _ None =>
      Ret (st, Some ("destination " +:+ tString t
                       +:+ " cannot be nil. use new(T) to make a pointer"))
  | DestPtr t elem (Some l) =>
      err ← VerifyComponent v;
      match err, v with
      | Some e, _ => Ret (st, Some e)
      | None, None => Panic "reflect: call of reflect.Value.Type on zero Value"
      | None, Some c =>
          '(st1, smOut) ← CallSettings c st;
          r ← Convert smOut;
          match r with
          | Err e => Ret (st1, Some e)
          | Ok g =>
              '(st2, err) ← LoadGroups cast s [g] st1;
              match err with
              | Some e => Ret (st2, Some e)
              | None =>
                  '(st3, (nV, nErr)) ← CallNew c smOut st2;
                  match nErr with
                  | Some e => Ret (st3, Some e)
                  | None =>
                      match indirectNew nV with
                      | None =>
                          Panic "reflect: call of reflect.Value.Type on zero Value"
                      | Some (tv, x) =>
                          if negb (ConvertibleTo tv elem) then
                            Ret (st3, Some ("cannot convert " +:+ tString tv
                                              +:+ " into " +:+ tString elem))
                          else if negb (AssignableTo tv elem) then
                            Panic ("reflect.Set: value of type " +:+ tString tv
                                     +:+ " is not assignable to type "
                                     +:+ tString elem)
                          else
                            st4 ← assign st3 l x;
                            Ret (st4, None)
                      end
                  end
              end
          end
      end
  end.

End Components.

(** *** Footprints *)

(** The locations the settings of a group tree point to. *)
Fixpoint Group_ptrs (g : Group) : list loc :=
  match g with
  | SettingGroup _ _ gs ss =>
      map ValuePtr ss ++
      (fix forest (l : list Group) : list loc :=
         match l with
         | [] => []
         | g' :: l' => Group_ptrs g' ++ forest l'
         end) gs
  end.

Definition Groups_ptrs (l : list Group) : list loc :=
  flat_map Group_ptrs l.

(** The locations of the variables of a value. *)
Fixpoint gval_locs (g : gval) : list loc :=
  match g with
  | GLeaf _ p => [p]
  | GPtr _ p None => [p]
  | GPtr _ p (Some g') => p :: gval_locs g'
  | GStruct _ p _ _ fields =>
      p :: (fix all (l : list (StructField * gval)) : list loc :=
              match l with
              | [] => []
              | fg :: l' => gval_locs (snd fg) ++ all l'
              end) fields
  end.

Definition value_locs (v : option gval) : list loc :=
  match v with
  | Some g => gval_locs g
  | None => []
  end.

Definition stack_locs (stack : list fieldAndValue) : list loc :=
  flat_map (fun e => value_locs (rv (FValue e))) stack.

(** *** Paths in a forest of groups

    [reaches groups path g]: [g] is found in the forest [groups] by
    following the group names of [path], the name of a root first and the
    name of [g] last. *)
Inductive reaches : list Group -> list string -> Group -> Prop :=
| reaches_root groups g :
    In g groups -> reaches groups [Group_Name g] g
| reaches_child groups parent path g :
    In parent groups ->
    reaches (Group_Groups parent) path g ->
    reaches groups (Group_Name parent :: path) g.

(** ** The components of the test suite (component_test.go)

      type testConf struct { Value string }
      type testItem struct { Value string }
      Settings() *testConf
      New(_ context.Context, c *testConf) ( *testItem, error)

    are the methods of both components.  [testComponent.New] returns [&testItem{Value: c.Value}] and
    [testComponentErr.New] returns [nil, errors.New("error")].  The value
    [Settings] returns lives at the locations 100 to 102; a struct value is
    kept as the map of its fields. *)

Definition stringType : rtype := mkType KString "string" "string" None.
Definition errorType : rtype := mkType KInterface "error" "error" None.
Definition contextType : rtype :=
  mkType KInterface "Context" "context.Context" None.
Definition backgroundCtxType : rtype :=
  mkType KStruct "backgroundCtx" "context.backgroundCtx" None.
Definition testConfType : rtype :=
  mkType KStruct "testConf" "settings.testConf" None.
Definition testConfPtr : rtype :=
  mkType KPtr "" "*settings.testConf" (Some testConfType).
Definition testItemType : rtype :=
  mkType KStruct "testItem" "settings.testItem" None.
Definition testItemPtr : rtype :=
  mkType KPtr "" "*settings.testItem" (Some testItemType).
Definition testComponentType : rtype :=
  mkType KPtr "" "*settings.testComponent" None.

(** Identical types convert and assign to each other, and the background
    context converts to [context.Context]: the part of the two relations
    the examples use. *)
Definition sameType (a b : rtype) : bool := String.eqb (tString a) (tString b).

Definition convertibleModel (a b : rtype) : bool :=
  sameType a b
  || (sameType a backgroundCtxType && sameType b contextType).

Definition assignableModel (a b : rtype) : bool := sameType a b.

Definition testMethods : list Method :=
  [ mkMethod "New" [contextType; testConfPtr] [testItemPtr; errorType];
    mkMethod "Settings" [] [testConfPtr] ].

Definition testSettings (st : store) : outcome (store * option gval) :=
  Ret (<[102%nat := VString ""]> st,
       Some (GPtr testConfPtr 100%nat
               (Some (GStruct testConfType 101%nat None None
                        [(mkField "Value" false "" true,
                          GLeaf stringType 102%nat)])))).

Definition testComponent : Component :=
  {| CType := testComponentType;
     Methods := testMethods;
     CallSettings := testSettings;
     CallNew := fun _ st =>
       Ret (st, (NewPtr testItemPtr
                   (Some (testItemType,
                          VMap [("Value", default VNil (st !! 102%nat))])),
                 None)) |}.

Definition testComponentErr : Component :=
  {| CType := testComponentType;
     Methods := testMethods;
     CallSettings := testSettings;
     CallNew := fun _ st => Ret (st, (NewPtr testItemPtr None, Some "error")) |}.

(** A component that keeps its configuration in a field of its own,

      type sharedComponent struct { cfg testConf }
      func (c *sharedComponent) Settings() *testConf { return &c.cfg }

    and whose [New] returns [nil, errors.New("error")].  The configuration
    lives at the locations 100 to 102 of the store the call starts from:
    [Settings] allocates nothing. *)
Definition stringPtr : rtype := mkType KPtr "" "*string" (Some stringType).

Definition sharedSettings (st : store) : outcome (store * option gval) :=
  Ret (st,
       Some (GPtr testConfPtr 100%nat
               (Some (GStruct testConfType 101%nat None None
                        [(mkField "Value" false "" true,
                          GLeaf stringType 102%nat)])))).

Definition sharedComponentErr : Component :=
  {| CType := mkType KPtr "" "*settings.sharedComponent" None;
     Methods := testMethods;
     CallSettings := sharedSettings;
     CallNew := fun _ st => Ret (st, (NewPtr testItemPtr None, Some "error")) |}.

(** ** The structs of the converter tests (convert_test.go)

      type named     struct{}            with Name() = "TEST"
      type described struct{ *named }    with Description() = "TEST"
      type inner     struct{ V string }
      type embedded  struct{ *inner }
      type nested    struct{ V *inner }                                   *)

Definition ptrTo (t : rtype) : rtype :=
  mkType KPtr "" ("*" +:+ tString t) (Some t).

Definition innerType : rtype := mkType KStruct "inner" "settings.inner" None.
Definition embeddedType : rtype :=
  mkType KStruct "embedded" "settings.embedded" None.
Definition nestedType : rtype := mkType KStruct "nested" "settings.nested" None.
Definition namedType : rtype := mkType KStruct "named" "settings.named" None.
Definition describedType : rtype :=
  mkType KStruct "described" "settings.described" None.
Definition anonymousStruct (str : string) : rtype := mkType KStruct "" str None.

(** [&inner{V: "a"}], with the pointer at [p] *)
Definition innerValue (p : loc) : gval :=
  GPtr (ptrTo innerType) p
    (Some (GStruct innerType (p + 1) None None
             [(mkField "V" false "" true, GLeaf stringType (p + 2))])).

(** [&embedded{&inner{V: "a"}}] *)
Definition embeddedValue : gval :=
  GPtr (ptrTo embeddedType) 0%nat
    (Some (GStruct embeddedType 1%nat None None
             [(mkField "inner" true "" false, innerValue 2%nat)])).

(** [&nested{V: &inner{V: "a"}}] *)
Definition nestedValue : gval :=
  GPtr (ptrTo nestedType) 0%nat
    (Some (GStruct nestedType 1%nat None None
             [(mkField "V" false "" true, innerValue 2%nat)])).

(** [&described{&named{}}]: [Name] is promoted from the embedded [*named]. *)
Definition describedValue : gval :=
  GPtr (ptrTo describedType) 0%nat
    (Some (GStruct describedType 1%nat (Some "TEST") (Some "TEST")
             [(mkField "named" true "" false,
               GPtr (ptrTo namedType) 2%nat
                 (Some (GStruct namedType 3%nat (Some "TEST") None [])))])).

(** [&(struct{ V struct{} }{V: struct{}{}})] *)
Definition byValueValue : gval :=
  GPtr (ptrTo (anonymousStruct "struct { V struct {} }")) 0%nat
    (Some (GStruct (anonymousStruct "struct { V struct {} }") 1%nat None None
             [(mkField "V" false "" true,
               GStruct (anonymousStruct "struct {}") 2%nat None None [])])).

(** [&(struct { V string `description:"a string"` }{V: "a"})] *)
Definition annotatedValue : gval :=
  GPtr (ptrTo (anonymousStruct "struct { V string }")) 0%nat
    (Some (GStruct (anonymousStruct "struct { V string }") 1%nat None None
             [(mkField "V" false "a string" true, GLeaf stringType 2%nat)])).

(** The method sets of the rejected components of component_test.go. *)
Definition missingNewMethods : list Method :=
  [ mkMethod "Settings" [] [testConfPtr] ].

Definition newTooManyArgsMethods : list Method :=
  [ mkMethod "New" [contextType; mkType KInt "int" "int" None; testConfPtr]
             [testItemPtr; errorType];
    mkMethod "Settings" [] [testConfPtr] ].

Definition newWrongErrorTypeMethods : list Method :=
  [ mkMethod "New" [contextType; testConfPtr]
             [testItemPtr; mkType KInt "int" "int" None];
    mkMethod "Settings" [] [testConfPtr] ].

Definition componentOf (ms : list Method) : Component :=
  {| CType := testComponentType;
     Methods := ms;
     CallSettings := testSettings;
     CallNew := fun _ st => Ret (st, (NewPtr testItemPtr None, None)) |}.

(** ** More of the package: YAML maps, constructors, components *)

(** The entry a map holds for a key when the case of the letters is set
    aside: the first entry whose key, in lower case, is [q]. *)
Definition getLower (m : gomap) (q : string) : option value :=
  snd <$> List.find (fun kv => String.eqb (ToLower (fst kv)) q) m.

(** The keys of a map in lower case. *)
Definition lowerKeys (m : gomap) : list string :=
  map (fun kv => ToLower (fst kv)) m.

(** The string [s] holds the byte [c]. *)
Fixpoint hasByte (c : ascii) (s : string) : bool :=
  match s with
  | EmptyString => false
  | String c' rest => Ascii.eqb c' c || hasByte c rest
  end.

(** A value that is not a map: a leaf of the tree of a [MapSource]. *)
Definition isLeaf (v : value) : bool :=
  match v with
  | VMap _ => false
  | _ => true
  end.

(** ** YAML maps (source.go)

    What [yaml.Unmarshal] leaves in a [map[string]interface{}]: a nested
    map is a [map[interface{}]interface{}], whose keys are values of any
    type.  [YMapS] is a [map[string]interface{}], [YSlice] a sequence and
    [YScalar] any other value.  As for [gomap], the order of a list is
    the order in which [range] produces the entries. *)

#[local] Unset Elimination Schemes.
Inductive yvalue : Type :=
| YScalar (v : value)
| YSlice (l : list yvalue)
| YMapI (m : list (value * yvalue))
| YMapS (m : list (string * yvalue)).
#[local] Set Elimination Schemes.

Definition ymap : Type := list (string * yvalue).

Fixpoint ymap_get (m : ymap) (k : string) : option yvalue :=
  match m with
  | [] => None
  | (k', v) :: rest => if String.eqb k' k then Some v else ymap_get rest k
  end.

Definition ymap_delete (k : string) (m : ymap) : ymap :=
  List.filter (fun kv => negb (String.eqb (fst kv) k)) m.

Fixpoint ymap_set (k : string) (v : yvalue) (m : ymap) : ymap :=
  match m with
  | [] => [(k, v)]
  | (k', v') :: rest =>
      if String.eqb k' k then (k', v) :: rest else (k', v') :: ymap_set k v rest
  end.

(** [_, ok := sk.(string)] *)
Definition isStringKey (sk : value) : bool :=
  match sk with
  | VString _ => true
  | _ => false
  end.

Definition isMapI (v : yvalue) : bool :=
  match v with
  | YMapI _ => true
  | _ => false
  end.

(** The nesting of interface-keyed maps in a value and below the entries
    of a map: the number of turns a branch of the work list can take. *)
Fixpoint ydepth (v : yvalue) : nat :=
  match v with
  | YMapI vv =>
      S ((fix deepest (l : list (value * yvalue)) : nat :=
            match l with
            | [] => 0
            | kv :: l' => Nat.max (ydepth (snd kv)) (deepest l')
            end) vv)
  | _ => 0
  end.

Definition mdepth (m : ymap) : nat :=
  fold_right (fun kv n => Nat.max (ydepth (snd kv)) n) 0 m.

Section Yaml.

(** [fmt.Sprintf("%v", sk)] *)
Variable showKey : value -> string.

(** The loop [for sk, sv := range vv] that fills [tmp]. *)
Fixpoint stringKeys (vv : list (value * yvalue)) (tmp : ymap) : result ymap :=
  match vv with
  | [] => Ok tmp
  | (sk, sv) :: rest =>
      match sk with
      | VString s => stringKeys rest (ymap_set s sv tmp)
      | _ => Err ("map key " +:+ showKey sk +:+ " is not a string")
      end
  end.

(** The loop [for k, v := range current] over the entries [todo].  An
    interface-keyed map is replaced, under its key, by the string-keyed
    map made of its entries, and that map is pushed on the stack: the
    maps pushed are kept by their keys, in the order of the pushes.  The
    entry the loop creates holds a string-keyed map, on which a later
    visit does nothing. *)
Fixpoint convertLevel (todo : ymap) (current : ymap) (pushed : list string)
  : result (ymap * list string) :=
  match todo with
  | [] => Ok (current, pushed)
  | (k, v) :: rest =>
      match v with
      | YMapI vv =>
          match stringKeys vv [] with
          | Err e => Err e
          | Ok tmp =>
              convertLevel rest
                (ymap_set k (YMapS tmp) (ymap_delete k current))
                (pushed ++ [k])
          end
      | _ => convertLevel rest current pushed
      end
  end.

(** One map popped from the stack, with all that is pushed and popped
    until the stack is back to where it was: the maps pushed while
    [current] is visited are popped from the last to the first, and each
    is handled in the same way before the one pushed before it.  A map
    popped is the very object its parent holds, so the parent ends with
    the converted map.  [fuel] bounds the nesting; [None] is returned when
    it runs out. *)
Fixpoint convertYamlMap_loop (fuel : nat) (current : ymap)
  : option (result ymap) :=
  match fuel with
  | O => None
  | S fuel' =>
      match convertLevel current current [] with
      | Err e => Some (Err e)
      | Ok (current', pushed) =>
          fold_left
            (fun acc k =>
               match acc with
               | Some (Ok cur) =>
                   match ymap_get cur k with
                   | Some (YMapS tmp) =>
                       match convertYamlMap_loop fuel' tmp with
                       | Some (Ok tmp') => Some (Ok (ymap_set k (YMapS tmp') cur))
                       | Some (Err e) => Some (Err e)
                       | None => None
                       end
                   | _ => Some (Ok cur)
                   end
               | r => r
               end)
            (rev pushed) (Some (Ok current'))
      end
  end.

(** [convertYamlMap]: [(m, nil)] or [(nil, err)].  The fuel is enough for
    every map ([convertYamlMap_loop_total] below). *)
Definition convertYamlMap (m : ymap) : result ymap :=
  match convertYamlMap_loop (S (mdepth m)) m with
  | Some r => r
  | None => Err "convertYamlMap: out of fuel"
  end.

End Yaml.

(** Every key of every interface-keyed map the work list reaches is a
    string: the maps among the values of the map, and among the values of
    those, but not the maps inside of sequences or of string-keyed maps. *)
Fixpoint stringKeyed (v : yvalue) : bool :=
  match v with
  | YMapI vv =>
      (fix all (l : list (value * yvalue)) : bool :=
         match l with
         | [] => true
         | kv :: l' => isStringKey (fst kv) && stringKeyed (snd kv) && all l'
         end) vv
  | _ => true
  end.

Definition stringKeyedMap (m : ymap) : bool :=
  forallb (fun kv => stringKeyed (snd kv)) m.

(** No value of the map is an interface-keyed map. *)
Definition plainMap (m : ymap) : bool :=
  forallb (fun kv => negb (isMapI (snd kv))) m.

(** The deepest nesting among the values of an interface-keyed map. *)
Definition vdepth (vv : list (value * yvalue)) : nat :=
  fold_right (fun kv n => Nat.max (ydepth (snd kv)) n) 0 vv.

Section YamlInvariants.

Variable showKey : value -> string.

(** The error of [convertYamlMap]. *)
Definition keyError (e : string) : Prop :=
  exists sk, isStringKey sk = false /\
             e = "map key " +:+ showKey sk +:+ " is not a string".

(** What is known of a map pushed on the stack. *)
Definition pushedOk (D : nat) (sk : bool) (cur : ymap) (k : string) : Prop :=
  exists tmp, ymap_get cur k = Some (YMapS tmp) /\
              S (mdepth tmp) <= D /\
              (sk = true -> stringKeyedMap tmp = true).

(** The pops of one turn, from the maps pushed last. *)
Definition popAll (fuel : nat) (ks : list string) (acc : option (result ymap))
  : option (result ymap) :=
  fold_left
    (fun acc k =>
       match acc with
       | Some (Ok cur) =>
           match ymap_get cur k with
           | Some (YMapS tmp) =>
               match convertYamlMap_loop showKey fuel tmp with
               | Some (Ok tmp') => Some (Ok (ymap_set k (YMapS tmp') cur))
               | Some (Err e) => Some (Err e)
               | None => None
               end
           | _ => Some (Ok cur)
           end
       | r => r
       end) ks acc.

(** What a call returns: a map without an interface-keyed map among its
    values, or the error of a key that is not a string; and it is a map
    when all the keys reached are strings. *)
Definition loopOk (sk : bool) (r : result ymap) : Prop :=
  match r with
  | Ok m' => plainMap m' = true
  | Err e => sk = false /\ keyError e
  end.

End YamlInvariants.

(** [%v] on the keys of the examples: nil, booleans, integers and
    strings. *)
Definition showKeyModel (sk : value) : string :=
  match sk with
  | VNil => "<nil>"
  | VBool b => if b then "true" else "false"
  | VInt z => NilZero.string_of_int (Z.to_int z)
  | VString s => s
  | _ => "?"
  end.

(** The constructors [NewStringSetting], [NewBoolSetting], ... of
    setting.go, one per variant and all of the same shape:

      [return &XSetting{BaseSetting: &BaseSetting{...}, XValue: &fallback}]

    [&fallback] is the address of a variable of its own, which holds the
    fallback. *)
Definition NewSetting (k : SettingKind) (name description : string)
  (fallback : value) (st : store) : store * Setting :=
  let p := fresh (dom st) in
  (<[p := fallback]> st, mkSetting k (mkBaseSetting name description) p).

(** The kinds [settingFromValue] maps to a setting by the kind alone. *)
Definition scalarKinds : list Kind :=
  [KBool; KInt; KInt8; KInt16; KInt32; KInt64;
   KUint; KUint8; KUint16; KUint32; KUint64;
   KFloat32; KFloat64; KString].

(** The type [[]bool]. *)
Definition boolSliceType : rtype :=
  mkType KSlice "" "[]bool" (Some (mkType KBool "bool" "bool" None)).

(** [GroupFromComponent] of component.go: the contract is checked,
    [Settings] is called, and what it returns is converted. *)
Section ComponentGroup.

Variable ConvertibleTo : rtype -> rtype -> bool.
Variable backgroundType : rtype.

Definition GroupFromComponent (v : option Component) (st : store)
  : outcome (store * result Group) :=
  err ← VerifyComponent ConvertibleTo backgroundType v;
  match err, v with
  | Some e, _ => Ret (st, Err e)
  | None, None => Panic "reflect: call of reflect.Value.Type on zero Value"
  | None, Some c =>
      '(st1, smOut) ← CallSettings c st;
      r ← Convert smOut;
      Ret (st1, r)
  end.

End ComponentGroup.

(** One more component over the methods of the test suite: [New] returns
    a value of type [int32], which converts to the type [int64] of the
    destination without being assignable to it. *)
Definition int32Type : rtype := mkType KInt32 "int32" "int32" None.
Definition int64Type : rtype := mkType KInt64 "int64" "int64" None.

Definition testComponentInt32 : Component :=
  {| CType := testComponentType;
     Methods := testMethods;
     CallSettings := testSettings;
     CallNew := fun _ st => Ret (st, (NewVal int32Type (VInt 1), None)) |}.

(** The integer types convert to each other. *)
Definition convertibleInts (a b : rtype) : bool :=
  convertibleModel a b
  || (sameType a int32Type && sameType b int64Type).

(** ** What the converter yields, read off the fields

    The Go types [settingFromValue] has a case for, each with the variant
    of setting that stores a value of the type. *)
Definition settingTypes : list (rtype * SettingKind) :=
  [ (mkType KString "string" "string" None, StringSetting);
    (mkType KBool "bool" "bool" None, BoolSetting);
    (mkType KInt "int" "int" None, IntSetting);
    (mkType KInt8 "int8" "int8" None, Int8Setting);
    (mkType KInt16 "int16" "int16" None, Int16Setting);
    (mkType KInt32 "int32" "int32" None, Int32Setting);
    (mkType KInt64 "int64" "int64" None, Int64Setting);
    (mkType KUint "uint" "uint" None, UintSetting);
    (mkType KUint8 "uint8" "uint8" None, Uint8Setting);
    (mkType KUint16 "uint16" "uint16" None, Uint16Setting);
    (mkType KUint32 "uint32" "uint32" None, Uint32Setting);
    (mkType KUint64 "uint64" "uint64" None, Uint64Setting);
    (mkType KFloat32 "float32" "float32" None, Float32Setting);
    (mkType KFloat64 "float64" "float64" None, Float64Setting);
    (mkType KStruct "Time" "time.Time" None, TimeSetting);
    (mkType KInt64 "Duration" "time.Duration" None, DurationSetting);
    (mkType KSlice "" "[]time.Duration"
       (Some (mkType KInt64 "Duration" "time.Duration" None)),
     DurationSliceSetting);
    (mkType KSlice "" "[]int" (Some (mkType KInt "int" "int" None)),
     IntSliceSetting);
    (mkType KSlice "" "[]string" (Some (mkType KString "string" "string" None)),
     StringSliceSetting);
    (mkType KMap "" "map[string][]string"
       (Some (mkType KSlice "" "[]string"
                (Some (mkType KString "string" "string" None)))),
     StringMapStringSliceSetting) ].

(** [contributes entries gs ss]: the fields [entries], taken from the last
    declared to the first, give the groups [gs] and the settings [ss] to
    the group of their struct.

    - A field of a type of [settingTypes], or a pointer to a variable of
      such a type, gives one setting: it has the name of the field and the
      description of its tag, and points to the variable.
    - A field that is a pointer to a struct gives one group: it has the
      name of the struct, and holds what the fields of the struct
      contribute.
    - An embedded struct, or an embedded pointer to a struct, gives no
      group: what its fields contribute goes to the parent.

    A field that gives a setting or a group is exported, and a pointer is
    not nil.  The relation is the specification the converter is compared
    with ([Convert_struct_shape]): it is stated on the fields and their
    types and does not refer to the code of [Convert]. *)
Inductive contributes
  : list (StructField * gval) -> list Group -> list Setting -> Prop :=
| contributes_nil : contributes [] [] []
| contributes_setting f t p k rest gs ss :
    Exported f = true ->
    In (t, k) settingTypes ->
    Anonymous f = false \/ tKind t <> KStruct ->
    contributes rest gs ss ->
    contributes ((f, GLeaf t p) :: rest) gs
      (mkSetting k (mkBaseSetting (FieldName f) (TagDescription f)) p :: ss)
| contributes_setting_ptr f tp pp t p k rest gs ss :
    Exported f = true ->
    In (t, k) settingTypes ->
    Anonymous f = false \/ tKind t <> KStruct ->
    contributes rest gs ss ->
    contributes ((f, GPtr tp pp (Some (GLeaf t p))) :: rest) gs
      (mkSetting k (mkBaseSetting (FieldName f) (TagDescription f)) p :: ss)
| contributes_group f tp pp t p nm ds fields rest gs' ss' gs ss :
    Exported f = true ->
    Anonymous f = false ->
    tString t <> timeName ->
    contributes (rev fields) gs' ss' ->
    contributes rest gs ss ->
    contributes ((f, GPtr tp pp (Some (GStruct t p nm ds fields))) :: rest)
      (SettingGroup (groupName (GStruct t p nm ds fields)) (default "" ds)
         gs' ss' :: gs)
      ss
| contributes_embedded f t p nm ds fields rest gs' ss' gs ss :
    Anonymous f = true ->
    contributes (rev fields) gs' ss' ->
    contributes rest gs ss ->
    contributes ((f, GStruct t p nm ds fields) :: rest) (gs' ++ gs) (ss' ++ ss)
| contributes_embedded_ptr f tp pp t p nm ds fields rest gs' ss' gs ss :
    Anonymous f = true ->
    contributes (rev fields) gs' ss' ->
    contributes rest gs ss ->
    contributes ((f, GPtr tp pp (Some (GStruct t p nm ds fields))) :: rest)
      (gs' ++ gs) (ss' ++ ss).

(** The entry of the stack for a field of an addressable struct whose own
    read-only flag is [r]. *)
Definition entryOf (r : ROFlag) (fg : StructField * gval) : fieldAndValue :=
  {| Field := fst fg;
     FValue := mkValue (Some (snd fg)) true (fieldRO r (fst fg)) |}.

(** The struct of the claim,

      type InnerType struct { Value2 string }
      type Outer     struct { Value1 int; Inner *InnerType }

    with the pointer [Inner] set or nil, and with an embedded struct
    added:

      type Base      struct { Value3 bool }
      type OuterBase struct { Value1 int; Base; Inner *InnerType }       *)
Definition outerType : rtype := mkType KStruct "Outer" "main.Outer" None.
Definition innerTypeC : rtype := mkType KStruct "InnerType" "main.InnerType" None.
Definition baseType : rtype := mkType KStruct "Base" "main.Base" None.
Definition intType : rtype := mkType KInt "int" "int" None.
Definition boolType : rtype := mkType KBool "bool" "bool" None.

Definition innerStruct : gval :=
  GStruct innerTypeC 6%nat None None
    [(mkField "Value2" false "" true, GLeaf stringType 7%nat)].

Definition outerValue (inner : option gval) : gval :=
  GPtr (ptrTo outerType) 0%nat
    (Some (GStruct outerType 1%nat None None
             [(mkField "Value1" false "" true, GLeaf intType 2%nat);
              (mkField "Inner" false "" true,
               GPtr (ptrTo innerTypeC) 5%nat inner)])).

Definition outerBaseFields : list (StructField * gval) :=
  [(mkField "Value1" false "" true, GLeaf intType 2%nat);
   (mkField "Base" true "" true,
    GStruct baseType 3%nat None None
      [(mkField "Value3" false "" true, GLeaf boolType 4%nat)]);
   (mkField "Inner" false "" true,
    GPtr (ptrTo innerTypeC) 5%nat (Some innerStruct))].
(* ===================================================================== *)
(** * Part II: lemmas and theorems                                        *)
(* ===================================================================== *)

(** ** Raw values *)

Lemma value_ind (P : value -> Prop) :
  P VNil ->
  (forall b, P (VBool b)) ->
  (forall z, P (VInt z)) ->
  (forall s, P (VString s)) ->
  (forall f, P (VFloat f)) ->
  (forall t, P (VTime t)) ->
  (forall l, P (VSlice l)) ->
  (forall m, Forall (fun kv => P (snd kv)) m -> P (VMap m)) ->
  forall v, P v.
Proof.
  intros HN HB HI HS HF HT HL HM.
  fix IH 1. intros [| b | z | s | f | t | l | m].
  - exact HN.
  - apply HB.
  - apply HI.
  - apply HS.
  - apply HF.
  - apply HT.
  - apply HL.
  - apply HM. induction m as [|[k v] m IHm]; constructor.
    + simpl. apply IH.
    + exact IHm.
Qed.

Lemma lower_ascii_idem c : lower_ascii (lower_ascii c) = lower_ascii c.
Proof. destruct c as [[] [] [] [] [] [] [] []]; reflexivity. Qed.

Lemma lowerBytes_idem s : lowerBytes (lowerBytes s) = lowerBytes s.
Proof.
  induction s as [|c s IH]; simpl; [reflexivity|].
  rewrite lower_ascii_idem, IH. reflexivity.
Qed.

Lemma lower_ascii_below c :
  (nat_of_ascii (lower_ascii c) <? 128)%nat = (nat_of_ascii c <? 128)%nat.
Proof. destruct c as [[] [] [] [] [] [] [] []]; reflexivity. Qed.

Lemma isASCII_lowerBytes s : isASCII (lowerBytes s) = isASCII s.
Proof.
  induction s as [|c s IH]; simpl; [reflexivity|].
  rewrite lower_ascii_below, IH. reflexivity.
Qed.

Lemma ToLower_ASCII s : isASCII s = true -> ToLower s = lowerBytes s.
Proof. unfold ToLower. intros ->. reflexivity. Qed.

(** [byteLower] is a lower-case mapping of the kind the development is
    about. *)
Lemma byteLower_stable : @UnicodeLowerStable byteLower.
Proof.
  intros s _. unfold ToLower. cbn [unicodeLower byteLower].
  rewrite lowerBytes_idem. destruct (isASCII (lowerBytes s)); reflexivity.
Qed.

(** ** Lower case, with a stable mapping

    The lemmas of this section are about the keys [lowerCaseMap] stores:
    they need [strings.ToLower] to leave its own results as they are. *)
Section StableLowerCase.
Context {unicode_stable : UnicodeLowerStable}.

Lemma ToLower_idem s : ToLower (ToLower s) = ToLower s.
Proof.
  unfold ToLower at 2 3. destruct (isASCII s) eqn:Hs.
  - unfold ToLower. rewrite isASCII_lowerBytes, Hs. apply lowerBytes_idem.
  - apply unicodeLower_stable, Hs.
Qed.

Lemma map_get_In m k v : map_get m k = Some v -> In (k, v) m.
Proof.
  induction m as [|[k' v'] m IH]; simpl; [discriminate|].
  destruct (String.eqb_spec k' k) as [->|Hne].
  - intros [= ->]. left. reflexivity.
  - intros H. right. apply IH, H.
Qed.

Lemma map_get_None_not_In m k v : map_get m k = None -> ~ In (k, v) m.
Proof.
  induction m as [|[k' v'] m IH]; simpl; [tauto|].
  destruct (String.eqb_spec k' k) as [->|Hne]; [discriminate|].
  intros H [[= <- _]|Hin]; [congruence|]. exact (IH H Hin).
Qed.

Lemma map_set_Forall (P : string * value -> Prop) k v m :
  Forall P m -> P (k, v) -> Forall P (map_set k v m).
Proof.
  intros Hm Hkv. induction Hm as [|[k' v'] m Hx Hm IH]; simpl.
  - constructor; [exact Hkv|constructor].
  - destruct (String.eqb_spec k' k) as [->|Hne].
    + constructor; assumption.
    + constructor; assumption.
Qed.

Lemma map_delete_Forall (P : string * value -> Prop) k m :
  Forall P m -> Forall (fun kv => P kv /\ fst kv <> k) (map_delete k m).
Proof.
  intros Hm. induction Hm as [|[k' v'] m Hx Hm IH]; simpl; [constructor|].
  destruct (String.eqb_spec k' k) as [->|Hne]; simpl; [exact IH|].
  constructor; [split; assumption|exact IH].
Qed.

(** ** MapSource *)

Lemma lowerCaseStep_inv Q k todo current :
  lowerCase_inv Q (k :: todo) current ->
  lowerCase_inv Q todo (lowerCaseStep current k).
Proof.
  unfold lowerCase_inv, lowerCaseStep. intros Hinv.
  destruct (map_get current k) as [v|] eqn:Hget.
  - assert (HQ : Q v).
    { apply map_get_In in Hget.
      rewrite List.Forall_forall in Hinv. exact (proj1 (Hinv _ Hget)). }
    apply map_set_Forall; [|simpl; split; [exact HQ|left; apply ToLower_idem]].
    destruct (String.eqb_spec (ToLower k) k) as [Heq|Hne]; simpl.
    + eapply Forall_impl; [exact Hinv|].
      intros [k' v'] [HQ' [Hl|[Hk|Hin]]]; simpl in *; split; auto.
      subst k'. left. exact Heq.
    + eapply Forall_impl; [apply map_delete_Forall, Hinv|].
      intros [k' v'] [[HQ' [Hl|[Hk|Hin]]] Hnk]; simpl in *; split; auto.
      congruence.
  - rewrite List.Forall_forall in *. intros [k' v'] Hin.
    destruct (Hinv _ Hin) as [HQ' [Hl|[Hk|Hin']]]; simpl in *; split; auto.
    subst k'. exfalso. exact (map_get_None_not_In _ _ _ Hget Hin).
Qed.

Lemma lowerCaseKeys_inv Q todo current :
  lowerCase_inv Q todo current ->
  lowerCase_inv Q [] (fold_left lowerCaseStep todo current).
Proof.
  revert current. induction todo as [|k todo IH]; intros current Hinv; simpl.
  - exact Hinv.
  - apply IH, lowerCaseStep_inv, Hinv.
Qed.

Lemma lowerCaseKeys_lower Q current :
  Forall (fun kv => Q (snd kv)) current ->
  Forall (fun kv => Q (snd kv) /\ ToLower (fst kv) = fst kv)
         (lowerCaseKeys current).
Proof.
  intros H. unfold lowerCaseKeys.
  eapply Forall_impl.
  - apply (lowerCaseKeys_inv Q (map fst current) current).
    unfold lowerCase_inv. rewrite List.Forall_forall in *.
    intros kv Hin. split; [apply H, Hin|].
    right. apply in_map, Hin.
  - intros kv [HQ [Hl|[]]]. split; assumption.
Qed.

Lemma lowerCaseValue_lowerKeyed v : lowerKeyed (lowerCaseValue v) = true.
Proof.
  induction v as [| | | | | | |m IH] using value_ind; try reflexivity.
  simpl. apply forallb_forall. intros [k v'] Hin.
  assert (H : Forall (fun kv => lowerKeyed (snd kv) = true)
                (map (fun kv : string * value =>
                   match kv with (k0, v0) => (k0, lowerCaseValue v0) end) m)).
  { clear Hin. induction IH as [|[k0 v0] m Hx _ IHm]; simpl; constructor; auto. }
  apply (lowerCaseKeys_lower (fun v0 => lowerKeyed v0 = true)) in H.
  rewrite List.Forall_forall in H. destruct (H _ Hin) as [Hv Hk]. simpl in *.
  rewrite Hv, andb_true_r. apply String.eqb_eq, Hk.
Qed.

(** The walk only sees the lower-cased segments. *)
Lemma MapSource_walk_lower location p rest q rest' :
  ToLower p = ToLower q ->
  map ToLower rest = map ToLower rest' ->
  MapSource_walk location p rest = MapSource_walk location q rest'.
Proof.
  revert location p q rest'.
  induction rest as [|p' rest IH]; intros location p q [|q' rest'] Hp Hrest;
    simpl in *; try discriminate.
  - rewrite Hp. reflexivity.
  - injection Hrest as Hp' Hrest. rewrite Hp.
    destruct (map_get location (ToLower q)) as [[| | | | | | |next]|]; try reflexivity.
    apply IH; assumption.
Qed.

Lemma map_set_In k v m kv : In kv (map_set k v m) -> kv = (k, v) \/ In kv m.
Proof.
  induction m as [|[k' v'] m IH]; simpl.
  - intros [<-|[]]. left. reflexivity.
  - destruct (String.eqb_spec k' k) as [->|Hne]; simpl.
    + intros [<-|H]; [left; reflexivity|right; right; exact H].
    + intros [<-|H]; [right; left; reflexivity|].
      destruct (IH H) as [->|H']; [left; reflexivity|right; right; exact H'].
Qed.

Lemma map_set_keys k v m k' :
  In k' (map fst (map_set k v m)) <-> k' = k \/ In k' (map fst m).
Proof.
  induction m as [|[k1 v1] m IH]; simpl.
  - split; [intros [<-|[]]; left; reflexivity|intros [->|[]]; left; reflexivity].
  - destruct (String.eqb_spec k1 k) as [->|Hne]; simpl.
    + split; [intros [<-|H]; [left; reflexivity|right; right; exact H]|].
      intros [->|[<-|H]]; [left; reflexivity|left; reflexivity|right; exact H].
    + rewrite IH. split.
      * intros [<-|[->|H]]; [right; left; reflexivity|left; reflexivity|right; right; exact H].
      * intros [->|[<-|H]]; [right; left; reflexivity|left; reflexivity|right; right; exact H].
Qed.

Lemma map_delete_In k m kv : In kv (map_delete k m) <-> In kv m /\ fst kv <> k.
Proof.
  unfold map_delete. rewrite filter_In. split; intros [H1 H2]; split; try exact H1.
  - apply negb_true_iff, String.eqb_neq in H2. exact H2.
  - apply negb_true_iff, String.eqb_neq. exact H2.
Qed.

Lemma map_get_keys m k : (exists v, map_get m k = Some v) <-> In k (map fst m).
Proof.
  induction m as [|[k' v'] m IH]; simpl.
  - split; [intros [v [=]]|intros []].
  - destruct (String.eqb_spec k' k) as [->|Hne].
    + split; [left; reflexivity|intros _; eexists; reflexivity].
    + rewrite IH. split; [right; assumption|intros [H|H]; [contradiction|exact H]].
Qed.

(** One turn of the loop of [lowerCaseMap] moves an entry to the lower
    case of its key and invents none. *)
Lemma lowerCaseStep_from (init current : gomap) k :
  (forall k1 v, In (k1, v) current ->
     exists k0, In (k0, v) init /\ ToLower k0 = ToLower k1) ->
  forall k1 v, In (k1, v) (lowerCaseStep current k) ->
     exists k0, In (k0, v) init /\ ToLower k0 = ToLower k1.
Proof.
  intros Hinv k1 v. unfold lowerCaseStep.
  destruct (map_get current k) as [w|] eqn:Hget; [|apply Hinv].
  intros Hin. apply map_set_In in Hin. destruct Hin as [[= -> ->]|Hin].
  - apply map_get_In in Hget. destruct (Hinv _ _ Hget) as (k0 & H0 & Hk).
    exists k0. split; [exact H0|]. rewrite ToLower_idem. exact Hk.
  - apply Hinv. destruct (negb (ToLower k =? k)%string); [|exact Hin].
    apply map_delete_In in Hin. apply Hin.
Qed.

Lemma lowerCaseStep_keeps (init : list string) (current : gomap) k :
  (forall k0, In k0 init ->
     In k0 (map fst current) \/ In (ToLower k0) (map fst current)) ->
  forall k0, In k0 init ->
     In k0 (map fst (lowerCaseStep current k))
     \/ In (ToLower k0) (map fst (lowerCaseStep current k)).
Proof.
  intros Hinv k0 Hk0. unfold lowerCaseStep.
  destruct (map_get current k) as [w|] eqn:Hget; [|apply Hinv, Hk0].
  assert (Hdel : forall k', In k' (map fst current) -> k' <> k ->
            In k' (map fst (map_delete k current))).
  { intros k' Hk' Hne. apply in_map_iff in Hk'. destruct Hk' as ([k2 v2] & <- & Hin).
    apply in_map_iff. exists (k2, v2). split; [reflexivity|].
    apply map_delete_In. split; [exact Hin|exact Hne]. }
  destruct (String.eqb_spec (ToLower k) k) as [Hlow|Hup]; cbn [negb].
  - destruct (Hinv k0 Hk0) as [H|H]; [left|right]; apply map_set_keys; right; exact H.
  - destruct (Hinv k0 Hk0) as [H|H].
    + destruct (String.eqb_spec k0 k) as [->|Hne].
      * right. apply map_set_keys. left. reflexivity.
      * left. apply map_set_keys. right. apply Hdel; assumption.
    + right. apply map_set_keys. right. apply Hdel; [exact H|].
      intros Heq. apply Hup. rewrite <- Heq. apply ToLower_idem.
Qed.

Lemma lowerCaseKeys_from (init : gomap) todo current :
  (forall k1 v, In (k1, v) current ->
     exists k0, In (k0, v) init /\ ToLower k0 = ToLower k1) ->
  forall k1 v, In (k1, v) (fold_left lowerCaseStep todo current) ->
     exists k0, In (k0, v) init /\ ToLower k0 = ToLower k1.
Proof.
  revert current. induction todo as [|k todo IH]; intros current Hinv; simpl.
  - exact Hinv.
  - apply IH. apply lowerCaseStep_from, Hinv.
Qed.

Lemma lowerCaseKeys_keeps (init : list string) todo current :
  (forall k0, In k0 init ->
     In k0 (map fst current) \/ In (ToLower k0) (map fst current)) ->
  forall k0, In k0 init ->
     In k0 (map fst (fold_left lowerCaseStep todo current))
     \/ In (ToLower k0) (map fst (fold_left lowerCaseStep todo current)).
Proof.
  revert current. induction todo as [|k todo IH]; intros current Hinv; simpl.
  - exact Hinv.
  - apply IH. apply lowerCaseStep_keeps, Hinv.
Qed.

(** What [lowerCaseMap] stores: every entry is an entry of the input with
    its key in lower case and its value normalised, and every key of the
    input is there in lower case. *)
Lemma lowerCaseMap_entries (m : gomap) :
  (forall k v, In (k, v) (lowerCaseMap m) ->
     exists k0 v0, In (k0, v0) m /\ k = ToLower k0 /\ v = lowerCaseValue v0) /\
  (forall k, In k (map fst (lowerCaseMap m))
             <-> In k (map (fun kv => ToLower (fst kv)) m)).
Proof.
  set (m1 := map (fun kv : string * value =>
                    match kv with (k, v') => (k, lowerCaseValue v') end) m).
  assert (Hlow : Forall (fun kv => ToLower (fst kv) = fst kv) (lowerCaseKeys m1)).
  { pose proof (lowerCaseKeys_lower (fun _ => True) m1) as H.
    eapply List.Forall_impl; [|apply H].
    - intros kv [_ Hk]. exact Hk.
    - apply List.Forall_forall. intros; exact I. }
  rewrite List.Forall_forall in Hlow.
  assert (Hfrom : forall k v, In (k, v) (lowerCaseMap m) ->
     exists k0 v0, In (k0, v0) m /\ k = ToLower k0 /\ v = lowerCaseValue v0).
  { intros k v Hin. change (lowerCaseMap m) with (lowerCaseKeys m1) in Hin.
    pose proof (Hlow _ Hin) as Hk. cbn [fst] in Hk.
    apply (lowerCaseKeys_from m1 (map fst m1) m1) in Hin.
    - destruct Hin as (k0 & Hin0 & Hk0). unfold m1 in Hin0.
      apply in_map_iff in Hin0. destruct Hin0 as ([k2 v2] & [= -> <-] & Hin2).
      exists k0, v2. split; [exact Hin2|]. split; [congruence|reflexivity].
    - intros k1 v1 H1. exists k1. split; [exact H1|reflexivity]. }
  split; [exact Hfrom|].
  intros k. split.
  - intros Hin. apply in_map_iff in Hin. destruct Hin as ([k1 v1] & <- & Hin).
    destruct (Hfrom _ _ Hin) as (k0 & v0 & Hin0 & -> & _).
    apply in_map_iff. exists (k0, v0). split; [reflexivity|exact Hin0].
  - intros Hin. apply in_map_iff in Hin. destruct Hin as ([k0 v0] & <- & Hin).
    cbn [fst]. change (lowerCaseMap m) with (lowerCaseKeys m1).
    assert (Hk0 : In k0 (map fst m1)).
    { unfold m1. rewrite map_map. apply in_map_iff. exists (k0, v0).
      split; [reflexivity|exact Hin]. }
    destruct (lowerCaseKeys_keeps (map fst m1) (map fst m1) m1
                (fun k Hk => or_introl Hk) k0 Hk0) as [H|H]; [|exact H].
    fold (lowerCaseKeys m1) in H.
    pose proof H as H'. apply in_map_iff in H'. destruct H' as ([k2 v2] & Hfst & Hin2).
    cbn [fst] in Hfst. subst k2. pose proof (Hlow _ Hin2) as Hk. cbn [fst] in Hk.
    rewrite Hk. exact H.
Qed.

End StableLowerCase.

(** C9. [MapSource.Get] needs a path of at least one segment: on the empty
    path the access [path[len(path)-1]] is out of range and the call
    panics, and on every other path the call returns. *)
Theorem MapSource_Get_empty_path_panics (s : MapSource) :
  (exists msg, MapSource_Get s [] = Panic msg) /\
  (forall path, path <> [] -> exists r, MapSource_Get s path = Ret r) /\
  (forall path r, MapSource_Get s path = Ret r -> path <> []).
Proof.
  split; [eexists; reflexivity|]. split.
  - intros [|p rest] Hne; [congruence|]. eexists. reflexivity.
  - intros [|p rest] r H; [discriminate|congruence].
Qed.

(** C2 (the code at the conflicting input). With [A_B=x] set before
    [A_B_C=y], construction reports no error, and the second variable is
    not skipped: its value is stored under [c] in the map of [a], next to
    the leaf [b].  Without the second variable there is no such entry. *)
Theorem NewEnvSource_conflict_not_skipped :
  NewEnvSource ["A_B=x"; "A_B_C=y"]
  = Ret (Some {| Map := [("a", VMap [("b", VString "x"); ("c", VString "y")])] |},
         None) /\
  NewEnvSource ["A_B=x"]
  = Ret (Some {| Map := [("a", VMap [("b", VString "x")])] |}, None) /\
  MapSource_Get {| Map := [("a", VMap [("b", VString "x"); ("c", VString "y")])] |}
                ["a"; "c"] = Ret (VString "y", true) /\
  MapSource_Get {| Map := [("a", VMap [("b", VString "x")])] |}
                ["a"; "c"] = Ret (VNil, false).
Proof. repeat split; reflexivity. Qed.

(** ** PrefixSource *)

(** [PrefixSource.Get] asks the wrapped source for [Prefix ++ path]. *)
Lemma PrefixSource_Get_app (s : PrefixSource) path :
  PrefixSource_Get s path = Get (PSource s) (Prefix s ++ path).
Proof.
  unfold PrefixSource_Get. f_equal.
  set (pre := Prefix s).
  assert (Hcopy : copy (drop (length pre) (path ++ pre)) (path ++ pre) = path).
  { unfold copy. rewrite length_drop, !length_app.
    replace (Nat.min (length path + length pre - length pre)
                     (length path + length pre)) with (length path) by lia.
    rewrite take_app_length.
    rewrite drop_drop.
    rewrite drop_ge; [apply app_nil_r|rewrite length_app; lia]. }
  rewrite Hcopy.
  assert (Hlen : length (take (length pre) (path ++ pre)) = length pre).
  { rewrite length_take, length_app. lia. }
  unfold copy. rewrite length_app, Hlen.
  replace (Nat.min (length pre + length path) (length pre)) with (length pre) by lia.
  rewrite firstn_all.
  rewrite <- Hlen at 1. rewrite drop_app_length. reflexivity.
Qed.

(** ** Calls with arguments of their own *)

Lemma take_length {A} (l : list A) : take (length l) l = l.
Proof. apply firstn_all. Qed.

Lemma Get_MapSource (s : MapSource) path :
  Get (MapSource_Source s) path = MapSource_Get s path.
Proof.
  unfold Get, MapSource_Source, elems. cbn [GetSlice backing slen].
  rewrite take_length. destruct (MapSource_Get s path) as [[v f]|msg]; reflexivity.
Qed.

Lemma PrefixSource_shuffle (pre path : list string) :
  copy (take (length pre) (path ++ pre)
          ++ copy (drop (length pre) (path ++ pre)) (path ++ pre)) pre
  = pre ++ path.
Proof.
  assert (Hcopy : copy (drop (length pre) (path ++ pre)) (path ++ pre) = path).
  { unfold copy. rewrite length_drop, !length_app.
    replace (Nat.min (length path + length pre - length pre)
                     (length path + length pre)) with (length path) by lia.
    rewrite take_app_length.
    rewrite drop_drop.
    rewrite drop_ge; [apply app_nil_r|rewrite length_app; lia]. }
  rewrite Hcopy.
  assert (Hlen : length (take (length pre) (path ++ pre)) = length pre).
  { rewrite length_take, length_app. lia. }
  unfold copy. rewrite length_app, Hlen.
  replace (Nat.min (length pre + length path) (length pre)) with (length pre) by lia.
  rewrite firstn_all.
  rewrite <- Hlen at 1. rewrite drop_app_length. reflexivity.
Qed.

(** The two cases of [append] in [PrefixSource.Get]. *)
Lemma PrefixSource_path_fits (prefix : list string) (path : pathSlice) :
  (slen path <= length (backing path))%nat ->
  (slen path + length prefix <= length (backing path))%nat ->
  PrefixSource_path prefix path
  = (prefix ++ elems path,
     prefix ++ elems path
       ++ drop (slen path + length prefix) (backing path)).
Proof.
  intros Hwf Hfit. unfold PrefixSource_path, elems.
  destruct (Nat.leb_spec (slen path + length prefix) (length (backing path)))
    as [_|Hno]; [|lia].
  set (l := slen path) in *. set (n := length prefix) in *.
  set (arr := backing path) in *.
  assert (Hl : length (take l arr) = l) by (rewrite length_take; lia).
  assert (H1 : take (l + n) (take l arr ++ prefix ++ drop (l + n) arr)
               = take l arr ++ prefix).
  { rewrite app_assoc. rewrite take_app_le by (rewrite length_app; lia).
    apply take_ge. rewrite length_app. lia. }
  rewrite H1.
  assert (H3 : copy (take n (take l arr ++ prefix)
                       ++ copy (drop n (take l arr ++ prefix))
                               (take l arr ++ prefix)) prefix
               = prefix ++ take l arr) by apply PrefixSource_shuffle.
  rewrite !H3.
  assert (H4 : drop (l + n) (take l arr ++ prefix ++ drop (l + n) arr)
               = drop (l + n) arr).
  { rewrite app_assoc.
    replace (l + n)%nat with (length (take l arr ++ prefix)) at 1
      by (rewrite length_app; lia).
    apply drop_app_length. }
  rewrite H4, <- app_assoc. reflexivity.
Qed.

Lemma PrefixSource_path_new (prefix : list string) (path : pathSlice) :
  (length (backing path) < slen path + length prefix)%nat ->
  PrefixSource_path prefix path = (prefix ++ elems path, backing path).
Proof.
  intros Hno. unfold PrefixSource_path.
  destruct (Nat.leb_spec (slen path + length prefix) (length (backing path)))
    as [Hfit|_]; [lia|].
  rewrite PrefixSource_shuffle. reflexivity.
Qed.

Lemma Get_PrefixSource (s : PrefixSource) path :
  Get (PrefixSource_Source s) path = PrefixSource_Get s path.
Proof.
  rewrite PrefixSource_Get_app.
  unfold Get at 1, PrefixSource_Source, PrefixSource_GetSlice.
  cbn [GetSlice backing slen].
  destruct (Nat.leb_spec (length path + length (Prefix s)) (length path))
    as [Hfit|Hno].
  - assert (Hn : Prefix s = []) by (apply length_zero_iff_nil; lia).
    rewrite PrefixSource_path_fits by (cbn [backing slen]; lia).
    unfold elems. cbn [backing slen]. rewrite Hn, take_length.
    cbn [length app]. rewrite Nat.add_0_r, drop_all, app_nil_r.
    reflexivity.
  - rewrite PrefixSource_path_new by (cbn [backing slen]; lia).
    unfold elems. cbn [backing slen]. rewrite take_length.
    destruct (Get (PSource s) (Prefix s ++ path)) as [[v f]|msg]; reflexivity.
Qed.

(** ** MultiSource *)

(** A [MultiSource] that finds nothing returns the nil value, and every
    member reported a miss. *)
Lemma MultiSource_Get_false (s : MultiSource) path v arr :
  MultiSource_Get s path = Ret (v, false, arr) <->
  v = VNil /\ missed s path arr.
Proof.
  revert path. induction s as [|a s IH]; intros path; simpl.
  - split.
    + intros [= <- <-]. split; reflexivity.
    + intros [-> ->]. reflexivity.
  - destruct (GetSlice a path) as [[[v' [|]] arr1]|msg] eqn:Ha; simpl.
    + split; [discriminate|]. intros [_ (v1 & arr2 & [=] & _)].
    + rewrite IH. split.
      * intros [Hv Hm]. split; [exact Hv|]. exists v', arr1. split; [reflexivity|exact Hm].
      * intros [Hv (v1 & arr2 & [= <- <-] & Hm)]. split; assumption.
    + split; [discriminate|]. intros [_ (v1 & arr2 & [=] & _)].
Qed.

(** A value reported as found is the value of a member that found it,
    after every member before it reported a miss. *)
Lemma MultiSource_Get_true (s : MultiSource) path v arr :
  MultiSource_Get s path = Ret (v, true, arr) <->
  exists before B after arr0,
    s = before ++ B :: after /\
    missed before path arr0 /\
    GetSlice B (mkPathSlice arr0 (slen path)) = Ret (v, true, arr).
Proof.
  split.
  - revert path. induction s as [|a s IH]; intros path; simpl; [discriminate|].
    destruct (GetSlice a path) as [[[v' [|]] arr1]|msg] eqn:Ha; simpl;
      try discriminate.
    + intros [= <- <-]. exists [], a, s, (backing path).
      split; [reflexivity|]. split; [reflexivity|].
      destruct path; exact Ha.
    + intros H. apply IH in H.
      destruct H as (before & B & after & arr0 & -> & Hm & HB).
      cbn [slen] in HB.
      exists (a :: before), B, after, arr0.
      split; [reflexivity|]. split; [|exact HB].
      exists v', arr1. split; [exact Ha|exact Hm].
  - intros (before & B & after & arr0 & -> & Hm & HB).
    revert path Hm HB. induction before as [|a before IH]; intros path Hm HB;
      simpl in *.
    + subst arr0. destruct path; cbn [backing slen] in HB.
      rewrite HB. reflexivity.
    + destruct Hm as (v1 & arr2 & Ha & Hm). rewrite Ha. simpl.
      apply IH; [exact Hm|exact HB].
Qed.

(** Members that report a miss and leave the slice as they got it. *)
Lemma missed_unchanged (s : MultiSource) (path : pathSlice) :
  Forall (fun a => exists v', GetSlice a path = Ret (v', false, backing path)) s ->
  missed s path (backing path).
Proof.
  induction 1 as [|a s [v' Ha] _ IH]; simpl; [reflexivity|].
  exists v', (backing path). split; [exact Ha|]. destruct path; exact IH.
Qed.

(** C4 (the code on a slice with room to spare).  [A] lacks the key,
    [B] and [C] both hold [x], and [B] holds [p] as well.  The first member
    is [A] behind the prefix [p]; the path is the slice [[x]] with room
    for one more segment.  The first member reports a miss, and its
    [append] and [copy] have left [p] where the slice of the caller held
    [x]: the second member is asked for [p], and the value returned as
    found is the one [B] holds for [p], not the one it holds for [x].
    Without the first member the answer is the value [B] holds for [x],
    never that of [C], and the empty aggregate finds nothing. *)
Theorem MultiSource_Get_shared_slice :
  let A := MapSource_Source (NewMapSource [("q", VInt 0)]) in
  let B := MapSource_Source (NewMapSource [("x", VInt 1); ("p", VInt 2)]) in
  let C := MapSource_Source (NewMapSource [("x", VInt 3)]) in
  let PA := PrefixSource_Source {| PSource := A; Prefix := ["p"] |} in
  let path := mkPathSlice ["x"; ""] 1 in
  GetSlice PA path = Ret (VNil, false, ["p"; "x"]) /\
  GetSlice B path = Ret (VInt 1, true, ["x"; ""]) /\
  MultiSource_Get [PA; B; C] path = Ret (VInt 2, true, ["p"; "x"]) /\
  MultiSource_Get [B; C] path = Ret (VInt 1, true, ["x"; ""]) /\
  MultiSource_Get [] path = Ret (VNil, false, ["x"; ""]).
Proof. repeat split; reflexivity. Qed.

(** ** Settings *)

Section SettingFacts.

Variable cast : CastFn -> value -> value * error.

Lemma assign_live st p x x0 :
  st !! p = Some x0 -> assign st p x = Ret (<[p := x]> st).
Proof. intros H. unfold assign. rewrite H. reflexivity. Qed.

(** What [SetValue] does on a live pointer, in one equation. *)
Lemma SetValue_live st s v x0 :
  st !! ValuePtr s = Some x0 ->
  SetValue cast st s v =
    if interimFails cast (Variant s) v then
      Ret (st, match interimStep (Variant s), snd (cast ToStringSliceE v) with
               | Some word, Some e =>
                   Some (word +:+ " slice parsing failed at interim string step: "
                              +:+ e)
               | _, _ => None
               end)
    else
      Ret (<[ValuePtr s := fst (finalCast cast (Variant s) v)]> st,
           snd (finalCast cast (Variant s) v)).
Proof.
  intros Hlive. unfold SetValue, interimFails, finalCast.
  destruct (interimStep (Variant s)) as [word|].
  - destruct (cast ToStringSliceE v) as [tmp [e|]]; cbn [snd fst].
    + rewrite bool_decide_true by discriminate. reflexivity.
    + rewrite bool_decide_false by (intros H; apply H; reflexivity).
      destruct (cast (castOf (Variant s)) tmp) as [x err'].
      rewrite (assign_live _ _ _ _ Hlive). reflexivity.
  - destruct (cast (castOf (Variant s)) v) as [x err].
    rewrite (assign_live _ _ _ _ Hlive). reflexivity.
Qed.

Lemma assign_frame st p x st' l :
  assign st p x = Ret st' -> l <> p -> st' !! l = st !! l.
Proof.
  unfold assign. destruct (st !! p); [|discriminate].
  intros [= <-] Hne. apply lookup_insert_ne. congruence.
Qed.

(** [SetValue] writes to the variable of the setting only. *)
Lemma SetValue_frame st s v st' e l :
  SetValue cast st s v = Ret (st', e) ->
  l <> ValuePtr s -> st' !! l = st !! l.
Proof.
  unfold SetValue. intros H Hne.
  destruct (interimStep (Variant s)).
  - destruct (cast ToStringSliceE v) as [tmp [e0|]].
    + injection H as <- _. reflexivity.
    + destruct (cast (castOf (Variant s)) tmp) as [x err'].
      destruct (assign st (ValuePtr s) x) as [st1|msg] eqn:Ha; [|discriminate].
      injection H as <- _. eapply assign_frame; eassumption.
  - destruct (cast (castOf (Variant s)) v) as [x err'].
    destruct (assign st (ValuePtr s) x) as [st1|msg] eqn:Ha; [|discriminate].
    injection H as <- _. eapply assign_frame; eassumption.
Qed.

(** After a [SetValue] that returns nil the setting holds the cast of the
    raw value. *)
Lemma SetValue_nil_value st s v st' :
  SetValue cast st s v = Ret (st', None) ->
  Setting_Value st' s = Ret (fst (finalCast cast (Variant s) v)).
Proof.
  unfold SetValue, finalCast, Setting_Value, assign. intros H.
  destruct (interimStep (Variant s)).
  - destruct (cast ToStringSliceE v) as [tmp [e0|]]; [discriminate|].
    cbn [fst]. destruct (cast (castOf (Variant s)) tmp) as [x err'].
    destruct (st !! ValuePtr s); [|discriminate].
    injection H as <- _. cbn [fst]. rewrite lookup_insert_eq. reflexivity.
  - destruct (cast (castOf (Variant s)) v) as [x err'].
    destruct (st !! ValuePtr s); [|discriminate].
    injection H as <- _. cbn [fst]. rewrite lookup_insert_eq. reflexivity.
Qed.

End SettingFacts.

(** C1 (as amended). When the raw input cannot be cast, [SetValue] returns
    a non-nil error, and the stored value is the one the failing cast
    returned next to its error; the stored value is left as it was only
    when a Bool, Duration or Int slice variant fails at its interim
    string-slice step. *)
Theorem SetValue_cast_failure (cast : CastFn -> value -> value * error)
  (st : store) (s : Setting) (raw x0 : value) :
  st !! ValuePtr s = Some x0 ->
  castFails cast (Variant s) raw = true ->
  exists st' e,
    SetValue cast st s raw = Ret (st', Some e) /\
    if interimFails cast (Variant s) raw then st' = st
    else st' = <[ValuePtr s := fst (finalCast cast (Variant s) raw)]> st /\
         Setting_Value st' s = Ret (fst (finalCast cast (Variant s) raw)).
Proof.
  intros Hlive Hfail.
  rewrite (SetValue_live cast st s raw x0 Hlive).
  unfold castFails in Hfail.
  destruct (interimFails cast (Variant s) raw) eqn:Hint.
  - unfold interimFails in Hint.
    destruct (interimStep (Variant s)) as [word|]; [|discriminate].
    apply bool_decide_eq_true in Hint.
    destruct (snd (cast ToStringSliceE raw)) as [e|]; [|congruence].
    eexists _, _. split; reflexivity.
  - simpl in Hfail. apply bool_decide_eq_true in Hfail.
    destruct (snd (finalCast cast (Variant s) raw)) as [e|] eqn:He; [|congruence].
    eexists _, _. split; [reflexivity|]. split; [reflexivity|].
    unfold Setting_Value. rewrite lookup_insert_eq. reflexivity.
Qed.

(** C1 (as stated) fails: [IntSetting.SetValue("false")] on a setting whose
    value is 5 reports an error and leaves 0, not 5. *)
Lemma SetValue_failure_changes_value :
  ~ (forall (st st' : store) (s : Setting) (raw : value) (e : string),
        SetValue castModel st s raw = Ret (st', Some e) ->
        Setting_Value st' s = Setting_Value st s).
Proof.
  intros H.
  specialize (H {[ 0%nat := VInt 5 ]} (<[0%nat := VInt 0]> {[ 0%nat := VInt 5 ]})
                (mkSetting IntSetting (mkBaseSetting "Int" "") 0%nat)
                (VString "false") "unable to cast to int" eq_refl).
  vm_compute in H. discriminate H.
Qed.

(** ** Loader *)

Section LoaderFacts.

Variable cast : CastFn -> value -> value * error.

Lemma Load_app (s : Source) pre post st :
  Load cast s (pre ++ post) st =
    match Load cast s pre st with
    | Ret (st1, None) => Load cast s post st1
    | r => r
    end.
Proof.
  revert st. induction pre as [|x pre IH]; intros st; simpl; [reflexivity|].
  destruct (Get s [Setting_Name x]) as [[v [|]]|msg]; simpl; try reflexivity.
  - destruct (SetValue cast st x v) as [[st' [e|]]|msg]; simpl; try reflexivity.
    apply IH.
  - apply IH.
Qed.

Lemma Load_all_missing (s : Source) settings st :
  Forall (fun x => exists v, Get s [Setting_Name x] = Ret (v, false)) settings ->
  Load cast s settings st = Ret (st, None).
Proof.
  induction 1 as [|x l [v Hx] _ IH]; simpl; [reflexivity|].
  rewrite Hx. simpl. exact IH.
Qed.

(** [Load] through a [PrefixSource] looks every setting up at the prefix
    followed by the name of the setting. *)
Lemma Load_PrefixSource (s : Source) prefix settings st :
  Load cast (PrefixSource_Source {| PSource := s; Prefix := prefix |}) settings st
  = LoadAt cast s prefix settings st.
Proof.
  revert st. induction settings as [|x l IH]; intros st; simpl; [reflexivity|].
  rewrite Get_PrefixSource, PrefixSource_Get_app. simpl.
  destruct (Get s (prefix ++ [Setting_Name x])) as [[v [|]]|msg]; simpl;
    try reflexivity.
  - destruct (SetValue cast st x v) as [[st' [e|]]|msg]; simpl; try reflexivity.
    apply IH.
  - apply IH.
Qed.

(** [Load] writes to the variables of the settings it finds only. *)
Lemma Load_frame (s : Source) settings st st' e l :
  Load cast s settings st = Ret (st', e) ->
  (forall y v, In y settings -> Get s [Setting_Name y] = Ret (v, true) ->
               ValuePtr y <> l) ->
  st' !! l = st !! l.
Proof.
  revert st. induction settings as [|x settings IH]; intros st H Hl.
  - injection H as <- _. reflexivity.
  - cbn [Load] in H.
    destruct (Get s [Setting_Name x]) as [[v [|]]|msg] eqn:Hx;
      cbn in H; try discriminate.
    + assert (Hne : l <> ValuePtr x).
      { intros ->. apply (Hl x v); [left; reflexivity|exact Hx|reflexivity]. }
      destruct (SetValue cast st x v) as [[st1 [e1|]]|msg] eqn:Hs;
        cbn in H; try discriminate.
      * injection H as <- _. eapply SetValue_frame; eassumption.
      * rewrite (IH st1 H)
          by (intros y v' Hy; apply (Hl y v'); right; exact Hy).
        eapply SetValue_frame; eassumption.
    + apply IH; [exact H|]. intros y v' Hy. apply (Hl y v'). right. exact Hy.
Qed.

End LoaderFacts.

(** C5. [Load] skips a setting whose name the source does not hold: the
    setting is not written and no error is reported for it, so a list of
    misses leaves the store as it was with a nil error, and a setting that
    is not found keeps its value whenever no setting that is found shares
    its variable.  When the value found for a setting fails to cast, [Load]
    returns at once with an error that names the setting: the store is the
    one [SetValue] left, and the settings later in the list play no
    part. *)
Theorem Load_miss_and_abort (cast : CastFn -> value -> value * error)
  (s : Source) :
  (forall pre x post st,
      (exists v, Get s [Setting_Name x] = Ret (v, false)) ->
      Load cast s (pre ++ x :: post) st = Load cast s (pre ++ post) st) /\
  (forall settings x st st' e,
      Load cast s settings st = Ret (st', e) ->
      (forall y v, In y settings -> Get s [Setting_Name y] = Ret (v, true) ->
                   ValuePtr y <> ValuePtr x) ->
      Setting_Value st' x = Setting_Value st x) /\
  (forall settings st,
      Forall (fun x => exists v, Get s [Setting_Name x] = Ret (v, false))
             settings ->
      Load cast s settings st = Ret (st, None)) /\
  (forall pre x post st st1 v st2 e,
      Load cast s pre st = Ret (st1, None) ->
      Get s [Setting_Name x] = Ret (v, true) ->
      SetValue cast st1 x v = Ret (st2, Some e) ->
      Load cast s (pre ++ x :: post) st
      = Ret (st2, Some ("failed to load setting " +:+ Setting_Name x
                          +:+ " due to: " +:+ e))).
Proof.
  split; [|split; [|split]].
  - intros pre x post st [v Hx].
    rewrite !Load_app. simpl. rewrite Hx. reflexivity.
  - intros settings x st st' e H Hl. unfold Setting_Value.
    rewrite (Load_frame cast s settings st st' e (ValuePtr x) H Hl). reflexivity.
  - intros settings st. apply Load_all_missing.
  - intros pre x post st st1 v st2 e Hpre Hx Hset.
    rewrite Load_app, Hpre. simpl. rewrite Hx. simpl. rewrite Hset. reflexivity.
Qed.

(** ** LoadGroups *)

Lemma Groups_count_app l1 l2 :
  Groups_count (l1 ++ l2) = Groups_count l1 + Groups_count l2.
Proof.
  unfold Groups_count. induction l1 as [|g l1 IH]; simpl; [reflexivity|].
  fold (Groups_count (l1 ++ l2)) in *. rewrite IH. lia.
Qed.

Lemma Group_count_unfold g :
  Group_count g = S (Groups_count (Group_Groups g)).
Proof.
  destruct g as [n d gs ss]. reflexivity.
Qed.

Lemma visits_unfold path g :
  visits path g = (path, g) :: visits_forest path (Group_Groups g).
Proof.
  destruct g as [n d gs ss]. simpl. f_equal.
  induction gs as [|g' gs IH]; simpl; [reflexivity|].
  rewrite IH. reflexivity.
Qed.

Lemma pushGroups_count path groups stack :
  stack_count (pushGroups path groups stack)
  = Groups_count groups + stack_count stack.
Proof.
  unfold pushGroups. revert stack.
  induction groups as [|g groups IH]; intros stack; simpl; [reflexivity|].
  rewrite IH. unfold stack_count. simpl. lia.
Qed.

Lemma pushGroups_visits path groups stack :
  stack_visits (pushGroups path groups stack)
  = visits_forest path groups ++ stack_visits stack.
Proof.
  unfold pushGroups. revert stack.
  induction groups as [|g groups IH]; intros stack; simpl; [reflexivity|].
  rewrite IH. unfold stack_visits. simpl. rewrite <- app_assoc. reflexivity.
Qed.

Section LoadGroupsFacts.

Variable cast : CastFn -> value -> value * error.

Lemma LoadVisits_cons s path g vs st :
  LoadVisits cast s ((path, g) :: vs) st =
    match LoadAt cast s path (Group_Settings g) st with
    | Panic msg => Panic msg
    | Ret (st', Some e) =>
        Ret (st', Some ("failed to load group " +:+ Group_Name g
                          +:+ " due to: " +:+ e))
    | Ret (st', None) => LoadVisits cast s vs st'
    end.
Proof. reflexivity. Qed.

(** With at least as much fuel as there are groups below the stack, the
    loop ends, and it has loaded the groups in the order of [visits], each
    at its path. *)
Lemma LoadGroups_loop_visits s fuel stack st :
  stack_count stack <= fuel ->
  LoadGroups_loop cast fuel s stack st
  = Some (LoadVisits cast s (stack_visits stack) st).
Proof.
  revert stack st. induction fuel as [|fuel IH]; intros stack st Hfuel.
  - destruct stack as [|[path g] stack]; [reflexivity|].
    unfold stack_count in Hfuel. simpl in Hfuel.
    rewrite Group_count_unfold in Hfuel. lia.
  - destruct stack as [|[path g] stack]; [reflexivity|].
    cbn [LoadGroups_loop Path LGroup].
    change (stack_visits ({| Path := path; LGroup := g |} :: stack))
      with (visits path g ++ stack_visits stack).
    rewrite visits_unfold. rewrite <- app_comm_cons, LoadVisits_cons.
    rewrite Load_PrefixSource.
    destruct (LoadAt cast s path (Group_Settings g) st) as [[st' [e|]]|msg];
      try reflexivity.
    rewrite IH.
    + rewrite pushGroups_visits. reflexivity.
    + rewrite pushGroups_count.
      unfold stack_count in *. simpl in Hfuel.
      rewrite Group_count_unfold in Hfuel. lia.
Qed.

Lemma LoadGroups_loop_total s stack st :
  exists r, LoadGroups_loop cast (stack_count stack) s stack st = Some r.
Proof. eexists. apply LoadGroups_loop_visits. lia. Qed.

Lemma LoadGroups_visits s groups st :
  LoadGroups cast s groups st
  = LoadVisits cast s (visits_forest [] groups) st.
Proof.
  unfold LoadGroups.
  rewrite LoadGroups_loop_visits by lia.
  rewrite pushGroups_visits. simpl. rewrite app_nil_r. reflexivity.
Qed.

End LoadGroupsFacts.

Lemma Groups_count_cons g groups :
  Groups_count (g :: groups) = Group_count g + Groups_count groups.
Proof. reflexivity. Qed.

Lemma visits_forest_cons ancestors g groups :
  visits_forest ancestors (g :: groups)
  = visits_forest ancestors groups
    ++ (ancestors ++ [Group_Name g], g)
       :: visits_forest (ancestors ++ [Group_Name g]) (Group_Groups g).
Proof. cbn [visits_forest]. rewrite visits_unfold. reflexivity. Qed.

Lemma reaches_weaken groups groups' path g :
  reaches groups path g ->
  (forall x, In x groups -> In x groups') ->
  reaches groups' path g.
Proof.
  intros H Hincl. destruct H as [groups g Hin|groups parent path g Hin Hsub].
  - apply reaches_root, Hincl, Hin.
  - apply reaches_child; [apply Hincl, Hin|exact Hsub].
Qed.

(** Every visit carries the path of its group: the names of the groups on
    the way from a root to the group. *)
Lemma visits_forest_reaches_1 n ancestors groups path g :
  Groups_count groups <= n ->
  In (path, g) (visits_forest ancestors groups) ->
  exists p, path = ancestors ++ p /\ reaches groups p g.
Proof.
  revert ancestors groups path g.
  induction n as [|n IH]; intros ancestors [|g0 groups] path g Hn Hin;
    try contradiction.
  - rewrite Groups_count_cons, Group_count_unfold in Hn. lia.
  - rewrite Groups_count_cons, Group_count_unfold in Hn.
    rewrite visits_forest_cons in Hin.
    apply in_app_or in Hin. destruct Hin as [Hin|[[= <- <-]|Hin]].
    + destruct (IH ancestors groups path g) as (p & -> & Hp); [lia|exact Hin|].
      exists p. split; [reflexivity|].
      apply (reaches_weaken groups); [exact Hp|]. intros x Hx. right. exact Hx.
    + exists [Group_Name g0]. split; [reflexivity|].
      apply reaches_root. left. reflexivity.
    + destruct (IH (ancestors ++ [Group_Name g0]) (Group_Groups g0) path g)
        as (p & -> & Hp); [lia|exact Hin|].
      exists (Group_Name g0 :: p). split; [rewrite <- app_assoc; reflexivity|].
      apply reaches_child; [left; reflexivity|exact Hp].
Qed.

Lemma visits_forest_In ancestors groups g x :
  In g groups ->
  In x ((ancestors ++ [Group_Name g], g)
          :: visits_forest (ancestors ++ [Group_Name g]) (Group_Groups g)) ->
  In x (visits_forest ancestors groups).
Proof.
  induction groups as [|g0 groups IH]; intros Hg Hx; [contradiction|].
  rewrite visits_forest_cons. apply in_or_app.
  destruct Hg as [->|Hg]; [right; exact Hx|left; apply IH; assumption].
Qed.

Lemma visits_forest_reaches_2 groups p g :
  reaches groups p g ->
  forall ancestors, In (ancestors ++ p, g) (visits_forest ancestors groups).
Proof.
  induction 1 as [groups g Hin|groups parent path g Hin _ IH]; intros ancestors.
  - apply (visits_forest_In ancestors groups g); [exact Hin|].
    left. reflexivity.
  - apply (visits_forest_In ancestors groups parent); [exact Hin|].
    right. specialize (IH (ancestors ++ [Group_Name parent])).
    rewrite <- app_assoc in IH. exact IH.
Qed.

Lemma visits_forest_reaches groups path g :
  In (path, g) (visits_forest [] groups) <-> reaches groups path g.
Proof.
  split.
  - intros Hin.
    destruct (visits_forest_reaches_1 _ [] groups path g (Nat.le_refl _) Hin)
      as (p & -> & Hp).
    exact Hp.
  - intros H. apply (visits_forest_reaches_2 groups path g H []).
Qed.


(** ** VerifyComponent *)

Lemma MethodByName_existsb ms name :
  MethodByName ms name = None <->
  existsb (fun m => String.eqb (MethodName m) name) ms = false.
Proof.
  unfold MethodByName. induction ms as [|m ms IH]; simpl; [tauto|].
  destruct (String.eqb (MethodName m) name); simpl; [|exact IH].
  split; discriminate.
Qed.

Lemma scanMethods_existsb ms :
  scanMethods ms =
    (existsb (fun m => String.eqb (MethodName m) "Settings") ms,
     existsb (fun m => String.eqb (MethodName m) "New") ms).
Proof.
  unfold scanMethods.
  assert (H : forall acc,
    fold_left (fun (acc : bool * bool) m =>
                 if String.eqb (MethodName m) "Settings" then (true, snd acc)
                 else if String.eqb (MethodName m) "New" then (fst acc, true)
                 else acc) ms acc
    = (fst acc || existsb (fun m => String.eqb (MethodName m) "Settings") ms,
       snd acc || existsb (fun m => String.eqb (MethodName m) "New") ms)).
  { induction ms as [|m ms IH]; intros [a b]; simpl.
    - rewrite !orb_false_r. reflexivity.
    - rewrite IH.
      destruct (String.eqb_spec (MethodName m) "Settings") as [Hs|Hs]; simpl.
      + rewrite Hs. simpl. rewrite orb_true_r. reflexivity.
      + destruct (String.eqb (MethodName m) "New"); simpl.
        * rewrite orb_true_r. reflexivity.
        * reflexivity. }
  rewrite H. reflexivity.
Qed.

Lemma scanMethods_MethodByName ms :
  scanMethods ms =
    (bool_decide (MethodByName ms "Settings" <> None),
     bool_decide (MethodByName ms "New" <> None)).
Proof.
  rewrite scanMethods_existsb. f_equal.
  - destruct (MethodByName ms "Settings") eqn:H.
    + rewrite bool_decide_true by discriminate.
      destruct (existsb _ ms) eqn:He; [reflexivity|].
      apply MethodByName_existsb in He. congruence.
    + rewrite bool_decide_false by (intros Hn; apply Hn; reflexivity).
      apply MethodByName_existsb, H.
  - destruct (MethodByName ms "New") eqn:H.
    + rewrite bool_decide_true by discriminate.
      destruct (existsb _ ms) eqn:He; [reflexivity|].
      apply MethodByName_existsb in He. congruence.
    + rewrite bool_decide_false by (intros Hn; apply Hn; reflexivity).
      apply MethodByName_existsb, H.
Qed.

(** C8. On every object [VerifyComponent] returns, and it returns an error
    when the object has no [New] method, when [New] does not take exactly
    two arguments, and when the second result of [New] is not of a type
    named [error].  It returns nil exactly when [Settings] takes no argument
    and has one result, [New] takes two arguments and has two results, the
    context type converts to the first argument of [New], the result of
    [Settings] converts to the second, and the second result of [New] is of
    a type named [error]. *)
Theorem VerifyComponent_contract (ConvertibleTo : rtype -> rtype -> bool)
  (backgroundType : rtype) (c : Component) :
  (exists err,
      VerifyComponent ConvertibleTo backgroundType (Some c) = Ret err) /\
  (MethodByName (Methods c) "New" = None ->
   exists e, VerifyComponent ConvertibleTo backgroundType (Some c)
             = Ret (Some e)) /\
  (forall nm,
      MethodByName (Methods c) "New" = Some nm ->
      length (MIn nm) <> 2 ->
      exists e, VerifyComponent ConvertibleTo backgroundType (Some c)
                = Ret (Some e)) /\
  (forall nm t,
      MethodByName (Methods c) "New" = Some nm ->
      MOut nm !! 1%nat = Some t ->
      tName t <> "error" ->
      exists e, VerifyComponent ConvertibleTo backgroundType (Some c)
                = Ret (Some e)) /\
  (VerifyComponent ConvertibleTo backgroundType (Some c) = Ret None <->
   exists sm nm smOut in0 in1 out0 out1,
     MethodByName (Methods c) "Settings" = Some sm /\
     MethodByName (Methods c) "New" = Some nm /\
     MIn sm = [] /\ MOut sm = [smOut] /\
     MIn nm = [in0; in1] /\ MOut nm = [out0; out1] /\
     ConvertibleTo backgroundType in0 = true /\
     ConvertibleTo smOut in1 = true /\
     tName out1 = "error").
Proof.
  unfold VerifyComponent. rewrite scanMethods_MethodByName.
  destruct (MethodByName (Methods c) "Settings") as [sm|] eqn:Hsm;
  destruct (MethodByName (Methods c) "New") as [nm|] eqn:Hnm;
    repeat (rewrite bool_decide_true by discriminate);
    repeat (rewrite bool_decide_false by (intros Hn; apply Hn; reflexivity));
    cbn [negb].
  2,3,4: (repeat split; try (intros; discriminate);
          try (eexists; reflexivity); try (intros; eexists; reflexivity);
          intros (? & ? & ? & ? & ? & ? & ? & ? & ? & ?); discriminate).
  destruct sm as [sn sin sout], nm as [nn nin nout]. cbn [MIn MOut].
  destruct sin as [|? ?]; cbn [length Nat.eqb negb].
  2: { repeat split; try (intros; discriminate);
         try (eexists; reflexivity); try (intros; eexists; reflexivity).
       intros (? & ? & ? & ? & ? & ? & ? & [= <-] & _ & H & _).
       simpl in H. discriminate. }
  destruct sout as [|smOut [|? ?]].
  1,3: (repeat split; try (intros; discriminate);
         try (eexists; reflexivity); try (intros; eexists; reflexivity);
         intros (? & ? & ? & ? & ? & ? & ? & [= <-] & _ & _ & H & _);
         simpl in H; discriminate).
  destruct nin as [|in0 [|in1 [|? ?]]].
  1,2,4: (repeat split; try (intros; discriminate);
         try (eexists; reflexivity); try (intros; eexists; reflexivity);
         intros (? & ? & ? & ? & ? & ? & ? & _ & [= <-] & _ & _ & H & _);
         simpl in H; discriminate).
  destruct nout as [|out0 [|out1 [|? ?]]].
  1,2,4: (repeat split; try (intros; discriminate);
         try (eexists; reflexivity); try (intros; eexists; reflexivity);
         intros (? & ? & ? & ? & ? & ? & ? & _ & [= <-] & _ & _ & _ & H & _);
         simpl in H; discriminate).
  destruct (ConvertibleTo backgroundType in0) eqn:Hc0; cbn [negb].
  2: { repeat split; try (intros; discriminate);
         try (eexists; reflexivity); try (intros; eexists; reflexivity).
       intros (? & ? & ? & ? & ? & ? & ? & _ & [= <-] & _ & _ & H & _ & H0 & _).
       simpl in H. injection H as <- <-. congruence. }
  destruct (ConvertibleTo smOut in1) eqn:Hc1; cbn [negb].
  2: { repeat split; try (intros; discriminate);
         try (eexists; reflexivity); try (intros; eexists; reflexivity).
       intros (? & ? & ? & ? & ? & ? & ? & [= <-] & [= <-] & _ & Ho & H & _ & _ & H1 & _).
       simpl in H, Ho. injection H as <- <-. injection Ho as <-. congruence. }
  destruct (String.eqb_spec (tName out1) "error") as [He|He]; cbn [negb].
  - split; [eexists; reflexivity|].
    split; [intros; discriminate|].
    split; [intros nm' [= <-] Hlen; simpl in Hlen; congruence|].
    split; [intros nm' t [= <-] [= <-] Hne; congruence|].
    split; [intros _|reflexivity].
    exists (mkMethod sn [] [smOut]), (mkMethod nn [in0; in1] [out0; out1]),
           smOut, in0, in1, out0, out1.
    repeat split; assumption.
  - repeat split; try (intros; discriminate);
      try (eexists; reflexivity); try (intros; eexists; reflexivity).
    intros (? & ? & ? & ? & ? & ? & ? & _ & [= <-] & _ & _ & _ & H & _ & _ & H1).
    simpl in H. injection H as <- <-. congruence.
Qed.

(** ** Convert: termination *)

Lemma Convert_fuel_S n v :
  Convert_fuel (S n) v =
    match Convert_start v with
    | StartDone r => Some r
    | StartLoop name g stack => Convert_loop n name g stack
    end.
Proof. reflexivity. Qed.

Lemma Convert_loop_nil n name g : Convert_loop n name g [] = Some (Ret (Ok g)).
Proof. destruct n; reflexivity. Qed.

Lemma Convert_loop_S n name g current stack :
  Convert_loop (S n) name g (current :: stack) =
    match Convert_step name g current with
    | StepDone r => Some r
    | StepFlatten =>
        Convert_loop n name g (pushFields (Indirect (FValue current)) stack)
    | StepSetting set => Convert_loop n name (addSetting g set) stack
    | StepGroup i =>
        match Convert_fuel n i with
        | None => None
        | Some (Ret (Ok sub)) => Convert_loop n name (addGroup g sub) stack
        | Some (Ret (Err e)) => Some (Ret (Err e))
        | Some (Panic msg) => Some (Panic msg)
        end
    end.
Proof. reflexivity. Qed.

Lemma rsize_Indirect x : rsize (Indirect x) <= rsize x.
Proof.
  destruct x as [[[t p|t p [g'|]|t p n d fields]|] a r];
    unfold Indirect, rsize; simpl; lia.
Qed.

Lemma pushFields_app x stack :
  pushFields x stack = rev (structFields x) ++ stack.
Proof.
  unfold pushFields. generalize (structFields x) as l. intros l. revert stack.
  induction l as [|e l IH]; intros stack; simpl; [reflexivity|].
  rewrite IH, <- app_assoc. reflexivity.
Qed.

Lemma stack_cost_cons e s :
  stack_cost (e :: s) = 3 + rsize (FValue e) + stack_cost s.
Proof. reflexivity. Qed.

Lemma stack_cost_app s1 s2 :
  stack_cost (s1 ++ s2) = stack_cost s1 + stack_cost s2.
Proof.
  induction s1 as [|e s1 IH]; [reflexivity|].
  rewrite <- app_comm_cons, !stack_cost_cons, IH. lia.
Qed.

Lemma stack_cost_rev s : stack_cost (rev s) = stack_cost s.
Proof.
  induction s as [|e s IH]; [reflexivity|].
  cbn [rev]. rewrite stack_cost_app, IH, !stack_cost_cons.
  change (stack_cost []) with 0. lia.
Qed.

Lemma gsize_struct t p n d fields :
  gsize (GStruct t p n d fields)
  = S (stack_cost (structFields (mkValue (Some (GStruct t p n d fields))
                                         true NotRO))).
Proof.
  cbn [gsize structFields rv flagAddr flagRO]. f_equal.
  induction fields as [|[f g] fields IH]; [reflexivity|].
  rewrite map_cons, stack_cost_cons, <- IH. reflexivity.
Qed.

Lemma structFields_cost_flags g a r a' r' :
  stack_cost (structFields (mkValue (Some g) a r))
  = stack_cost (structFields (mkValue (Some g) a' r')).
Proof.
  destruct g as [t p|t p tg|t p n d fields]; try reflexivity.
  cbn [structFields rv flagAddr flagRO].
  induction fields as [|[f g] fields IH]; [reflexivity|].
  rewrite !map_cons, !stack_cost_cons, IH. reflexivity.
Qed.

Lemma structFields_cost x : stack_cost (structFields x) <= rsize x.
Proof.
  destruct x as [[g|] a r]; [|unfold structFields, rsize; simpl; lia].
  rewrite (structFields_cost_flags g a r true NotRO).
  destruct g as [t p|t p tg|t p n d fields];
    try (unfold structFields, rsize; simpl; lia).
  unfold rsize. cbn [rv]. rewrite gsize_struct. lia.
Qed.

Lemma pushFields_cost x stack :
  stack_cost (pushFields x stack) <= rsize x + stack_cost stack.
Proof.
  rewrite pushFields_app, stack_cost_app, stack_cost_rev.
  pose proof (structFields_cost x). lia.
Qed.

Lemma Convert_start_cost v name g stack :
  Convert_start v = StartLoop name g stack ->
  stack_cost stack + 2 <= Convert_cost v.
Proof.
  unfold Convert_start. destruct v as [g0|]; [|discriminate].
  destruct (rType (Indirect (ValueOf (Some g0)))) as [t|msg]; [|discriminate].
  destruct (negb (bool_decide (rKind (Indirect (ValueOf (Some g0))) = KStruct)));
    [discriminate|].
  destruct (negb (CanAddr (Indirect (ValueOf (Some g0))))); [discriminate|].
  intros [= _ _ <-].
  pose proof (pushFields_cost (Indirect (ValueOf (Some g0))) []) as H1.
  pose proof (rsize_Indirect (ValueOf (Some g0))) as H2.
  change (stack_cost []) with 0 in H1.
  change (rsize (ValueOf (Some g0))) with (gsize g0) in H2.
  change (Convert_cost (Some g0)) with (2 + gsize g0). lia.
Qed.

Lemma Convert_step_group name g current i :
  Convert_step name g current = StepGroup i -> i = rv (FValue current).
Proof.
  unfold Convert_step.
  destruct (bool_decide (rKind (Indirect (FValue current)) = KStruct)
            && Anonymous (Field current)); [discriminate|].
  destruct (negb (CanAddr (Indirect (FValue current)))).
  { destruct (rType (FValue current)); discriminate. }
  destruct (rType (Indirect (FValue current))) as [t|msg]; [|discriminate].
  destruct (negb (bool_decide (rKind (Indirect (FValue current)) = KStruct))
            || String.eqb (tString t) timeName).
  { destruct (settingFromValue _ _ _) as [[set|e]|msg]; discriminate. }
  unfold rInterface. destruct (flagRO (FValue current)); try discriminate.
  intros [= <-]. reflexivity.
Qed.

Lemma Convert_cost_rv x : Convert_cost (rv x) <= 2 + rsize x.
Proof. unfold Convert_cost, rsize. destruct (rv x); lia. Qed.

(** With enough fuel the result no longer depends on the fuel. *)
Lemma Convert_fuel_stable n :
  (forall v, Convert_cost v <= n ->
     exists r, forall m, n <= m -> Convert_fuel m v = Some r) /\
  (forall name g stack, stack_cost stack <= n ->
     exists r, forall m, n <= m -> Convert_loop m name g stack = Some r).
Proof.
  induction n as [|n [IHc IHl]].
  - split.
    + intros [g|] H; simpl in H; lia.
    + intros name g [|e stack] H.
      * exists (Ret (Ok g)). intros m _. apply Convert_loop_nil.
      * rewrite stack_cost_cons in H. lia.
  - split.
    + intros v Hv.
      destruct (Convert_start v) as [r|name g stack] eqn:Hst.
      * exists r. intros [|m] Hm; [lia|]. rewrite Convert_fuel_S, Hst. reflexivity.
      * pose proof (Convert_start_cost _ _ _ _ Hst) as Hc.
        destruct (IHl name g stack) as [r Hr]; [lia|].
        exists r. intros [|m] Hm; [lia|].
        rewrite Convert_fuel_S, Hst. apply Hr. lia.
    + intros name g [|current stack] Hs.
      * exists (Ret (Ok g)). intros m _. apply Convert_loop_nil.
      * assert (Hcost : 3 + rsize (FValue current) + stack_cost stack <= S n)
          by (rewrite <- stack_cost_cons; exact Hs).
        destruct (Convert_step name g current) as [r| |set|i] eqn:Hstep.
        -- exists r. intros [|m] Hm; [lia|].
           rewrite Convert_loop_S, Hstep. reflexivity.
        -- pose proof (pushFields_cost (Indirect (FValue current)) stack).
           pose proof (rsize_Indirect (FValue current)).
           destruct (IHl name g (pushFields (Indirect (FValue current)) stack))
             as [r Hr]; [lia|].
           exists r. intros [|m] Hm; [lia|].
           rewrite Convert_loop_S, Hstep. apply Hr. lia.
        -- destruct (IHl name (addSetting g set) stack) as [r Hr]; [lia|].
           exists r. intros [|m] Hm; [lia|].
           rewrite Convert_loop_S, Hstep. apply Hr. lia.
        -- pose proof (Convert_step_group _ _ _ _ Hstep) as ->.
           pose proof (Convert_cost_rv (FValue current)).
           destruct (IHc (rv (FValue current))) as [ri Hri]; [lia|].
           destruct ri as [[sub|e]|msg].
           ++ destruct (IHl name (addGroup g sub) stack) as [r Hr]; [lia|].
              exists r. intros [|m] Hm; [lia|].
              rewrite Convert_loop_S, Hstep, Hri by lia. apply Hr. lia.
           ++ exists (Ret (Err e)). intros [|m] Hm; [lia|].
              rewrite Convert_loop_S, Hstep, Hri by lia. reflexivity.
           ++ exists (Panic msg). intros [|m] Hm; [lia|].
              rewrite Convert_loop_S, Hstep, Hri by lia. reflexivity.
Qed.

Lemma Convert_fuel_enough v m :
  Convert_cost v <= m -> Convert_fuel m v = Some (Convert v).
Proof.
  intros Hm.
  destruct (proj1 (Convert_fuel_stable (Convert_cost v)) v (Nat.le_refl _))
    as [r Hr].
  unfold Convert. rewrite (Hr _ (Nat.le_refl _)). apply Hr, Hm.
Qed.

Lemma Convert_loop_enough name g stack m :
  stack_cost stack <= m ->
  Convert_loop m name g stack = Some (Convert_rest name g stack).
Proof.
  intros Hm.
  destruct (proj2 (Convert_fuel_stable (stack_cost stack)) name g stack
              (Nat.le_refl _)) as [r Hr].
  unfold Convert_rest. rewrite (Hr _ (Nat.le_refl _)). apply Hr, Hm.
Qed.

(** [Convert] never runs out of fuel. *)
Lemma Convert_fuel_total v :
  exists r, Convert_fuel (Convert_cost v) v = Some r.
Proof. eexists. apply Convert_fuel_enough. lia. Qed.

(** ** Convert: the equations of the call and of the loop *)

Lemma Convert_eq v :
  Convert v =
    match Convert_start v with
    | StartDone r => r
    | StartLoop name g stack => Convert_rest name g stack
    end.
Proof.
  assert (H : Some (Convert v) = Convert_fuel (S (Convert_cost v)) v).
  { symmetry. apply Convert_fuel_enough. lia. }
  rewrite Convert_fuel_S in H.
  destruct (Convert_start v) as [r|name g stack] eqn:Hst.
  - congruence.
  - pose proof (Convert_start_cost _ _ _ _ Hst).
    rewrite Convert_loop_enough in H by lia. congruence.
Qed.

Lemma Convert_rest_nil name g : Convert_rest name g [] = Ret (Ok g).
Proof. reflexivity. Qed.

Lemma Convert_rest_cons name g current stack :
  Convert_rest name g (current :: stack) =
    match Convert_step name g current with
    | StepDone r => r
    | StepFlatten =>
        Convert_rest name g (pushFields (Indirect (FValue current)) stack)
    | StepSetting set => Convert_rest name (addSetting g set) stack
    | StepGroup i =>
        match Convert i with
        | Ret (Ok sub) => Convert_rest name (addGroup g sub) stack
        | Ret (Err e) => Ret (Err e)
        | Panic msg => Panic msg
        end
    end.
Proof.
  assert (H : Some (Convert_rest name g (current :: stack))
              = Convert_loop (S (stack_cost (current :: stack))) name g
                             (current :: stack)).
  { symmetry. apply Convert_loop_enough. lia. }
  rewrite Convert_loop_S in H.
  assert (Hcost : stack_cost (current :: stack)
                  = 3 + rsize (FValue current) + stack_cost stack) by reflexivity.
  destruct (Convert_step name g current) as [r| |set|i] eqn:Hstep.
  - congruence.
  - pose proof (pushFields_cost (Indirect (FValue current)) stack).
    pose proof (rsize_Indirect (FValue current)).
    rewrite Convert_loop_enough in H by lia. congruence.
  - rewrite Convert_loop_enough in H by lia. congruence.
  - pose proof (Convert_step_group _ _ _ _ Hstep) as ->.
    pose proof (Convert_cost_rv (FValue current)).
    rewrite Convert_fuel_enough in H by lia.
    destruct (Convert (rv (FValue current))) as [[sub|e]|msg]; try congruence.
    rewrite Convert_loop_enough in H by lia. congruence.
Qed.

(** ** Convert: the loop on a stack *)

Lemma Convert_step_done name g current r :
  Convert_step name g current = StepDone r ->
  (exists msg, r = Panic msg) \/ (exists e, r = Ret (Err e)).
Proof.
  unfold Convert_step.
  destruct (bool_decide (rKind (Indirect (FValue current)) = KStruct)
            && Anonymous (Field current)); [discriminate|].
  destruct (negb (CanAddr (Indirect (FValue current)))).
  { destruct (rType (FValue current)); intros [= <-]; eauto. }
  destruct (rType (Indirect (FValue current))) as [t|msg];
    [|intros [= <-]; eauto].
  destruct (negb (bool_decide (rKind (Indirect (FValue current)) = KStruct))
            || String.eqb (tString t) timeName).
  { destruct (settingFromValue _ _ _) as [[set|e]|msg]; intros [= <-]; eauto. }
  destruct (rInterface (FValue current)); intros [= <-]; eauto.
Qed.

(** The name and the group a turn is given only show in the result of a
    turn that returns. *)
Lemma Convert_step_indep name g name' g' current :
  match Convert_step name g current, Convert_step name' g' current with
  | StepDone _, StepDone _ => True
  | StepFlatten, StepFlatten => True
  | StepSetting set, StepSetting set' => set = set'
  | StepGroup i, StepGroup i' => i = i'
  | _, _ => False
  end.
Proof.
  unfold Convert_step.
  destruct (bool_decide (rKind (Indirect (FValue current)) = KStruct)
            && Anonymous (Field current)); [exact I|].
  destruct (negb (CanAddr (Indirect (FValue current)))).
  { destruct (rType (FValue current)); exact I. }
  destruct (rType (Indirect (FValue current))) as [t|msg]; [|exact I].
  destruct (negb (bool_decide (rKind (Indirect (FValue current)) = KStruct))
            || String.eqb (tString t) timeName).
  { destruct (settingFromValue _ _ _) as [[set|e]|msg]; try exact I. reflexivity. }
  destruct (rInterface (FValue current)); [reflexivity|exact I].
Qed.

(** The entries on top of the stack are handled before the ones below. *)
Lemma Convert_rest_app name g top below :
  Convert_rest name g (top ++ below) =
    match Convert_rest name g top with
    | Ret (Ok g') => Convert_rest name g' below
    | r => r
    end.
Proof.
  remember (stack_cost top) as n eqn:Hn.
  assert (Hle : stack_cost top <= n) by lia. clear Hn.
  revert g top Hle. induction n as [|n IH]; intros g [|current top] Hle;
    try reflexivity.
  - rewrite stack_cost_cons in Hle. lia.
  - rewrite stack_cost_cons in Hle.
    rewrite <- app_comm_cons, !Convert_rest_cons.
    destruct (Convert_step name g current) as [r| |set|i] eqn:Hstep.
    + destruct (Convert_step_done _ _ _ _ Hstep) as [[msg ->]|[e ->]];
        reflexivity.
    + rewrite !pushFields_app, app_assoc, <- pushFields_app.
      apply IH.
      pose proof (pushFields_cost (Indirect (FValue current)) top).
      pose proof (rsize_Indirect (FValue current)). lia.
    + apply IH. lia.
    + destruct (Convert i) as [[sub|e]|msg]; try reflexivity.
      apply IH. lia.
Qed.

(** ** Convert: what an entry contributes *)

Lemma newSettingAt_Ok k name description v set :
  newSettingAt k name description v = Ret (Ok set) ->
  set = mkSetting k (mkBaseSetting name description) (ValuePtr set) /\
  rAddr v = Ret (ValuePtr set).
Proof.
  unfold newSettingAt.
  destruct (rType v) as [t|msg]; [|discriminate]. cbn.
  destruct (rAddr v) as [p|msg]; [|discriminate]. cbn.
  destruct (flagRO v); try discriminate.
  destruct (String.eqb (tString t) (valueType k)); [|discriminate].
  intros [= <-]. split; reflexivity.
Qed.

Lemma settingFromValue_Ok name description v set :
  settingFromValue name description v = Ret (Ok set) ->
  Base set = mkBaseSetting name description /\
  rAddr v = Ret (ValuePtr set).
Proof.
  unfold settingFromValue.
  destruct (rType v) as [t|msg]; [|discriminate]. cbn.
  intros H.
  assert (Hk : exists k, newSettingAt k name description v = Ret (Ok set)).
  { repeat case_match; try discriminate; eauto. }
  destruct Hk as [k Hk]. apply newSettingAt_Ok in Hk as [-> Hp].
  split; [reflexivity|exact Hp].
Qed.

(** A setting comes from a field that is not a struct, or is a
    [time.Time]; it carries the name of the field and the description of
    its tag, and points to the variable of the field. *)
Lemma entrySetting_Some e set :
  entrySetting e = Some set ->
  Setting_Name set = FieldName (Field e) /\
  Setting_Description set = TagDescription (Field e) /\
  rAddr (Indirect (FValue e)) = Ret (ValuePtr set) /\
  (rKind (Indirect (FValue e)) <> KStruct \/
   exists t, rType (Indirect (FValue e)) = Ret t /\ tString t = timeName).
Proof.
  unfold entrySetting, Convert_step.
  destruct (bool_decide (rKind (Indirect (FValue e)) = KStruct)
            && Anonymous (Field e)); [discriminate|].
  destruct (negb (CanAddr (Indirect (FValue e)))).
  { destruct (rType (FValue e)); discriminate. }
  destruct (rType (Indirect (FValue e))) as [t|msg]; [|discriminate].
  destruct (negb (bool_decide (rKind (Indirect (FValue e)) = KStruct))) eqn:Hk;
    cbn [orb].
  - destruct (settingFromValue _ _ _) as [[set'|err]|msg] eqn:Hs; try discriminate.
    intros [= <-]. apply settingFromValue_Ok in Hs as [Hb Hp].
    unfold Setting_Name, Setting_Description. rewrite Hb.
    repeat split; try assumption.
    left. apply negb_true_iff, bool_decide_eq_false in Hk. exact Hk.
  - destruct (String.eqb_spec (tString t) timeName) as [Ht|Ht].
    + destruct (settingFromValue _ _ _) as [[set'|err]|msg] eqn:Hs;
        try discriminate.
      intros [= <-]. apply settingFromValue_Ok in Hs as [Hb Hp].
      unfold Setting_Name, Setting_Description. rewrite Hb.
      repeat split; try assumption.
      right. exists t. split; [reflexivity|exact Ht].
    + destruct (rInterface (FValue e)); discriminate.
Qed.

(** [Convert] on a pointer to a struct is the loop on its fields. *)
Lemma Convert_ptr_struct tp p0 t p n d fields :
  Convert (Some (GPtr tp p0 (Some (GStruct t p n d fields))))
  = Convert_rest (groupName (GStruct t p n d fields))
      (SettingGroup (groupName (GStruct t p n d fields)) (default "" d) [] [])
      (pushFields (mkValue (Some (GStruct t p n d fields)) true NotRO) []).
Proof.
  rewrite Convert_eq. unfold Convert_start.
  cbn [ValueOf Indirect rv rType gtype rKind CanAddr flagAddr flagRO
       namerOf describerOf].
  rewrite bool_decide_true by reflexivity. cbn [negb].
  destruct n, d; reflexivity.
Qed.

(** ** Convert: the group of a struct, from its fields *)

Lemma fieldRO_exported r f :
  r <> StickyRO -> Exported f = true -> fieldRO r f = NotRO.
Proof. unfold fieldRO. intros Hr ->. destruct r; [reflexivity|reflexivity|contradiction]. Qed.

Lemma fieldRO_embedded r f :
  r <> StickyRO -> Anonymous f = true -> fieldRO r f <> StickyRO.
Proof.
  unfold fieldRO. intros Hr ->. destruct (Exported f), r; try discriminate; contradiction.
Qed.

Lemma pushFields_entries t p nm ds fields r stack :
  pushFields (mkValue (Some (GStruct t p nm ds fields)) true r) stack
  = map (entryOf r) (rev fields) ++ stack.
Proof.
  rewrite pushFields_app. unfold structFields. cbn [rv flagAddr flagRO].
  rewrite map_rev. reflexivity.
Qed.

(** A field of a type of [settingTypes]: the turn of the loop makes the
    setting of that type. *)
Lemma Convert_step_setting name g r f t p k :
  r <> StickyRO ->
  Exported f = true ->
  In (t, k) settingTypes ->
  Anonymous f = false \/ tKind t <> KStruct ->
  Convert_step name g (entryOf r (f, GLeaf t p))
  = StepSetting (mkSetting k (mkBaseSetting (FieldName f) (TagDescription f)) p)
  /\
  forall tp pp,
    Convert_step name g (entryOf r (f, GPtr tp pp (Some (GLeaf t p))))
    = StepSetting (mkSetting k (mkBaseSetting (FieldName f) (TagDescription f)) p).
Proof.
  intros Hr Hex Hin Hanon.
  unfold Convert_step, entryOf. cbn [fst snd Field FValue].
  rewrite (fieldRO_exported r f Hr Hex).
  unfold settingTypes in Hin. cbn [In] in Hin.
  repeat (destruct Hin as [[= <- <-]|Hin];
          [destruct Hanon as [->|Hk];
           [rewrite andb_false_r; split; [|intros tp pp]; reflexivity
           |first [exfalso; apply Hk; reflexivity
                  |split; [|intros tp pp]; reflexivity]]|]).
  contradiction.
Qed.

Lemma Convert_step_group_ptr name g r f tp pp t p nm ds fields :
  r <> StickyRO ->
  Exported f = true ->
  Anonymous f = false ->
  tString t <> timeName ->
  Convert_step name g (entryOf r (f, GPtr tp pp (Some (GStruct t p nm ds fields))))
  = StepGroup (Some (GPtr tp pp (Some (GStruct t p nm ds fields)))).
Proof.
  intros Hr Hex Han Ht.
  unfold Convert_step, entryOf. cbn [fst snd Field FValue].
  rewrite (fieldRO_exported r f Hr Hex), Han.
  cbn [Indirect rv rKind CanAddr flagAddr flagRO rType gtype negb andb
       mret outcome_ret].
  rewrite andb_false_r. rewrite bool_decide_true by reflexivity.
  cbn [negb orb]. apply String.eqb_neq in Ht. rewrite Ht. reflexivity.
Qed.

Lemma Convert_step_embedded name g r f gv t p nm ds fields :
  Anonymous f = true ->
  (gv = GStruct t p nm ds fields
   \/ exists tp pp, gv = GPtr tp pp (Some (GStruct t p nm ds fields))) ->
  Convert_step name g (entryOf r (f, gv)) = StepFlatten /\
  forall stack,
    pushFields (Indirect (FValue (entryOf r (f, gv)))) stack
    = map (entryOf (fieldRO r f)) (rev fields) ++ stack.
Proof.
  intros Han Hgv. unfold Convert_step, entryOf. cbn [fst snd Field FValue].
  rewrite Han.
  destruct Hgv as [->|(tp & pp & ->)];
    cbn [Indirect rv rKind flagRO];
    (rewrite bool_decide_true by reflexivity); cbn [andb];
    (split; [reflexivity|]); intros stack; apply pushFields_entries.
Qed.

(** The loop on the entries of fields that contribute their settings and
    groups: it appends them to the group it was given. *)
Lemma contributes_rest entries gs ss :
  contributes entries gs ss ->
  forall r name n d gs0 ss0 stack,
    r <> StickyRO ->
    Convert_rest name (SettingGroup n d gs0 ss0)
                 (map (entryOf r) entries ++ stack)
    = Convert_rest name (SettingGroup n d (gs0 ++ gs) (ss0 ++ ss)) stack.
Proof.
  induction 1 as [|f t p k rest gs ss Hex Hin Han _ IH
                  |f tp pp t p k rest gs ss Hex Hin Han _ IH
                  |f tp pp t p nm ds fields rest gs' ss' gs ss Hex Han Ht _ IH1 _ IH2
                  |f t p nm ds fields rest gs' ss' gs ss Han _ IH1 _ IH2
                  |f tp pp t p nm ds fields rest gs' ss' gs ss Han _ IH1 _ IH2];
    intros r name n d gs0 ss0 stack Hr; cbn [map app].
  - rewrite !app_nil_r. reflexivity.
  - rewrite Convert_rest_cons.
    rewrite (proj1 (Convert_step_setting name _ r f t p k Hr Hex Hin Han)).
    cbn [addSetting]. rewrite IH by exact Hr.
    rewrite <- app_assoc. reflexivity.
  - rewrite Convert_rest_cons.
    rewrite (proj2 (Convert_step_setting name _ r f t p k Hr Hex Hin Han) tp pp).
    cbn [addSetting]. rewrite IH by exact Hr.
    rewrite <- app_assoc. reflexivity.
  - rewrite Convert_rest_cons.
    rewrite (Convert_step_group_ptr name _ r f tp pp t p nm ds fields Hr Hex Han Ht).
    rewrite Convert_ptr_struct, pushFields_entries.
    rewrite IH1 by discriminate. rewrite Convert_rest_nil.
    cbn [addGroup app]. rewrite IH2 by exact Hr.
    rewrite <- app_assoc. reflexivity.
  - rewrite Convert_rest_cons.
    destruct (Convert_step_embedded name (SettingGroup n d gs0 ss0) r f
                (GStruct t p nm ds fields) t p nm ds fields Han
                (or_introl eq_refl)) as [-> ->].
    rewrite IH1 by (apply fieldRO_embedded; assumption).
    rewrite IH2 by exact Hr. rewrite <- !app_assoc. reflexivity.
  - rewrite Convert_rest_cons.
    destruct (Convert_step_embedded name (SettingGroup n d gs0 ss0) r f
                (GPtr tp pp (Some (GStruct t p nm ds fields))) t p nm ds fields Han
                (or_intror (ex_intro _ tp (ex_intro _ pp eq_refl)))) as [-> ->].
    rewrite IH1 by (apply fieldRO_embedded; assumption).
    rewrite IH2 by exact Hr. rewrite <- !app_assoc. reflexivity.
Qed.



(** ** Footprints: what the loader writes *)

Section LoaderFrame.

Variable cast : CastFn -> value -> value * error.

Lemma LoadAt_frame s prefix settings st st' e l :
  LoadAt cast s prefix settings st = Ret (st', e) ->
  ~ In l (map ValuePtr settings) -> st' !! l = st !! l.
Proof.
  revert st. induction settings as [|x settings IH]; intros st H Hl.
  - injection H as <- _. reflexivity.
  - cbn [LoadAt] in H. cbn [map] in Hl.
    destruct (Get s (prefix ++ [Setting_Name x])) as [[v [|]]|msg];
      cbn in H; try discriminate.
    + destruct (SetValue cast st x v) as [[st1 [e1|]]|msg] eqn:Hs;
        cbn in H; try discriminate.
      * injection H as <- _.
        eapply SetValue_frame; [exact Hs|]. intros ->. apply Hl. left. reflexivity.
      * rewrite (IH st1 H) by (intros Hin; apply Hl; right; exact Hin).
        eapply SetValue_frame; [exact Hs|]. intros ->. apply Hl. left. reflexivity.
    + apply IH; [exact H|]. intros Hin. apply Hl. right. exact Hin.
Qed.

Lemma LoadVisits_frame s vs st st' e l :
  LoadVisits cast s vs st = Ret (st', e) ->
  (forall path g, In (path, g) vs -> ~ In l (map ValuePtr (Group_Settings g))) ->
  st' !! l = st !! l.
Proof.
  revert st. induction vs as [|[path g] vs IH]; intros st H Hl.
  - injection H as <- _. reflexivity.
  - cbn [LoadVisits] in H.
    destruct (LoadAt cast s path (Group_Settings g) st) as [[st1 [e1|]]|msg] eqn:Hg;
      try discriminate.
    + injection H as <- _.
      eapply LoadAt_frame; [exact Hg|]. apply (Hl path g). left. reflexivity.
    + rewrite (IH st1 H) by (intros p' g' Hin; apply (Hl p' g'); right; exact Hin).
      eapply LoadAt_frame; [exact Hg|]. apply (Hl path g). left. reflexivity.
Qed.

End LoaderFrame.

Lemma Group_ptrs_unfold g :
  Group_ptrs g
  = map ValuePtr (Group_Settings g) ++ Groups_ptrs (Group_Groups g).
Proof. destruct g as [n d gs ss]. reflexivity. Qed.

Lemma Groups_ptrs_In l groups g :
  In g groups -> In l (Group_ptrs g) -> In l (Groups_ptrs groups).
Proof.
  intros Hg Hl. unfold Groups_ptrs. apply in_flat_map. exists g. split; assumption.
Qed.

Lemma reaches_ptrs groups path g l :
  reaches groups path g ->
  In l (map ValuePtr (Group_Settings g)) -> In l (Groups_ptrs groups).
Proof.
  induction 1 as [groups g Hin|groups parent path g Hin _ IH]; intros Hl.
  - apply (Groups_ptrs_In l groups g Hin).
    rewrite Group_ptrs_unfold. apply in_or_app. left. exact Hl.
  - apply (Groups_ptrs_In l groups parent Hin).
    rewrite Group_ptrs_unfold. apply in_or_app. right. apply IH, Hl.
Qed.

(** ** Footprints: where the settings of a converted group point *)

Lemma rAddr_In x p : rAddr x = Ret p -> In p (value_locs (rv x)).
Proof.
  unfold rAddr. destruct (rv x) as [g|]; [|discriminate].
  destruct (flagAddr x); [|discriminate]. intros [= <-].
  destruct g as [t p|t p [tg|]|t p n d fields]; left; reflexivity.
Qed.

Lemma Indirect_locs x l :
  In l (value_locs (rv (Indirect x))) -> In l (value_locs (rv x)).
Proof.
  unfold Indirect. destruct (rv x) as [[t p|t p [tg|]|t p n d fields]|] eqn:Hx;
    cbn [rv value_locs]; try rewrite Hx; try tauto.
  - intros H. right. exact H.
  - intros [].
Qed.

Lemma stack_locs_app s1 s2 :
  stack_locs (s1 ++ s2) = stack_locs s1 ++ stack_locs s2.
Proof. apply flat_map_app. Qed.

Lemma stack_locs_rev s l : In l (stack_locs (rev s)) <-> In l (stack_locs s).
Proof.
  unfold stack_locs. rewrite !in_flat_map.
  split; intros (e & He & Hl); exists e; split; try assumption;
    [apply in_rev|apply in_rev in He]; assumption.
Qed.

Lemma structFields_locs x l :
  In l (stack_locs (structFields x)) -> In l (value_locs (rv x)).
Proof.
  destruct x as [[[t p|t p tg|t p n d fields]|] a r];
    unfold structFields; cbn [rv]; try (intros []).
  cbn [value_locs gval_locs flagAddr flagRO]. intros H. right.
  induction fields as [|[f g] fields IH]; [exact H|].
  rewrite map_cons in H. unfold stack_locs in H. cbn [flat_map] in H.
  apply in_app_or in H. apply in_or_app.
  destruct H as [H|H]; [left; exact H|right; apply IH, H].
Qed.

Lemma pushFields_locs x stack l :
  In l (stack_locs (pushFields x stack)) ->
  In l (value_locs (rv x)) \/ In l (stack_locs stack).
Proof.
  rewrite pushFields_app, stack_locs_app. intros H.
  apply in_app_or in H. destruct H as [H|H]; [left|right; exact H].
  apply structFields_locs, stack_locs_rev, H.
Qed.

Lemma addSetting_ptrs g set l :
  In l (Group_ptrs (addSetting g set)) ->
  l = ValuePtr set \/ In l (Group_ptrs g).
Proof.
  destruct g as [n d gs ss]. cbn [addSetting].
  rewrite !Group_ptrs_unfold. cbn [Group_Settings Group_Groups].
  rewrite map_app, !in_app_iff. cbn [map In]. intuition.
Qed.

Lemma addGroup_ptrs g sub l :
  In l (Group_ptrs (addGroup g sub)) ->
  In l (Group_ptrs sub) \/ In l (Group_ptrs g).
Proof.
  destruct g as [n d gs ss]. cbn [addGroup].
  rewrite (Group_ptrs_unfold (SettingGroup n d (gs ++ [sub]) ss)).
  rewrite (Group_ptrs_unfold (SettingGroup n d gs ss)).
  cbn [Group_Settings Group_Groups].
  unfold Groups_ptrs. rewrite flat_map_app, !in_app_iff.
  cbn [flat_map]. rewrite app_nil_r. intuition.
Qed.

Lemma Convert_step_setting_addr name g e set :
  Convert_step name g e = StepSetting set ->
  rAddr (Indirect (FValue e)) = Ret (ValuePtr set).
Proof.
  intros H.
  pose proof (Convert_step_indep name g "" (SettingGroup "" "" [] []) e) as Hi.
  rewrite H in Hi.
  destruct (Convert_step "" (SettingGroup "" "" [] []) e) as [r| |set'|i] eqn:Hd;
    try contradiction.
  subst set'.
  assert (He : entrySetting e = Some set) by (unfold entrySetting; rewrite Hd; reflexivity).
  apply entrySetting_Some in He. tauto.
Qed.

Lemma Convert_ptrs_aux n :
  (forall v g, Convert_cost v <= n -> Convert v = Ret (Ok g) ->
     forall l, In l (Group_ptrs g) -> In l (value_locs v)) /\
  (forall name g stack g', stack_cost stack <= n ->
     Convert_rest name g stack = Ret (Ok g') ->
     forall l, In l (Group_ptrs g') ->
               In l (Group_ptrs g) \/ In l (stack_locs stack)).
Proof.
  induction n as [|n [IHc IHl]].
  - split.
    + intros [g0|] g H; simpl in H; lia.
    + intros name g [|e stack] g' H.
      * rewrite Convert_rest_nil. intros [= <-] l Hl. left. exact Hl.
      * rewrite stack_cost_cons in H. lia.
  - split.
    + intros v g Hv. rewrite Convert_eq.
      destruct (Convert_start v) as [r|name g0 stack] eqn:Hst.
      * unfold Convert_start in Hst.
        destruct v as [g1|]; [|injection Hst as <-; discriminate].
        destruct (rType (Indirect (ValueOf (Some g1)))); [|injection Hst as <-; discriminate].
        destruct (negb (bool_decide (rKind (Indirect (ValueOf (Some g1))) = KStruct)));
          [injection Hst as <-; discriminate|].
        destruct (negb (CanAddr (Indirect (ValueOf (Some g1)))));
          [injection Hst as <-; discriminate|discriminate].
      * pose proof (Convert_start_cost _ _ _ _ Hst) as Hc.
        intros Hr l Hl.
        destruct (IHl name g0 stack g ltac:(lia) Hr l Hl) as [H|H].
        -- unfold Convert_start in Hst.
           destruct v as [g1|]; [|discriminate].
           destruct (rType (Indirect (ValueOf (Some g1)))); [|discriminate].
           destruct (negb (bool_decide (rKind (Indirect (ValueOf (Some g1))) = KStruct)));
             [discriminate|].
           destruct (negb (CanAddr (Indirect (ValueOf (Some g1)))));
             [discriminate|].
           injection Hst as _ <- _. destruct H.
        -- unfold Convert_start in Hst.
           destruct v as [g1|]; [|discriminate].
           destruct (rType (Indirect (ValueOf (Some g1)))); [|discriminate].
           destruct (negb (bool_decide (rKind (Indirect (ValueOf (Some g1))) = KStruct)));
             [discriminate|].
           destruct (negb (CanAddr (Indirect (ValueOf (Some g1)))));
             [discriminate|].
           injection Hst as _ _ <-.
           apply pushFields_locs in H. destruct H as [H|[]].
           apply Indirect_locs in H. exact H.
    + intros name g [|e stack] g' Hs.
      * rewrite Convert_rest_nil. intros [= <-] l Hl. left. exact Hl.
      * rewrite stack_cost_cons in Hs. rewrite Convert_rest_cons.
        change (stack_locs (e :: stack))
          with (value_locs (rv (FValue e)) ++ stack_locs stack).
        destruct (Convert_step name g e) as [r| |set|i] eqn:Hstep.
        -- destruct (Convert_step_done _ _ _ _ Hstep) as [[msg ->]|[err ->]];
             discriminate.
        -- intros Hr l Hl.
           pose proof (pushFields_cost (Indirect (FValue e)) stack).
           pose proof (rsize_Indirect (FValue e)).
           destruct (IHl name g (pushFields (Indirect (FValue e)) stack) g'
                       ltac:(lia) Hr l Hl) as [H1|H1]; [left; exact H1|].
           right. apply in_or_app.
           apply pushFields_locs in H1. destruct H1 as [H1|H1]; [left|right; exact H1].
           apply Indirect_locs, H1.
        -- intros Hr l Hl.
           destruct (IHl name (addSetting g set) stack g' ltac:(lia) Hr l Hl)
             as [H1|H1].
           ++ apply addSetting_ptrs in H1. destruct H1 as [->|H1]; [|left; exact H1].
              right. apply in_or_app. left.
              apply Indirect_locs, rAddr_In.
              apply (Convert_step_setting_addr _ _ _ _ Hstep).
           ++ right. apply in_or_app. right. exact H1.
        -- pose proof (Convert_step_group _ _ _ _ Hstep) as ->.
           pose proof (Convert_cost_rv (FValue e)).
           destruct (Convert (rv (FValue e))) as [[sub|err]|msg] eqn:Hc;
             try discriminate.
           intros Hr l Hl.
           destruct (IHl name (addGroup g sub) stack g' ltac:(lia) Hr l Hl)
             as [H1|H1].
           ++ apply addGroup_ptrs in H1. destruct H1 as [H1|H1]; [|left; exact H1].
              right. apply in_or_app. left.
              apply (IHc (rv (FValue e)) sub ltac:(lia) Hc l H1).
           ++ right. apply in_or_app. right. exact H1.
Qed.

(** The settings of a converted group point into the converted value. *)
Lemma Convert_ptrs v g l :
  Convert v = Ret (Ok g) -> In l (Group_ptrs g) -> In l (value_locs v).
Proof.
  intros H. apply (proj1 (Convert_ptrs_aux (Convert_cost v)) v g (Nat.le_refl _) H).
Qed.

Lemma LoadGroups_frame cast s groups st st' e l :
  LoadGroups cast s groups st = Ret (st', e) ->
  ~ In l (Groups_ptrs groups) -> st' !! l = st !! l.
Proof.
  rewrite LoadGroups_visits. intros H Hl.
  eapply LoadVisits_frame; [exact H|].
  intros path g Hin Hp. apply Hl.
  apply visits_forest_reaches in Hin.
  eapply reaches_ptrs; eassumption.
Qed.

(** ** NewComponent *)


(** ** The components of the test suite *)

Lemma testSettings_frame (l : loc) st0 st1 cfg :
  (l < 100)%nat ->
  testSettings st0 = Ret (st1, cfg) ->
  st1 !! l = st0 !! l /\ ~ In l (value_locs cfg).
Proof.
  intros Hl [= <- <-]. split.
  - apply lookup_insert_ne. lia.
  - cbn. intros [H|[H|[H|[]]]]; lia.
Qed.

(** ["sets pointer on success"] of the test suite. *)
Example NewComponent_sets_pointer_on_success :
  NewComponent convertibleModel assignableModel backgroundCtxType castModel
    (MapSource_Source
       (NewMapSource [("testconf", VMap [("value", VString "test")])]))
    (Some testComponent)
    (DestPtr testItemPtr testItemType (Some 0%nat))
    {[ 0%nat := VMap [("Value", VString "")] ]}
  = Ret (<[0%nat := VMap [("Value", VString "test")]]>
           (<[102%nat := VString "test"]>
              {[ 0%nat := VMap [("Value", VString "")] ]}),
         None).
Proof. vm_compute. reflexivity. Qed.

(** ** The cases of the test suites, run on the embedding *)

(** TestConvert *)

Example Convert_nil :
  Convert None = Ret (Err "nil value given to Convert").
Proof. reflexivity. Qed.

Example Convert_non_struct :
  Convert (Some (GLeaf stringType 0%nat))
  = Ret (Err "non-struct value string given to Convert").
Proof. reflexivity. Qed.

Example Convert_non_addressable :
  Convert (Some byValueValue)
  = Ret (Err "unaddressable value struct {} given to Convert").
Proof. reflexivity. Qed.

Example Convert_embedded :
  Convert (Some embeddedValue)
  = Ret (Ok (SettingGroup "embedded" "" []
               [mkSetting StringSetting (mkBaseSetting "V" "") 4%nat])).
Proof. reflexivity. Qed.

Example Convert_nested :
  Convert (Some nestedValue)
  = Ret (Ok (SettingGroup "nested" ""
               [SettingGroup "inner" "" []
                  [mkSetting StringSetting (mkBaseSetting "V" "") 4%nat]]
               [])).
Proof. reflexivity. Qed.

Example Convert_described :
  Convert (Some describedValue) = Ret (Ok (SettingGroup "TEST" "TEST" [] [])).
Proof. reflexivity. Qed.

Example Convert_annotated :
  Convert (Some annotatedValue)
  = Ret (Ok (SettingGroup "" "" []
               [mkSetting StringSetting (mkBaseSetting "V" "a string") 2%nat])).
Proof. reflexivity. Qed.

(** A nil pointer to a struct as a field, and a field that is not
    exported. *)
Example Convert_nil_pointer_field :
  Convert
    (Some (GPtr (ptrTo nestedType) 0%nat
             (Some (GStruct nestedType 1%nat None None
                      [(mkField "V" false "" true,
                        GPtr (ptrTo innerType) 2%nat None)]))))
  = Ret (Err "*settings.inner field nested.V must be a pointer type").
Proof. reflexivity. Qed.

Example Convert_unexported_field :
  exists msg,
    Convert
      (Some (GPtr (ptrTo innerType) 0%nat
               (Some (GStruct innerType 1%nat None None
                        [(mkField "v" false "" false, GLeaf stringType 2%nat)]))))
    = Panic msg.
Proof. eexists. reflexivity. Qed.

(** TestPrefixSource and TestMultiSource *)

Example PrefixSource_nested :
  PrefixSource_Get
    {| PSource :=
         PrefixSource_Source
           {| PSource :=
                MapSource_Source
                  (NewMapSource
                     [("a", VMap [("aa", VBool true)]);
                      ("b", VMap [("bb", VMap [("bbb", VBool true)])])]);
              Prefix := ["b"] |};
       Prefix := ["bb"] |}
    ["bbb"]
  = Ret (VBool true, true).
Proof. reflexivity. Qed.

Example MultiSource_third :
  Get (MultiSource_Source
         [MapSource_Source (NewMapSource []);
          MapSource_Source (NewMapSource []);
          MapSource_Source (NewMapSource [("a", VMap [("aa", VBool true)])])])
      ["a"; "aa"]
  = Ret (VBool true, true).
Proof. reflexivity. Qed.

(** TestMapSource: a lookup through a leaf, and the keys of a map built
    with mixed case. *)
Example MapSource_through_leaf :
  MapSource_Get (NewMapSource [("a", VString "value")]) ["a"; "b"; "c"]
  = Ret (VNil, false).
Proof. reflexivity. Qed.

Example lowerCaseMap_nested :
  lowerCaseMap
    [("ONE", VNil); ("two", VNil);
     ("three", VMap [("FOUR", VNil); ("Five", VMap [("SIX", VNil)])])]
  = [("two", VNil);
     ("three", VMap [("four", VNil); ("five", VMap [("six", VNil)])]);
     ("one", VNil)].
Proof. reflexivity. Qed.

(** TestSetting: the good and the bad input of the Int case. *)
Example IntSetting_good_then_bad :
  SetValue castModel {[ 0%nat := VInt 0 ]}
    (mkSetting IntSetting (mkBaseSetting "Int" "") 0%nat) (VString "1")
  = Ret ({[ 0%nat := VInt 1 ]}, None) /\
  SetValue castModel {[ 0%nat := VInt 1 ]}
    (mkSetting IntSetting (mkBaseSetting "Int" "") 0%nat) (VString "false")
  = Ret ({[ 0%nat := VInt 0 ]}, Some "unable to cast to int").
Proof. split; reflexivity. Qed.

(** TestNewComponent: the rejected components. *)
Example VerifyComponent_missingNew :
  VerifyComponent convertibleModel backgroundCtxType
    (Some (componentOf missingNewMethods))
  = Ret (Some "type *settings.testComponent does not have a `New(ctx, T) (T2, error)` method").
Proof. reflexivity. Qed.

Example VerifyComponent_newTooManyArgs :
  VerifyComponent convertibleModel backgroundCtxType
    (Some (componentOf newTooManyArgsMethods))
  = Ret (Some "method New for *settings.testComponent must take only two arguments").
Proof. reflexivity. Qed.

Example VerifyComponent_newWrongErrorType :
  VerifyComponent convertibleModel backgroundCtxType
    (Some (componentOf newWrongErrorTypeMethods))
  = Ret (Some "method New for *settings.testComponent must return an error as the second value").
Proof. reflexivity. Qed.

Example NewComponent_non_pointer_destination :
  NewComponent convertibleModel assignableModel backgroundCtxType castModel
    (MapSource_Source {| Map := [] |}) (Some testComponent)
    (DestOther testItemType) ∅
  = Ret (∅, Some "destination settings.testItem must be a pointer type").
Proof. reflexivity. Qed.

Example NewComponent_nil_destination :
  NewComponent convertibleModel assignableModel backgroundCtxType castModel
    (MapSource_Source {| Map := [] |}) (Some testComponent)
    (DestPtr testItemPtr testItemType None) ∅
  = Ret (∅, Some "destination *settings.testItem cannot be nil. use new(T) to make a pointer").
Proof. reflexivity. Qed.

(* ===================================================================== *)
(** * Part II, continued: further properties of the code                *)
(* ===================================================================== *)

(** ** PrefixSource and MultiSource, composed *)


(** X2. [PrefixSource.Get] on a slice.  The wrapped source is always asked
    for the prefix followed by the elements of the slice.  When the
    capacity of the slice holds the prefix as well, [append] and [copy]
    work in the array of the caller, whose slice then shows the first
    elements of the prefixed path instead of its own; when it does not,
    the caller's array is left as it was. *)
Theorem PrefixSource_Get_caller_slice (prefix : list string) (path : pathSlice) :
  (slen path <= length (backing path))%nat ->
  fst (PrefixSource_path prefix path) = prefix ++ elems path /\
  take (slen path) (snd (PrefixSource_path prefix path))
  = if (slen path + length prefix <=? length (backing path))%nat
    then take (slen path) (prefix ++ elems path)
    else elems path.
Proof.
  intros Hwf. unfold PrefixSource_path, elems.
  destruct (Nat.leb_spec (slen path + length prefix) (length (backing path)))
    as [Hfit|Hno]; cbn [fst snd].
  - set (l := slen path). set (n := length prefix).
    set (arr := backing path) in *.
    assert (Hl : length (take l arr) = l) by (rewrite length_take; lia).
    assert (H1 : take (l + n)
                   (take l arr ++ prefix ++ drop (l + n) arr)
                 = take l arr ++ prefix).
    { rewrite app_assoc. rewrite take_app_le by (rewrite length_app; lia).
      apply take_ge. rewrite length_app. lia. }
    rewrite H1.
    assert (H3 : copy (take n (take l arr ++ prefix)
                         ++ copy (drop n (take l arr ++ prefix))
                                 (take l arr ++ prefix)) prefix
                 = prefix ++ take l arr) by apply PrefixSource_shuffle.
    rewrite !H3.
    split; [reflexivity|].
    rewrite take_app_le by (rewrite length_app; lia). reflexivity.
  - split; [apply PrefixSource_shuffle|reflexivity].
Qed.

(** X3. What [MultiSource.Get] returns comes from a member.  A value
    reported as found is the value of a member that found it, after every
    member before it reported a miss; each member was called with the
    slice as the members before it left it.  When nothing is found the
    value is nil, whatever the members returned next to their misses, and
    every member was asked and reported a miss.  When the members before
    the finder leave the slice as they got it, the finder is asked for the
    path of the caller: the first found value wins, whatever the members
    after it hold. *)
Theorem MultiSource_Get_result (s : MultiSource) (path : pathSlice)
  (v : value) (arr : list string) :
  (MultiSource_Get s path = Ret (v, true, arr) <->
   exists before B after arr0,
     s = before ++ B :: after /\
     missed before path arr0 /\
     GetSlice B (mkPathSlice arr0 (slen path)) = Ret (v, true, arr)) /\
  (MultiSource_Get s path = Ret (v, false, arr) <->
   v = VNil /\ missed s path arr) /\
  (forall before B after,
      s = before ++ B :: after ->
      Forall (fun a => exists v', GetSlice a path = Ret (v', false, backing path))
             before ->
      GetSlice B path = Ret (v, true, arr) ->
      MultiSource_Get s path = Ret (v, true, arr)).
Proof.
  split; [apply MultiSource_Get_true|]. split; [apply MultiSource_Get_false|].
  intros before B after -> Hb HB. apply MultiSource_Get_true.
  exists before, B, after, (backing path). split; [reflexivity|].
  split; [apply missed_unchanged, Hb|]. destruct path; exact HB.
Qed.

(** X4. A [MultiSource] may hold other [MultiSource] values: searching the
    members of two lists one after the other is searching the two lists as
    two members.  Both hand the one slice to the same members in the same
    order, so nesting changes neither the result nor what is left in the
    array of the caller. *)
Theorem MultiSource_Get_nested (s1 s2 : MultiSource) (path : pathSlice) :
  MultiSource_Get (s1 ++ s2) path
  = MultiSource_Get [MultiSource_Source s1; MultiSource_Source s2] path.
Proof.
  cbn [MultiSource_Get MultiSource_Source GetSlice].
  revert path. induction s1 as [|a s1 IH]; intros path; cbn [app MultiSource_Get].
  - simpl. destruct path as [arr l]. cbn [backing slen].
    destruct (MultiSource_Get s2 (mkPathSlice arr l)) as [[[v [|]] arr2]|msg] eqn:H2;
      simpl; try reflexivity.
    apply MultiSource_Get_false in H2. destruct H2 as [-> _]. reflexivity.
  - destruct (GetSlice a path) as [[[v [|]] arr1]|msg]; simpl; try reflexivity.
    rewrite IH. reflexivity.
Qed.

(** ** MapSource: paths and subtrees *)

Lemma MapSource_walk_app location p rest q0 q :
  MapSource_walk location p (rest ++ q0 :: q) =
    match MapSource_walk location p rest with
    | (VMap m, true) => MapSource_walk m q0 q
    | _ => (VNil, false)
    end.
Proof.
  revert location p. induction rest as [|p' rest IH]; intros location p.
  - cbn [app MapSource_walk]. unfold map_index.
    destruct (map_get location (ToLower p)) as [[]|]; reflexivity.
  - cbn [app MapSource_walk].
    destruct (map_get location (ToLower p)) as [[]|]; try reflexivity.
    apply IH.
Qed.

(** A miss comes with the nil value. *)
Lemma MapSource_walk_miss location p rest v :
  MapSource_walk location p rest = (v, false) -> v = VNil.
Proof.
  revert location p. induction rest as [|p' rest IH]; intros location p.
  - cbn [MapSource_walk]. unfold map_index.
    destruct (map_get location (ToLower p)); [discriminate|].
    intros [= <-]. reflexivity.
  - cbn [MapSource_walk].
    destruct (map_get location (ToLower p)) as [[]|];
      try (intros [= <-]; reflexivity).
    apply IH.
Qed.

(** X5. A lookup along a path is the lookup of its first part followed by
    the lookup of the rest in the map found there.  When the first part
    leads to a value that is not a map, or to nothing, the longer path is
    not found. *)
Theorem MapSource_Get_app (s : MapSource) (p q : list string) :
  p <> [] -> q <> [] ->
  MapSource_Get s (p ++ q) =
    match MapSource_Get s p with
    | Ret (VMap m, true) => MapSource_Get {| Map := m |} q
    | Ret _ => Ret (VNil, false)
    | Panic msg => Panic msg
    end.
Proof.
  intros Hp Hq. destruct p as [|p0 p]; [contradiction|].
  destruct q as [|q0 q]; [contradiction|].
  cbn [app MapSource_Get]. rewrite MapSource_walk_app.
  destruct (MapSource_walk (Map s) p0 p) as [[] []]; reflexivity.
Qed.

(** X6. A [PrefixSource] around a [MapSource] is the [MapSource] of the
    subtree the prefix leads to.  With the empty path it returns what the
    prefix leads to, where the [MapSource] itself panics; below a value that
    is not a map, or below nothing, it finds nothing. *)
Theorem PrefixSource_MapSource_subtree (s : MapSource) (prefix : list string)
  (v : value) (found : bool) :
  MapSource_Get s prefix = Ret (v, found) ->
  forall q,
    PrefixSource_Get {| PSource := MapSource_Source s; Prefix := prefix |} q =
      match q, v with
      | [], _ => Ret (v, found)
      | _ :: _, VMap m => MapSource_Get {| Map := m |} q
      | _ :: _, _ => Ret (VNil, false)
      end.
Proof.
  intros Hget q. rewrite PrefixSource_Get_app.
  cbn [PSource Prefix]. rewrite Get_MapSource.
  destruct prefix as [|p0 prefix]; [discriminate|].
  destruct q as [|q0 q]; [rewrite app_nil_r; exact Hget|].
  cbn [app MapSource_Get] in *. rewrite MapSource_walk_app.
  injection Hget as Hget. rewrite Hget.
  destruct found.
  - destruct v; reflexivity.
  - rewrite (MapSource_walk_miss _ _ _ _ Hget). reflexivity.
Qed.

(** ** lowerCaseMap: what the normal form is

    As for C7, [strings.ToLower] is taken to leave its own results as they
    are ([UnicodeLowerStable]) in this section. *)
Section StableLowerCaseMaps.
Context {unicode_stable : UnicodeLowerStable}.

Lemma map_set_same m k v : map_get m k = Some v -> map_set k v m = m.
Proof.
  induction m as [|[k' v'] m IH]; simpl; [discriminate|].
  destruct (String.eqb_spec k' k) as [->|Hne].
  - intros [= ->]. reflexivity.
  - intros H. rewrite (IH H). reflexivity.
Qed.

Lemma lowerCaseStep_lower current k :
  ToLower k = k -> lowerCaseStep current k = current.
Proof.
  intros Hk. unfold lowerCaseStep.
  destruct (map_get current k) as [v|] eqn:Hget; [|reflexivity].
  rewrite Hk, String.eqb_refl. cbn [negb]. apply map_set_same, Hget.
Qed.

Lemma lowerCaseKeys_lowered m :
  Forall (fun kv => ToLower (fst kv) = fst kv) m -> lowerCaseKeys m = m.
Proof.
  unfold lowerCaseKeys. intros H.
  assert (Hks : Forall (fun k => ToLower k = k) (map fst m)).
  { induction H; constructor; assumption. }
  clear H. revert Hks. generalize (map fst m) as ks. intros ks.
  induction 1 as [|k ks Hk _ IH]; simpl; [reflexivity|].
  rewrite lowerCaseStep_lower by exact Hk. exact IH.
Qed.

Lemma lowerCaseValue_lowered v : lowerKeyed v = true -> lowerCaseValue v = v.
Proof.
  induction v as [| | | | | | |m IH] using value_ind; try reflexivity.
  cbn [lowerKeyed lowerCaseValue]. intros H.
  assert (Hmap : map (fun kv : string * value =>
                        match kv with (k, v') => (k, lowerCaseValue v') end) m = m
                 /\ Forall (fun kv => ToLower (fst kv) = fst kv) m).
  { induction IH as [|[k v] m Hv _ IHm]; [split; constructor|].
    cbn [forallb] in H. apply andb_prop in H. destruct H as [Hkv Hrest].
    apply andb_prop in Hkv. destruct Hkv as [Hk Hlow].
    destruct (IHm Hrest) as [Heq Hall]. cbn [map]. split.
    - rewrite Heq. simpl in Hv. rewrite (Hv Hlow). reflexivity.
    - constructor; [apply String.eqb_eq, Hk|exact Hall]. }
  destruct Hmap as [-> Hall]. rewrite lowerCaseKeys_lowered by exact Hall.
  reflexivity.
Qed.

Lemma lowerCaseValue_VMap m : lowerCaseValue (VMap m) = VMap (lowerCaseMap m).
Proof. reflexivity. Qed.

(** X7. [lowerCaseMap] leaves a map alone whose keys are in lower case at
    every level, and what it returns is such a map: normalising twice is
    normalising once.  Lower case is that of [strings.ToLower], taken to
    be stable. *)
Theorem lowerCaseMap_idempotent (m : gomap) :
  lowerCaseMap (lowerCaseMap m) = lowerCaseMap m /\
  NewMapSource (Map (NewMapSource m)) = NewMapSource m /\
  (lowerKeyed (VMap m) = true -> lowerCaseMap m = m).
Proof.
  assert (Hid : forall m', lowerKeyed (VMap m') = true -> lowerCaseMap m' = m').
  { intros m' H. apply lowerCaseValue_lowered in H.
    rewrite lowerCaseValue_VMap in H. injection H as H. exact H. }
  assert (H2 : lowerCaseMap (lowerCaseMap m) = lowerCaseMap m).
  { apply Hid. rewrite <- lowerCaseValue_VMap. apply lowerCaseValue_lowerKeyed. }
  split; [exact H2|]. split; [|apply Hid].
  unfold NewMapSource. cbn [Map]. rewrite H2. reflexivity.
Qed.

(** ** lowerCaseMap: lookups after normalisation *)

Lemma NoDup_map_In_inj {A B} (f : A -> B) (l : list A) x y :
  List.NoDup (map f l) -> In x l -> In y l -> f x = f y -> x = y.
Proof.
  induction l as [|a l IH]; [contradiction|].
  cbn [map]. intros Hnd Hx Hy Hf. inversion Hnd as [|? ? Hnotin Hnd']; subst.
  destruct Hx as [->|Hx], Hy as [->|Hy].
  - reflexivity.
  - exfalso. apply Hnotin. rewrite Hf. apply in_map, Hy.
  - exfalso. apply Hnotin. rewrite <- Hf. apply in_map, Hx.
  - apply IH; assumption.
Qed.

Lemma NoDup_map_filter {A B} (f : A -> B) (P : A -> bool) (l : list A) :
  List.NoDup (map f l) -> List.NoDup (map f (List.filter P l)).
Proof.
  induction l as [|a l IH]; [intros; constructor|].
  cbn [map List.filter]. intros Hnd. inversion Hnd as [|? ? Hnotin Hnd']; subst.
  destruct (P a); [|apply IH, Hnd'].
  cbn [map]. constructor; [|apply IH, Hnd'].
  intros Hin. apply Hnotin. apply in_map_iff in Hin.
  destruct Hin as (x & Hfx & Hx). apply filter_In in Hx.
  rewrite <- Hfx. apply in_map, Hx.
Qed.

Lemma NoDup_snoc {A} (l : list A) x :
  List.NoDup l -> ~ In x l -> List.NoDup (l ++ [x]).
Proof.
  induction l as [|a l IH]; cbn [app]; intros Hnd Hx.
  - constructor; [intros []|constructor].
  - inversion Hnd as [|? ? Hnotin Hnd']; subst. constructor.
    + intros Hin. apply in_app_or in Hin. destruct Hin as [Hin|[->|[]]].
      * exact (Hnotin Hin).
      * apply Hx. left. reflexivity.
    + apply IH; [exact Hnd'|]. intros Hin. apply Hx. right. exact Hin.
Qed.

Lemma getLower_cons k v m q :
  getLower ((k, v) :: m) q
  = if String.eqb (ToLower k) q then Some v else getLower m q.
Proof. unfold getLower. cbn [List.find fst]. destruct (String.eqb (ToLower k) q); reflexivity. Qed.

Lemma getLower_None m q :
  (forall kv, In kv m -> ToLower (fst kv) <> q) -> getLower m q = None.
Proof.
  induction m as [|[k v] m IH]; intros H; [reflexivity|].
  rewrite getLower_cons.
  destruct (String.eqb_spec (ToLower k) q) as [Heq|_].
  - exfalso. exact (H (k, v) (or_introl eq_refl) Heq).
  - apply IH. intros kv Hin. apply H. right. exact Hin.
Qed.

Lemma getLower_In m k v :
  List.NoDup (lowerKeys m) -> In (k, v) m -> getLower m (ToLower k) = Some v.
Proof.
  induction m as [|[k1 v1] m IH]; [contradiction|].
  unfold lowerKeys. cbn [map fst]. intros Hnd Hin.
  inversion Hnd as [|? ? Hnotin Hnd']; subst.
  rewrite getLower_cons.
  destruct Hin as [[= -> ->]|Hin].
  - rewrite String.eqb_refl. reflexivity.
  - destruct (String.eqb_spec (ToLower k1) (ToLower k)) as [Heq|_].
    + exfalso. apply Hnotin. rewrite Heq.
      apply (in_map (fun kv : string * value => ToLower (fst kv)) m (k, v) Hin).
    + apply IH; assumption.
Qed.

Lemma getLower_app m1 m2 q :
  getLower (m1 ++ m2) q =
    match getLower m1 q with
    | Some v => Some v
    | None => getLower m2 q
    end.
Proof.
  induction m1 as [|[k v] m1 IH]; [reflexivity|].
  cbn [app]. rewrite !getLower_cons.
  destruct (String.eqb (ToLower k) q); [reflexivity|exact IH].
Qed.

Lemma getLower_filter (P : string * value -> bool) m q :
  (forall kv, In kv m -> P kv = false -> ToLower (fst kv) <> q) ->
  getLower (List.filter P m) q = getLower m q.
Proof.
  induction m as [|[k v] m IH]; intros H; [reflexivity|].
  cbn [List.filter]. rewrite getLower_cons.
  assert (IH' : getLower (List.filter P m) q = getLower m q).
  { apply IH. intros kv Hin. apply H. right. exact Hin. }
  destruct (P (k, v)) eqn:HP.
  - rewrite getLower_cons. rewrite IH'. reflexivity.
  - destruct (String.eqb_spec (ToLower k) q) as [Heq|_]; [|exact IH'].
    exfalso. exact (H (k, v) (or_introl eq_refl) HP Heq).
Qed.

Lemma map_get_getLower m q :
  Forall (fun kv => ToLower (fst kv) = fst kv) m -> map_get m q = getLower m q.
Proof.
  induction 1 as [|[k v] m Hk _ IH]; [reflexivity|].
  rewrite getLower_cons. cbn [map_get]. simpl in Hk. rewrite Hk.
  destruct (String.eqb k q); [reflexivity|exact IH].
Qed.

Lemma map_set_fresh k v m :
  (forall kv, In kv m -> fst kv <> k) -> map_set k v m = m ++ [(k, v)].
Proof.
  induction m as [|[k' v'] m IH]; intros H; [reflexivity|].
  cbn [map_set app].
  destruct (String.eqb_spec k' k) as [Heq|_].
  - exfalso. exact (H (k', v') (or_introl eq_refl) Heq).
  - rewrite IH; [reflexivity|]. intros kv Hin. apply H. right. exact Hin.
Qed.

(** One turn of the loop keeps the lowered keys distinct and the entry of
    every lowered key. *)
Lemma lowerCaseStep_getLower current k0 :
  List.NoDup (lowerKeys current) ->
  List.NoDup (lowerKeys (lowerCaseStep current k0)) /\
  forall q, getLower (lowerCaseStep current k0) q = getLower current q.
Proof.
  intros Hnd. unfold lowerCaseStep.
  destruct (map_get current k0) as [v|] eqn:Hget; [|split; [exact Hnd|reflexivity]].
  destruct (String.eqb_spec (ToLower k0) k0) as [Hlow|Hup]; cbn [negb].
  - rewrite Hlow, (map_set_same _ _ _ Hget). split; [exact Hnd|reflexivity].
  - pose proof (map_get_In _ _ _ Hget) as Hin.
    set (L := ToLower k0).
    assert (Hfresh : forall kv, In kv (map_delete k0 current) ->
                                ToLower (fst kv) <> L).
    { intros kv Hkv Heq. unfold map_delete in Hkv. apply filter_In in Hkv.
      destruct Hkv as [Hkv Hne].
      assert (kv = (k0, v)).
      { apply (NoDup_map_In_inj (fun kv : string * value => ToLower (fst kv))
                 current); [exact Hnd|exact Hkv|exact Hin|exact Heq]. }
      subst kv. cbn [fst] in Hne. rewrite String.eqb_refl in Hne. discriminate. }
    rewrite map_set_fresh.
    2:{ intros kv Hkv Heq. apply (Hfresh kv Hkv). rewrite Heq.
        apply ToLower_idem. }
    split.
    + unfold lowerKeys. rewrite map_app. cbn [map fst].
      fold L. rewrite (ToLower_idem k0 : ToLower L = L).
      apply NoDup_snoc.
      * apply NoDup_map_filter, Hnd.
      * intros HL. apply in_map_iff in HL. destruct HL as (kv & Heq & Hkv).
        exact (Hfresh kv Hkv Heq).
    + intros q. rewrite getLower_app, getLower_cons.
      rewrite (ToLower_idem k0 : ToLower L = L).
      destruct (String.eqb_spec L q) as [<-|Hq].
      * rewrite (getLower_None _ L Hfresh).
        symmetry. apply getLower_In; assumption.
      * unfold map_delete. rewrite getLower_filter.
        -- unfold getLower at 2. cbn [List.find]. 
           destruct (getLower current q); reflexivity.
        -- intros kv _ HP Heq. apply negb_false_iff, String.eqb_eq in HP.
           apply Hq. rewrite <- Heq, HP. reflexivity.
Qed.

Lemma lowerCaseKeys_getLower todo current :
  List.NoDup (lowerKeys current) ->
  forall q, getLower (fold_left lowerCaseStep todo current) q
            = getLower current q.
Proof.
  revert current. induction todo as [|k todo IH]; intros current Hnd q;
    [reflexivity|].
  cbn [fold_left]. destruct (lowerCaseStep_getLower current k Hnd) as [Hnd' Hq].
  rewrite IH by exact Hnd'. apply Hq.
Qed.

Lemma lowerCaseMap_unfold m :
  lowerCaseMap m
  = lowerCaseKeys (map (fun kv : string * value =>
                          match kv with (k, v') => (k, lowerCaseValue v') end) m).
Proof. reflexivity. Qed.

(** After normalisation a key finds the entry of the input whose key it
    is up to case, when no two keys of the input clash. *)
Lemma lowerCaseMap_map_get m q :
  List.NoDup (lowerKeys m) ->
  map_get (lowerCaseMap m) q = lowerCaseValue <$> getLower m q.
Proof.
  intros Hnd. rewrite lowerCaseMap_unfold.
  set (m1 := map _ m).
  assert (Hkeys : lowerKeys m1 = lowerKeys m).
  { unfold m1, lowerKeys. rewrite map_map. apply map_ext. intros [k v]. reflexivity. }
  rewrite map_get_getLower.
  2:{ pose proof (lowerCaseKeys_lower (fun _ => True) m1) as H.
      eapply List.Forall_impl; [|apply H].
      - intros kv [_ Hk]. exact Hk.
      - apply List.Forall_forall. intros; exact I. }
  unfold lowerCaseKeys. rewrite lowerCaseKeys_getLower by (rewrite Hkeys; exact Hnd).
  unfold m1. clear. induction m as [|[k v] m IH]; [reflexivity|].
  cbn [map]. rewrite !getLower_cons.
  destruct (String.eqb (ToLower k) q); [reflexivity|exact IH].
Qed.

(** X8. When no two keys of a map are equal up to case, a lookup in the
    source built from it finds, under a key in any case, the value the map
    holds for that key: a value that is not a map as it is, and a nested
    map as the source of that map.  A key the map does not hold in any
    case is not found.  Two keys are equal up to case when
    [strings.ToLower], taken to be stable, maps them to the same string. *)
Theorem NewMapSource_Get_roundtrip (m : gomap) :
  List.NoDup (map (fun kv => ToLower (fst kv)) m) ->
  (forall k v k',
      In (k, v) m -> ToLower k' = ToLower k ->
      MapSource_Get (NewMapSource m) [k'] = Ret (lowerCaseValue v, true)) /\
  (forall k m' k' q0 q,
      In (k, VMap m') m -> ToLower k' = ToLower k ->
      MapSource_Get (NewMapSource m) (k' :: q0 :: q)
      = MapSource_Get (NewMapSource m') (q0 :: q)) /\
  (forall k' q,
      (forall kv, In kv m -> ToLower (fst kv) <> ToLower k') ->
      MapSource_Get (NewMapSource m) (k' :: q) = Ret (VNil, false)).
Proof.
  intros Hnd. split; [|split].
  - intros k v k' Hin Hk.
    cbn [MapSource_Get NewMapSource Map MapSource_walk]. unfold map_index.
    rewrite lowerCaseMap_map_get by exact Hnd.
    rewrite Hk, (getLower_In m k v Hnd Hin). reflexivity.
  - intros k m' k' q0 q Hin Hk.
    cbn [MapSource_Get NewMapSource Map MapSource_walk].
    rewrite lowerCaseMap_map_get by exact Hnd.
    rewrite Hk, (getLower_In m k _ Hnd Hin). reflexivity.
  - intros k' q Hmiss.
    cbn [MapSource_Get NewMapSource Map].
    destruct q as [|q0 q]; cbn [MapSource_walk]; unfold map_index;
      rewrite lowerCaseMap_map_get by exact Hnd;
      rewrite (getLower_None m _ Hmiss); reflexivity.
Qed.

(** X9. Two keys that differ only by case end as one entry.  The value
    kept is the one of the key that is not in lower case; when neither is
    in lower case it is the value of the key the loop visits last, so the
    result depends on the order in which the map is iterated.  Case is
    that of [strings.ToLower], taken to be stable. *)
Theorem lowerCaseMap_clash (k1 k2 : string) (v1 v2 : value) :
  k1 <> k2 -> ToLower k1 = ToLower k2 -> ToLower k2 <> k2 ->
  lowerCaseMap [(k1, v1); (k2, v2)] = [(ToLower k2, lowerCaseValue v2)] /\
  lowerCaseMap [(k2, v2); (k1, v1)]
  = [(ToLower k2,
      lowerCaseValue (if String.eqb (ToLower k1) k1 then v2 else v1))].
Proof.
  intros Hne Hlow Hup2.
  assert (E12 : String.eqb k1 k2 = false) by (apply String.eqb_neq, Hne).
  assert (E21 : String.eqb k2 k1 = false)
    by (apply String.eqb_neq; intros H; apply Hne; symmetry; exact H).
  assert (EL2 : String.eqb (ToLower k2) k2 = false) by (apply String.eqb_neq, Hup2).
  assert (E2L : String.eqb k2 (ToLower k2) = false)
    by (apply String.eqb_neq; intros H; apply Hup2; symmetry; exact H).
  rewrite !lowerCaseMap_unfold. unfold lowerCaseKeys. cbn [map fst fold_left].
  destruct (String.eqb_spec (ToLower k1) k1) as [Hlow1|Hup1].
  - (* [k1] is the key in lower case *)
    assert (Hk1 : k1 = ToLower k2) by (rewrite <- Hlow; symmetry; exact Hlow1).
    subst k1. clear Hlow Hlow1.
    unfold lowerCaseStep, map_delete.
    split;
      repeat (cbn [map_get map_set List.filter fst negb];
              rewrite ?String.eqb_refl, ?E12, ?E21, ?EL2, ?E2L, ?ToLower_idem);
      reflexivity.
  - assert (EL1 : String.eqb (ToLower k2) k1 = false)
      by (apply String.eqb_neq; rewrite <- Hlow; exact Hup1).
    assert (E1L : String.eqb k1 (ToLower k2) = false)
      by (apply String.eqb_neq; rewrite <- Hlow; intros H; apply Hup1;
          symmetry; exact H).
    unfold lowerCaseStep, map_delete. rewrite !Hlow.
    split;
      repeat (cbn [map_get map_set List.filter fst negb];
              rewrite ?String.eqb_refl, ?E12, ?E21, ?EL2, ?E2L, ?EL1, ?E1L,
                      ?ToLower_idem);
      reflexivity.
Qed.

End StableLowerCaseMaps.

(** ** NewEnvSource *)

Lemma SplitN2_none sep s : hasByte sep s = false -> SplitN2 sep s = [s].
Proof.
  induction s as [|c s IH]; cbn [hasByte SplitN2]; [reflexivity|].
  intros H. apply orb_false_elim in H. destruct H as [Hc Hs].
  rewrite Hc, (IH Hs). reflexivity.
Qed.

Lemma append_cons c s1 s2 : String c s1 +:+ s2 = String c (s1 +:+ s2).
Proof. reflexivity. Qed.

Lemma SplitN2_first sep name val :
  hasByte sep name = false ->
  SplitN2 sep (name +:+ String sep val) = [name; val].
Proof.
  induction name as [|c name IH].
  - intros _. change ("" +:+ String sep val) with (String sep val).
    cbn [SplitN2]. rewrite Ascii.eqb_refl. reflexivity.
  - cbn [hasByte]. intros H. apply orb_false_elim in H. destruct H as [Hc Hs].
    rewrite append_cons. cbn [SplitN2]. rewrite Hc, (IH Hs). reflexivity.
Qed.

Lemma SplitN2_some sep s :
  hasByte sep s = true -> exists name val, SplitN2 sep s = [name; val].
Proof.
  induction s as [|c s IH]; cbn [hasByte SplitN2]; [discriminate|].
  destruct (Ascii.eqb c sep); [intros _; eexists _, _; reflexivity|].
  cbn [orb]. intros H. destruct (IH H) as (name & val & ->).
  eexists _, _; reflexivity.
Qed.

Lemma Split_cons sep s : exists part rest, Split sep s = part :: rest.
Proof.
  induction s as [|c s IH]; cbn [Split]; [eexists _, _; reflexivity|].
  destruct (Ascii.eqb c sep); [eexists _, _; reflexivity|].
  destruct IH as (part & rest & ->). eexists _, _; reflexivity.
Qed.

Lemma NewEnvSource_loop_app m env1 env2 :
  NewEnvSource_loop m (env1 ++ env2) =
    match NewEnvSource_loop m env1 with
    | Ret (m1, None) => NewEnvSource_loop m1 env2
    | r => r
    end.
Proof.
  revert m. induction env1 as [|e env1 IH]; intros m; [reflexivity|].
  cbn [app NewEnvSource_loop].
  destruct (SplitN2 "=" e) as [|name [|val [|]]]; try reflexivity.
  destruct (Split "_" name) as [|part rest]; [reflexivity|]. apply IH.
Qed.

Lemma NewEnvSource_loop_ok m env :
  Forall (fun e => hasByte "=" e = true) env ->
  exists m', NewEnvSource_loop m env = Ret (m', None).
Proof.
  intros H. revert m. induction H as [|e env He _ IH]; intros m.
  - eexists; reflexivity.
  - cbn [NewEnvSource_loop].
    destruct (SplitN2_some _ _ He) as (name & val & ->).
    destruct (Split_cons "_" name) as (part & rest & ->). apply IH.
Qed.

(** X10. [NewEnvSource] returns a source, and does not panic, when every
    entry holds a [=].  An entry without one makes it return no source and
    an error that names the first such entry, whatever the other entries
    are. *)
Theorem NewEnvSource_parse (pre post : list string) (bad : string) :
  Forall (fun e => hasByte "=" e = true) pre ->
  hasByte "=" bad = false ->
  (exists src, NewEnvSource pre = Ret (Some src, None)) /\
  NewEnvSource (pre ++ bad :: post)
  = Ret (None, Some ("failed to parse variable " +:+ bad)).
Proof.
  intros Hpre Hbad. unfold NewEnvSource.
  destruct (NewEnvSource_loop_ok [] pre Hpre) as [m' Hm'].
  split.
  - rewrite Hm'. eexists; reflexivity.
  - rewrite NewEnvSource_loop_app, Hm'. cbn [NewEnvSource_loop].
    rewrite (SplitN2_none _ _ Hbad). reflexivity.
Qed.

Lemma lowerCaseMap_single k v :
  lowerCaseMap [(k, v)] = [(ToLower k, lowerCaseValue v)].
Proof.
  rewrite lowerCaseMap_unfold. unfold lowerCaseKeys, lowerCaseStep, map_delete.
  cbn [map fst fold_left map_get]. rewrite String.eqb_refl.
  destruct (String.eqb_spec (ToLower k) k) as [Hk|Hk]; cbn [negb].
  - cbn [map_set]. rewrite Hk, String.eqb_refl. reflexivity.
  - cbn [List.filter fst]. rewrite String.eqb_refl. reflexivity.
Qed.

Lemma envInsert_nil part rest val :
  envInsert [] part rest val =
    match rest with
    | [] => [(part, VString val)]
    | part' :: rest' => [(part, VMap (envInsert [] part' rest' val))]
    end.
Proof.
  destruct rest as [|part' rest']; [reflexivity|].
  cbn [envInsert map_get map_set]. rewrite String.eqb_refl. reflexivity.
Qed.

Lemma envInsert_nil_walk val rest :
  forall part,
    MapSource_walk (lowerCaseMap (envInsert [] part rest val)) part rest
    = (VString val, true).
Proof.
  induction rest as [|part' rest IH]; intros part; rewrite envInsert_nil,
    lowerCaseMap_single.
  - cbn [MapSource_walk]. unfold map_index. cbn [map_get].
    rewrite String.eqb_refl. reflexivity.
  - cbn [MapSource_walk map_get]. rewrite String.eqb_refl.
    rewrite lowerCaseValue_VMap. apply IH.
Qed.

(** X11. One variable [NAME=value] gives a source in which the value is
    found, as a string, at the path made of the segments of the name
    between the underscores.  The name ends at the first [=]: the value
    may hold more of them. *)
Theorem NewEnvSource_single (name val : string) :
  hasByte "=" name = false ->
  exists src,
    NewEnvSource [name +:+ String "=" val] = Ret (Some src, None) /\
    MapSource_Get src (Split "_" name) = Ret (VString val, true).
Proof.
  intros Hname. unfold NewEnvSource. cbn [NewEnvSource_loop].
  rewrite (SplitN2_first _ _ val Hname).
  destruct (Split_cons "_" name) as (part & rest & ->).
  eexists. split; [reflexivity|].
  cbn [MapSource_Get NewMapSource Map]. rewrite envInsert_nil_walk. reflexivity.
Qed.

Lemma map_get_map_set k v m k' :
  map_get (map_set k v m) k'
  = if String.eqb k k' then Some v else map_get m k'.
Proof.
  induction m as [|[k0 v0] m IH]; cbn [map_set map_get].
  - reflexivity.
  - destruct (String.eqb_spec k0 k) as [->|Hne]; cbn [map_get].
    + destruct (String.eqb k k'); reflexivity.
    + destruct (String.eqb_spec k0 k') as [->|Hne'].
      * destruct (String.eqb_spec k k') as [->|_]; [contradiction|reflexivity].
      * exact IH.
Qed.

Lemma map_set_map_set k v1 v2 m :
  map_set k v2 (map_set k v1 m) = map_set k v2 m.
Proof.
  induction m as [|[k0 v0] m IH]; cbn [map_set].
  - rewrite String.eqb_refl. reflexivity.
  - destruct (String.eqb_spec k0 k) as [->|Hne]; cbn [map_set].
    + rewrite String.eqb_refl. reflexivity.
    + apply String.eqb_neq in Hne. rewrite Hne, IH. reflexivity.
Qed.

(** A key bound to a leaf stays bound to a leaf. *)
Lemma envInsert_keeps_leaf val rest :
  forall m part p x,
    map_get m p = Some x -> isLeaf x = true ->
    exists y, map_get (envInsert m part rest val) p = Some y /\ isLeaf y = true.
Proof.
  induction rest as [|part' rest IH]; intros m part p x Hget Hleaf.
  - cbn [envInsert]. rewrite map_get_map_set.
    destruct (String.eqb part p); eexists; split; try reflexivity; eassumption.
  - cbn [envInsert].
    set (location1 := match map_get m part with
                      | None => map_set part (VMap []) m
                      | Some _ => m
                      end).
    assert (H1 : map_get location1 p = Some x).
    { unfold location1. destruct (map_get m part) eqn:Hpart; [exact Hget|].
      rewrite map_get_map_set.
      destruct (String.eqb_spec part p) as [->|_]; [congruence|exact Hget]. }
    destruct (map_get location1 part) as [[| | | | | | |next]|] eqn:Hpart;
      try (apply (IH location1 part' p x H1 Hleaf)).
    rewrite map_get_map_set.
    destruct (String.eqb_spec part p) as [->|_].
    + rewrite H1 in Hpart. injection Hpart as ->. discriminate.
    + exists x. split; assumption.
Qed.

Lemma envInsert_overwrite v1 v2 rest :
  forall m part,
    envInsert (envInsert m part rest v1) part rest v2
    = envInsert m part rest v2.
Proof.
  induction rest as [|part' rest IH]; intros m part.
  - cbn [envInsert]. apply map_set_map_set.
  - cbn [envInsert].
    destruct (map_get m part) as [x|] eqn:Hpart.
    + rewrite Hpart.
      destruct (isLeaf x) eqn:Hleaf.
      * (* a conflict: the cursor stays on [m] both times *)
        destruct (envInsert_keeps_leaf v1 rest m part' part x Hpart Hleaf)
          as (y & Hy & Hyleaf).
        replace (match x with
                 | VMap nextLocation =>
                     map_set part (VMap (envInsert nextLocation part' rest v1)) m
                 | _ => envInsert m part' rest v1
                 end) with (envInsert m part' rest v1)
          by (destruct x; try reflexivity; cbn in Hleaf; discriminate Hleaf).
        rewrite Hy. cbv beta iota. rewrite Hy.
        replace (match y with
                 | VMap nextLocation =>
                     map_set part (VMap (envInsert nextLocation part' rest v2))
                             (envInsert m part' rest v1)
                 | _ => envInsert (envInsert m part' rest v1) part' rest v2
                 end) with (envInsert (envInsert m part' rest v1) part' rest v2)
          by (destruct y; try reflexivity; cbn in Hyleaf; discriminate Hyleaf).
        rewrite IH. destruct x; try reflexivity; cbn in Hleaf; discriminate Hleaf.
      * destruct x as [| | | | | | |next]; try (cbn in Hleaf; discriminate Hleaf).
        repeat progress (rewrite ?map_get_map_set, ?String.eqb_refl; cbv beta iota).
        rewrite IH, map_set_map_set. reflexivity.
    +
      repeat progress (rewrite ?map_get_map_set, ?String.eqb_refl; cbv beta iota).
      rewrite IH, !map_set_map_set. reflexivity.
Qed.

(** X12. A name given twice: the later value replaces the earlier one, and
    the source is the one built without the earlier entry. *)
Theorem NewEnvSource_last_wins (env : list string) (name v1 v2 : string) :
  hasByte "=" name = false ->
  NewEnvSource (env ++ [name +:+ String "=" v1; name +:+ String "=" v2])
  = NewEnvSource (env ++ [name +:+ String "=" v2]).
Proof.
  intros Hname. unfold NewEnvSource. rewrite !NewEnvSource_loop_app.
  destruct (NewEnvSource_loop [] env) as [[m [e|]]|msg]; try reflexivity.
  cbn [NewEnvSource_loop]. rewrite !(SplitN2_first _ _ _ Hname).
  destruct (Split_cons "_" name) as (part & rest & ->).
  rewrite envInsert_overwrite. reflexivity.
Qed.

(** ** convertYamlMap *)

Lemma ymap_get_set k v m k' :
  ymap_get (ymap_set k v m) k'
  = if String.eqb k k' then Some v else ymap_get m k'.
Proof.
  induction m as [|[k0 v0] m IH]; cbn [ymap_set ymap_get].
  - reflexivity.
  - destruct (String.eqb_spec k0 k) as [->|Hne]; cbn [ymap_get].
    + destruct (String.eqb k k'); reflexivity.
    + destruct (String.eqb_spec k0 k') as [->|Hne'].
      * destruct (String.eqb_spec k k') as [->|_]; [contradiction|reflexivity].
      * exact IH.
Qed.

Lemma ymap_get_delete k m k' :
  ymap_get (ymap_delete k m) k'
  = if String.eqb k k' then None else ymap_get m k'.
Proof.
  induction m as [|[k0 v0] m IH]; cbn [ymap_delete List.filter ymap_get fst].
  - destruct (String.eqb k k'); reflexivity.
  - fold (ymap_delete k m).
    destruct (String.eqb_spec k0 k) as [->|Hne]; cbn [negb ymap_get].
    + rewrite IH. destruct (String.eqb k k'); reflexivity.
    + rewrite IH. destruct (String.eqb_spec k0 k') as [->|Hne'].
      * destruct (String.eqb_spec k k') as [->|_]; [contradiction|reflexivity].
      * reflexivity.
Qed.

Lemma ymap_set_In k v m kv :
  In kv (ymap_set k v m) -> kv = (k, v) \/ In kv m.
Proof.
  induction m as [|[k0 v0] m IH]; cbn [ymap_set].
  - intros [<-|[]]. left. reflexivity.
  - destruct (String.eqb_spec k0 k) as [->|Hne].
    + intros [<-|Hin]; [left; reflexivity|right; right; exact Hin].
    + intros [<-|Hin]; [right; left; reflexivity|].
      destruct (IH Hin) as [->|Hin']; [left; reflexivity|right; right; exact Hin'].
Qed.

Lemma ymap_delete_In k m kv :
  In kv (ymap_delete k m) -> In kv m /\ fst kv <> k.
Proof.
  unfold ymap_delete. intros H. apply filter_In in H. destruct H as [Hin Hk].
  split; [exact Hin|]. intros Heq. rewrite Heq, String.eqb_refl in Hk.
  discriminate.
Qed.

Lemma plainMap_In m :
  plainMap m = true <-> forall kv, In kv m -> isMapI (snd kv) = false.
Proof.
  unfold plainMap. rewrite forallb_forall. split; intros H kv Hin.
  - apply negb_true_iff, H, Hin.
  - apply negb_true_iff, H, Hin.
Qed.

Lemma ydepth_plain v : isMapI v = false -> ydepth v = 0.
Proof. destruct v; [reflexivity|reflexivity|discriminate|reflexivity]. Qed.

Lemma mdepth_plain m : plainMap m = true -> mdepth m = 0.
Proof.
  induction m as [|[k v] m IH]; [reflexivity|].
  cbn [plainMap forallb snd mdepth fold_right]. intros H.
  apply andb_prop in H. destruct H as [Hv Hm].
  fold (mdepth m). rewrite (IH Hm), ydepth_plain by (apply negb_true_iff, Hv).
  reflexivity.
Qed.

Lemma stringKeyed_plain v : isMapI v = false -> stringKeyed v = true.
Proof. destruct v; [reflexivity|reflexivity|discriminate|reflexivity]. Qed.

Lemma stringKeyedMap_plain m : plainMap m = true -> stringKeyedMap m = true.
Proof.
  unfold plainMap, stringKeyedMap. rewrite !forallb_forall. intros H kv Hin.
  apply stringKeyed_plain, negb_true_iff, H, Hin.
Qed.

Lemma ydepth_MapI vv : ydepth (YMapI vv) = S (vdepth vv).
Proof.
  reflexivity.
Qed.

Lemma stringKeyed_MapI vv :
  stringKeyed (YMapI vv)
  = forallb (fun kv => isStringKey (fst kv) && stringKeyed (snd kv)) vv.
Proof.
  cbn [stringKeyed]. induction vv as [|kv vv IH]; [reflexivity|].
  cbn [forallb]. rewrite IH. reflexivity.
Qed.

Lemma mdepth_set k v m :
  mdepth (ymap_set k v m) <= Nat.max (ydepth v) (mdepth m).
Proof.
  induction m as [|[k0 v0] m IH]; cbn [ymap_set mdepth fold_right snd].
  - lia.
  - fold (mdepth m). destruct (String.eqb k0 k); cbn [mdepth fold_right snd].
    + fold (mdepth m). lia.
    + fold (mdepth (ymap_set k v m)). lia.
Qed.

Lemma stringKeyedMap_set k v m :
  stringKeyed v = true -> stringKeyedMap m = true ->
  stringKeyedMap (ymap_set k v m) = true.
Proof.
  intros Hv. unfold stringKeyedMap. rewrite !forallb_forall. intros Hm kv Hin.
  apply ymap_set_In in Hin. destruct Hin as [->|Hin]; [exact Hv|apply Hm, Hin].
Qed.

Section YamlFacts.

Variable showKey : value -> string.

Lemma stringKeys_inv (sk : bool) vv :
  forall tmp,
    (sk = true -> stringKeyed (YMapI vv) = true /\ stringKeyedMap tmp = true) ->
    match stringKeys showKey vv tmp with
    | Ok tmp' =>
        mdepth tmp' <= Nat.max (mdepth tmp) (vdepth vv) /\
        (sk = true -> stringKeyedMap tmp' = true)
    | Err e => sk = false /\ keyError showKey e
    end.
Proof.
  induction vv as [|[key sv] vv IH]; intros tmp Hsk; cbn [stringKeys].
  - split; [lia|]. intros H. apply (Hsk H).
  - assert (Hbad : isStringKey key = false ->
                   sk = false /\
                   keyError showKey ("map key " +:+ showKey key +:+ " is not a string")).
    { intros Hkey. split; [|exists key; split; [exact Hkey|reflexivity]].
      destruct sk; [|reflexivity]. destruct (Hsk eq_refl) as [H _].
      rewrite stringKeyed_MapI in H. cbn [forallb fst] in H.
      rewrite Hkey in H. discriminate. }
    destruct key as [| | |s| | | |]; try (apply Hbad; reflexivity).
    specialize (IH (ymap_set s sv tmp)).
    destruct (stringKeys showKey vv (ymap_set s sv tmp)) as [tmp'|e].
    + destruct IH as [Hd Hs].
      { intros H. destruct (Hsk H) as [Hvv Htmp].
        rewrite stringKeyed_MapI in Hvv. cbn [forallb fst snd] in Hvv.
        apply andb_prop in Hvv. destruct Hvv as [Hsv Hvv].
        split; [rewrite stringKeyed_MapI; exact Hvv|].
        apply stringKeyedMap_set; [exact Hsv|exact Htmp]. }
      split; [|exact Hs].
      pose proof (mdepth_set s sv tmp). cbn [vdepth fold_right snd].
      fold (vdepth vv). lia.
    + apply IH. intros H. destruct (Hsk H) as [Hvv Htmp].
      rewrite stringKeyed_MapI in Hvv. cbn [forallb fst snd] in Hvv.
      apply andb_prop in Hvv. destruct Hvv as [Hsv Hvv].
      split; [rewrite stringKeyed_MapI; exact Hvv|].
      apply stringKeyedMap_set; [exact Hsv|exact Htmp].
Qed.

Lemma convertLevel_inv (D : nat) (sk : bool) todo :
  forall cur pushed,
    (forall kv, In kv todo -> ydepth (snd kv) <= D) ->
    (sk = true -> forall kv, In kv todo -> stringKeyed (snd kv) = true) ->
    (forall kv, In kv cur -> isMapI (snd kv) = true -> In kv todo) ->
    (forall k, In k pushed -> pushedOk D sk cur k) ->
    match convertLevel showKey todo cur pushed with
    | Ok (cur', pushed') =>
        plainMap cur' = true /\ forall k, In k pushed' -> pushedOk D sk cur' k
    | Err e => sk = false /\ keyError showKey e
    end.
Proof.
  induction todo as [|[k v] todo IH]; intros cur pushed Hd Hsk Hcur Hpushed;
    cbn [convertLevel].
  - split; [|exact Hpushed]. apply plainMap_In. intros kv Hin.
    destruct (isMapI (snd kv)) eqn:Hm; [|reflexivity].
    destruct (Hcur kv Hin Hm).
  - assert (Hskip : isMapI v = false ->
              match convertLevel showKey todo cur pushed with
              | Ok (cur', pushed') =>
                  plainMap cur' = true /\
                  forall k, In k pushed' -> pushedOk D sk cur' k
              | Err e => sk = false /\ keyError showKey e
              end).
    { intros Hv. apply IH.
      - intros kv Hin. apply Hd. right. exact Hin.
      - intros H kv Hin. apply (Hsk H). right. exact Hin.
      - intros kv Hin Hm. destruct (Hcur kv Hin Hm) as [<-|Hin']; [|exact Hin'].
        cbn [snd] in Hm. congruence.
      - exact Hpushed. }
    destruct v as [x|l|vv|ms]; try (apply Hskip; reflexivity).
    pose proof (stringKeys_inv sk vv []) as Hkeys.
    destruct (stringKeys showKey vv []) as [tmp|e].
    + destruct Hkeys as [Hdepth Hstr].
      { intros H. split; [apply (Hsk H (k, YMapI vv)); left; reflexivity|reflexivity]. }
      assert (HD : S (mdepth tmp) <= D).
      { pose proof (Hd (k, YMapI vv) (or_introl eq_refl)) as H.
        cbn [snd] in H. rewrite ydepth_MapI in H.
        change (mdepth []) with 0 in Hdepth. lia. }
      apply IH.
      * intros kv Hin. apply Hd. right. exact Hin.
      * intros H kv Hin. apply (Hsk H). right. exact Hin.
      * intros kv Hin Hm. apply ymap_set_In in Hin.
        destruct Hin as [->|Hin]; [discriminate Hm|].
        apply ymap_delete_In in Hin. destruct Hin as [Hin Hk].
        destruct (Hcur kv Hin Hm) as [<-|Hin']; [|exact Hin'].
        exfalso. apply Hk. reflexivity.
      * intros k' Hin. apply in_app_or in Hin.
        destruct (String.eqb_spec k k') as [<-|Hne].
        -- exists tmp. rewrite ymap_get_set, String.eqb_refl.
           split; [reflexivity|]. split; [exact HD|exact Hstr].
        -- destruct Hin as [Hin|[Heq|[]]]; [|contradiction].
           destruct (Hpushed k' Hin) as (tmp' & Hget & Hrest).
           exists tmp'. rewrite ymap_get_set, ymap_get_delete.
           apply String.eqb_neq in Hne. rewrite Hne. split; assumption.
    + apply Hkeys. intros H.
      split; [apply (Hsk H (k, YMapI vv)); left; reflexivity|reflexivity].
Qed.

Lemma convertYamlMap_loop_S fuel current :
  convertYamlMap_loop showKey (S fuel) current =
    match convertLevel showKey current current [] with
    | Err e => Some (Err e)
    | Ok (current', pushed) => popAll showKey fuel (rev pushed) (Some (Ok current'))
    end.
Proof. reflexivity. Qed.

Lemma popAll_cons fuel k ks acc :
  popAll showKey fuel (k :: ks) acc =
    popAll showKey fuel ks
      match acc with
      | Some (Ok cur) =>
          match ymap_get cur k with
          | Some (YMapS tmp) =>
              match convertYamlMap_loop showKey fuel tmp with
              | Some (Ok tmp') => Some (Ok (ymap_set k (YMapS tmp') cur))
              | Some (Err e) => Some (Err e)
              | None => None
              end
          | _ => Some (Ok cur)
          end
      | r => r
      end.
Proof. reflexivity. Qed.

Lemma popAll_Err fuel ks e : popAll showKey fuel ks (Some (Err e)) = Some (Err e).
Proof. induction ks as [|k ks IH]; [reflexivity|]. rewrite popAll_cons. exact IH. Qed.

Lemma popAll_None fuel ks : popAll showKey fuel ks None = None.
Proof. induction ks as [|k ks IH]; [reflexivity|]. rewrite popAll_cons. exact IH. Qed.

Lemma plainMap_set k tmp cur :
  plainMap cur = true -> plainMap (ymap_set k (YMapS tmp) cur) = true.
Proof.
  rewrite !plainMap_In. intros H kv Hin. apply ymap_set_In in Hin.
  destruct Hin as [->|Hin]; [reflexivity|apply H, Hin].
Qed.

Lemma convertYamlMap_loop_inv n :
  forall (sk : bool) m,
    mdepth m < n ->
    (sk = true -> stringKeyedMap m = true) ->
    exists r, convertYamlMap_loop showKey n m = Some r /\ loopOk showKey sk r.
Proof.
  induction n as [|n IH]; intros sk m Hn Hsk; [lia|].
  rewrite convertYamlMap_loop_S.
  pose proof (convertLevel_inv (mdepth m) sk m m []) as Hlevel.
  destruct (convertLevel showKey m m []) as [[cur pushed]|e].
  2:{ eexists. split; [reflexivity|]. apply Hlevel.
      - intros kv Hin. clear -Hin. induction m as [|kv' m IHm]; [contradiction|].
        cbn [mdepth fold_right]. fold (mdepth m).
        destruct Hin as [->|Hin]; [lia|]. specialize (IHm Hin). lia.
      - intros H kv Hin. specialize (Hsk H). unfold stringKeyedMap in Hsk.
        rewrite forallb_forall in Hsk. apply Hsk, Hin.
      - intros kv Hin _. exact Hin.
      - intros k []. }
  destruct Hlevel as [Hplain Hpushed].
  { intros kv Hin. clear -Hin. induction m as [|kv' m IHm]; [contradiction|].
    cbn [mdepth fold_right]. fold (mdepth m).
    destruct Hin as [->|Hin]; [lia|]. specialize (IHm Hin). lia. }
  { intros H kv Hin. specialize (Hsk H). unfold stringKeyedMap in Hsk.
    rewrite forallb_forall in Hsk. apply Hsk, Hin. }
  { intros kv Hin _. exact Hin. }
  { intros k []. }
  assert (Hks : forall k, In k (rev pushed) -> pushedOk (mdepth m) sk cur k).
  { intros k Hin. apply Hpushed, in_rev, Hin. }
  clear Hpushed. revert cur Hplain Hks.
  generalize (rev pushed) as ks. intros ks.
  induction ks as [|k ks IHks]; intros cur Hplain Hks.
  - eexists. split; [reflexivity|exact Hplain].
  - rewrite popAll_cons.
    destruct (Hks k (or_introl eq_refl)) as (tmp & Hget & Hd & Hstr).
    rewrite Hget.
    destruct (IH sk tmp ltac:(lia) Hstr) as (r & Hr & Hok).
    rewrite Hr. destruct r as [tmp'|e].
    + apply IHks.
      * apply plainMap_set, Hplain.
      * intros k' Hin. destruct (String.eqb_spec k k') as [<-|Hne].
        -- exists tmp'. rewrite ymap_get_set, String.eqb_refl.
           split; [reflexivity|]. cbn [loopOk] in Hok.
           rewrite (mdepth_plain _ Hok). split; [lia|].
           intros _. apply stringKeyedMap_plain, Hok.
        -- destruct (Hks k' (or_intror Hin)) as (tmp2 & Hget2 & Hrest).
           exists tmp2. rewrite ymap_get_set.
           apply String.eqb_neq in Hne. rewrite Hne. split; assumption.
    + rewrite popAll_Err. eexists. split; [reflexivity|exact Hok].
Qed.

Lemma convertYamlMap_loop_total m :
  exists r, convertYamlMap_loop showKey (S (mdepth m)) m = Some r.
Proof.
  destruct (convertYamlMap_loop_inv (S (mdepth m)) false m) as (r & Hr & _);
    [lia|discriminate|]. exists r. exact Hr.
Qed.

End YamlFacts.

Section YamlTheorems.

Variable showKey : value -> string.

Lemma mdepth_In m kv : In kv m -> ydepth (snd kv) <= mdepth m.
Proof.
  induction m as [|kv' m IH]; [contradiction|].
  cbn [mdepth fold_right]. fold (mdepth m).
  intros [->|Hin]; [lia|]. specialize (IH Hin). lia.
Qed.

Lemma convertYamlMap_loopOk m :
  loopOk showKey (stringKeyedMap m) (convertYamlMap showKey m).
Proof.
  unfold convertYamlMap.
  destruct (convertYamlMap_loop_inv showKey (S (mdepth m)) (stringKeyedMap m) m)
    as (r & -> & Hok); [lia|tauto|exact Hok].
Qed.

(** X13. [convertYamlMap] returns a map when every key of every
    interface-keyed map it reaches is a string, and then no value of the
    map is an interface-keyed map any more.  It returns an error only when
    one of those keys is not a string, and the error names such a key. *)
Theorem convertYamlMap_keys (m : ymap) :
  (stringKeyedMap m = true ->
   exists m', convertYamlMap showKey m = Ok m' /\ plainMap m' = true) /\
  (forall e,
      convertYamlMap showKey m = Err e ->
      stringKeyedMap m = false /\
      exists sk, isStringKey sk = false /\
                 e = "map key " +:+ showKey sk +:+ " is not a string").
Proof.
  pose proof (convertYamlMap_loopOk m) as H. split.
  - intros Hsk. rewrite Hsk in H.
    destruct (convertYamlMap showKey m) as [m'|e].
    + exists m'. split; [reflexivity|exact H].
    + destruct H as [H _]. discriminate.
  - intros e He. rewrite He in H. exact H.
Qed.

Lemma convertLevel_plain todo cur pushed :
  (forall kv, In kv todo -> isMapI (snd kv) = false) ->
  convertLevel showKey todo cur pushed = Ok (cur, pushed).
Proof.
  induction todo as [|[k v] todo IH]; intros H; [reflexivity|].
  cbn [convertLevel].
  pose proof (H (k, v) (or_introl eq_refl)) as Hv. cbn [snd] in Hv.
  assert (IH' := IH (fun kv Hin => H kv (or_intror Hin))).
  destruct v; try exact IH'. discriminate.
Qed.

Lemma convertYamlMap_plain m :
  plainMap m = true -> convertYamlMap showKey m = Ok m.
Proof.
  intros H. unfold convertYamlMap. rewrite convertYamlMap_loop_S.
  rewrite convertLevel_plain by (apply plainMap_In, H). reflexivity.
Qed.

(** X14. A map with no interface-keyed map among its values is returned as
    it is: the maps inside of sequences are neither checked nor
    converted.  What [convertYamlMap] returns is such a map, so that
    converting it again changes nothing. *)
Theorem convertYamlMap_idempotent (m m' : ymap) :
  (plainMap m = true -> convertYamlMap showKey m = Ok m) /\
  (convertYamlMap showKey m = Ok m' -> convertYamlMap showKey m' = Ok m').
Proof.
  split; [apply convertYamlMap_plain|].
  intros H. apply convertYamlMap_plain.
  pose proof (convertYamlMap_loopOk m) as Hok. rewrite H in Hok. exact Hok.
Qed.

(** More fuel does not change what a call returns. *)
Lemma popAll_mono n n' ks :
  (forall m r, convertYamlMap_loop showKey n m = Some r ->
               convertYamlMap_loop showKey n' m = Some r) ->
  forall acc r, popAll showKey n ks acc = Some r -> popAll showKey n' ks acc = Some r.
Proof.
  intros Hn. induction ks as [|k ks IH]; intros acc r; [exact (fun H => H)|].
  rewrite !popAll_cons. intros H.
  destruct acc as [[cur|e]|]; [|exact (IH _ _ H)|exact (IH _ _ H)].
  destruct (ymap_get cur k) as [[x|l|vv|tmp]|]; try exact (IH _ _ H).
  destruct (convertYamlMap_loop showKey n tmp) as [r1|] eqn:H1.
  - rewrite (Hn tmp r1 H1). exact (IH _ _ H).
  - rewrite popAll_None in H. discriminate.
Qed.

Lemma convertYamlMap_loop_mono n :
  forall n' m r,
    n <= n' ->
    convertYamlMap_loop showKey n m = Some r ->
    convertYamlMap_loop showKey n' m = Some r.
Proof.
  induction n as [|n IH]; intros n' m r Hle H; [discriminate|].
  destruct n' as [|n']; [lia|].
  rewrite convertYamlMap_loop_S in *.
  destruct (convertLevel showKey m m []) as [[cur pushed]|e]; [|exact H].
  apply (popAll_mono n n'); [|exact H].
  intros m0 r0. apply IH. lia.
Qed.

Lemma convertYamlMap_loop_eq n m r :
  convertYamlMap_loop showKey n m = Some r -> convertYamlMap showKey m = r.
Proof.
  intros H. unfold convertYamlMap.
  destruct (convertYamlMap_loop_total showKey m) as [r0 H0]. rewrite H0.
  assert (H1 := convertYamlMap_loop_mono n (Nat.max n (S (mdepth m))) m r
                  (Nat.le_max_l _ _) H).
  assert (H2 := convertYamlMap_loop_mono (S (mdepth m))
                  (Nat.max n (S (mdepth m))) m r0 (Nat.le_max_r _ _) H0).
  congruence.
Qed.

Lemma ymap_get_NoDup m k v :
  List.NoDup (map fst m) -> In (k, v) m -> ymap_get m k = Some v.
Proof.
  induction m as [|[k0 v0] m IH]; [contradiction|].
  cbn [map fst ymap_get]. intros Hnd Hin.
  inversion Hnd as [|? ? Hnotin Hnd']; subst.
  destruct Hin as [[= -> ->]|Hin]; [rewrite String.eqb_refl; reflexivity|].
  destruct (String.eqb_spec k0 k) as [->|_]; [|apply IH; assumption].
  exfalso. apply Hnotin. apply (in_map fst m (k, v) Hin).
Qed.

Lemma ymap_get_Some_In m k v : ymap_get m k = Some v -> In (k, v) m.
Proof.
  induction m as [|[k0 v0] m IH]; [discriminate|]. cbn [ymap_get].
  destruct (String.eqb_spec k0 k) as [->|_].
  - intros [= ->]. left. reflexivity.
  - intros H. right. apply IH, H.
Qed.

Lemma ymap_get_None_In m k : ~ In k (map fst m) -> ymap_get m k = None.
Proof.
  induction m as [|[k0 v0] m IH]; [reflexivity|]. cbn [map fst ymap_get].
  intros H. destruct (String.eqb_spec k0 k) as [->|_].
  - exfalso. apply H. left. reflexivity.
  - apply IH. intros Hin. apply H. right. exact Hin.
Qed.

(** The keys of the interface-keyed maps among the values of a map. *)
Lemma convertLevel_lookup todo :
  forall cur pushed cur' pushed',
    List.NoDup (map fst todo) ->
    convertLevel showKey todo cur pushed = Ok (cur', pushed') ->
    pushed' = pushed ++ map fst (List.filter (fun kv => isMapI (snd kv)) todo) /\
    forall k,
      match ymap_get todo k with
      | Some (YMapI vv) =>
          exists tmp, stringKeys showKey vv [] = Ok tmp /\
                      ymap_get cur' k = Some (YMapS tmp)
      | _ => ymap_get cur' k = ymap_get cur k
      end.
Proof.
  induction todo as [|[k0 v0] todo IH]; intros cur pushed cur' pushed' Hnd H.
  - cbn in H. injection H as <- <-. split; [rewrite app_nil_r; reflexivity|].
    intros k. reflexivity.
  - cbn [map fst] in Hnd. inversion Hnd as [|? ? Hnotin Hnd']; subst.
    cbn [convertLevel] in H.
    assert (Hskip : isMapI v0 = false ->
              convertLevel showKey todo cur pushed = Ok (cur', pushed') ->
              pushed' = pushed ++ map fst (List.filter (fun kv => isMapI (snd kv))
                                                       ((k0, v0) :: todo)) /\
              forall k,
                match ymap_get ((k0, v0) :: todo) k with
                | Some (YMapI vv) =>
                    exists tmp, stringKeys showKey vv [] = Ok tmp /\
                                ymap_get cur' k = Some (YMapS tmp)
                | _ => ymap_get cur' k = ymap_get cur k
                end).
    { intros Hv H'. destruct (IH _ _ _ _ Hnd' H') as [Hp Hl].
      cbn [List.filter snd]. rewrite Hv. split; [exact Hp|].
      intros k. cbn [ymap_get]. specialize (Hl k).
      destruct (String.eqb_spec k0 k) as [<-|_]; [|exact Hl].
      rewrite (ymap_get_None_In _ _ Hnotin) in Hl.
      destruct v0; try exact Hl. discriminate. }
    destruct v0 as [x|l|vv|ms]; try (apply Hskip; [reflexivity|exact H]).
    destruct (stringKeys showKey vv []) as [tmp|e] eqn:Hkeys; [|discriminate].
    destruct (IH _ _ _ _ Hnd' H) as [Hp Hl].
    cbn [List.filter snd isMapI map fst]. split.
    + rewrite Hp, <- app_assoc. reflexivity.
    + intros k. cbn [ymap_get]. specialize (Hl k).
      destruct (String.eqb_spec k0 k) as [<-|Hne].
      * rewrite (ymap_get_None_In _ _ Hnotin) in Hl.
        exists tmp. split; [exact Hkeys|].
        rewrite Hl, ymap_get_set, String.eqb_refl. reflexivity.
      * apply String.eqb_neq in Hne.
        destruct (ymap_get todo k) as [[x|l|vv'|ms]|];
          try (rewrite Hl, ymap_get_set, ymap_get_delete, Hne; reflexivity).
        exact Hl.
Qed.

Lemma popAll_lookup n ks :
  forall cur m',
    List.NoDup ks ->
    popAll showKey n ks (Some (Ok cur)) = Some (Ok m') ->
    forall k,
      (In k ks ->
       match ymap_get cur k with
       | Some (YMapS tmp) =>
           exists tmp', convertYamlMap_loop showKey n tmp = Some (Ok tmp') /\
                        ymap_get m' k = Some (YMapS tmp')
       | _ => ymap_get m' k = ymap_get cur k
       end) /\
      (~ In k ks -> ymap_get m' k = ymap_get cur k).
Proof.
  induction ks as [|k0 ks IH]; intros cur m' Hnd H k.
  - cbn in H. injection H as <-. split; [intros []|reflexivity].
  - inversion Hnd as [|? ? Hnotin Hnd']; subst.
    rewrite popAll_cons in H.
    assert (Hsame : popAll showKey n ks (Some (Ok cur)) = Some (Ok m') ->
              (forall tmp, ymap_get cur k0 <> Some (YMapS tmp)) ->
              (In k (k0 :: ks) ->
               match ymap_get cur k with
               | Some (YMapS tmp) =>
                   exists tmp', convertYamlMap_loop showKey n tmp = Some (Ok tmp') /\
                                ymap_get m' k = Some (YMapS tmp')
               | _ => ymap_get m' k = ymap_get cur k
               end) /\
              (~ In k (k0 :: ks) -> ymap_get m' k = ymap_get cur k)).
    { intros H' Hno. destruct (IH cur m' Hnd' H' k) as [Hin Hout]. split.
      - intros [<-|Hk]; [|exact (Hin Hk)].
        rewrite (Hout Hnotin).
        destruct (ymap_get cur k0) as [[x|l|vv|tmp]|]; try reflexivity.
        destruct (Hno tmp eq_refl).
      - intros Hk. apply Hout. intros Hk'. apply Hk. right. exact Hk'. }
    destruct (ymap_get cur k0) as [[x|l|vv|tmp]|] eqn:Hget0;
      try (apply Hsame; [exact H|intros tmp0; discriminate]).
    destruct (convertYamlMap_loop showKey n tmp) as [[tmp'|e]|] eqn:Hloop.
    + destruct (IH _ m' Hnd' H k) as [Hin Hout]. split.
      * intros [<-|Hk].
        -- rewrite Hget0. exists tmp'. split; [exact Hloop|].
           rewrite (Hout Hnotin), ymap_get_set, String.eqb_refl. reflexivity.
        -- specialize (Hin Hk). rewrite ymap_get_set in Hin.
           destruct (String.eqb_spec k0 k) as [<-|_]; [contradiction|exact Hin].
      * intros Hk. rewrite (Hout (fun Hk' => Hk (or_intror Hk'))).
        rewrite ymap_get_set.
        destruct (String.eqb_spec k0 k) as [<-|_]; [|reflexivity].
        exfalso. apply Hk. left. reflexivity.
    + rewrite popAll_Err in H. discriminate.
    + rewrite popAll_None in H. discriminate.
Qed.

Lemma NoDup_map_fst_filter (P : string * yvalue -> bool) (m : ymap) :
  List.NoDup (map fst m) -> List.NoDup (map fst (List.filter P m)).
Proof.
  induction m as [|a l IH]; [intros; constructor|].
  cbn [map List.filter]. intros Hnd. inversion Hnd as [|? ? Hnotin Hnd']; subst.
  destruct (P a); [|apply IH, Hnd'].
  cbn [map]. constructor; [|apply IH, Hnd'].
  intros Hin. apply Hnotin. apply in_map_iff in Hin.
  destruct Hin as (x & Hfx & Hx). apply filter_In in Hx.
  rewrite <- Hfx. apply in_map, Hx.
Qed.

(** X15. On a map with distinct keys every entry stays under its key.  A
    value that is not an interface-keyed map is kept as it is; an
    interface-keyed map is replaced by the conversion of the string-keyed
    map made of its entries. *)
Theorem convertYamlMap_entries (m m' : ymap) :
  List.NoDup (map fst m) ->
  convertYamlMap showKey m = Ok m' ->
  forall k,
    match ymap_get m k with
    | Some (YMapI vv) =>
        exists tmp tmp',
          stringKeys showKey vv [] = Ok tmp /\
          convertYamlMap showKey tmp = Ok tmp' /\
          ymap_get m' k = Some (YMapS tmp')
    | other => ymap_get m' k = other
    end.
Proof.
  intros Hnd H k. unfold convertYamlMap in H.
  destruct (convertYamlMap_loop_total showKey m) as [r Hr]. rewrite Hr in H.
  subst r. rewrite convertYamlMap_loop_S in Hr.
  destruct (convertLevel showKey m m []) as [[cur pushed]|e] eqn:Hlevel;
    [|discriminate].
  destruct (convertLevel_lookup _ _ _ _ _ Hnd Hlevel) as [Hpushed Hcur].
  cbn [app] in Hpushed.
  assert (Hndp : List.NoDup (rev pushed)).
  { rewrite Hpushed. apply NoDup_rev. apply NoDup_map_fst_filter, Hnd. }
  destruct (popAll_lookup _ _ _ _ Hndp Hr k) as [Hin Hout].
  specialize (Hcur k).
  destruct (ymap_get m k) as [v|] eqn:Hget.
  - destruct (isMapI v) eqn:Hv.
    + destruct v as [x|l|vv|ms]; try discriminate.
      destruct Hcur as (tmp & Hkeys & Hgetc).
      assert (Hk : In k (rev pushed)).
      { rewrite <- in_rev, Hpushed.
        apply (in_map fst _ (k, YMapI vv)). apply filter_In.
        split; [apply ymap_get_Some_In, Hget|reflexivity]. }
      specialize (Hin Hk). rewrite Hgetc in Hin.
      destruct Hin as (tmp' & Hloop & Hget').
      exists tmp, tmp'. split; [exact Hkeys|].
      split; [exact (convertYamlMap_loop_eq _ _ _ Hloop)|exact Hget'].
    + assert (Hk : ~ In k (rev pushed)).
      { rewrite <- in_rev, Hpushed. intros Hk. apply in_map_iff in Hk.
        destruct Hk as ([k1 v1] & Hk1 & Hf). cbn [fst] in Hk1. subst k1.
        apply filter_In in Hf. destruct Hf as [Hf Hm]. cbn [snd] in Hm.
        rewrite (ymap_get_NoDup _ _ _ Hnd Hf) in Hget. injection Hget as ->.
        congruence. }
      rewrite (Hout Hk).
      destruct v; try exact Hcur. discriminate.
  - assert (Hk : ~ In k (rev pushed)).
    { rewrite <- in_rev, Hpushed. intros Hk. apply in_map_iff in Hk.
      destruct Hk as ([k1 v1] & Hk1 & Hf). cbn [fst] in Hk1. subst k1.
      apply filter_In in Hf. destruct Hf as [Hf _].
      rewrite (ymap_get_NoDup _ _ _ Hnd Hf) in Hget. discriminate. }
    rewrite (Hout Hk). exact Hcur.
Qed.

End YamlTheorems.

(** ** Settings: constructors, nil pointers, aliases *)

(** X16. A setting made by a constructor holds the fallback, under the
    name and the description given, in a variable of its own: the
    variables that existed keep their values when the setting is made and
    when it is set. *)
Theorem NewSetting_independent (k : SettingKind) (name description : string)
  (fallback : value) (st : store) :
  let st1 := fst (NewSetting k name description fallback st) in
  let s := snd (NewSetting k name description fallback st) in
  Setting_Name s = name /\
  Setting_Description s = description /\
  Variant s = k /\
  Setting_Value st1 s = Ret fallback /\
  (forall s0, is_Some (st !! ValuePtr s0) ->
     Setting_Value st1 s0 = Setting_Value st s0) /\
  (forall cast v st2 e s0,
     SetValue cast st1 s v = Ret (st2, e) ->
     is_Some (st !! ValuePtr s0) ->
     Setting_Value st2 s0 = Setting_Value st s0).
Proof.
  cbn [NewSetting fst snd].
  set (p := fresh (dom st)).
  assert (Hp : st !! p = None) by (apply not_elem_of_dom, is_fresh).
  assert (Hne : forall s0, is_Some (st !! ValuePtr s0) -> ValuePtr s0 <> p).
  { intros s0 [x Hx] Heq. rewrite Heq, Hp in Hx. discriminate. }
  repeat split.
  - unfold Setting_Value. cbn [ValuePtr]. rewrite lookup_insert_eq. reflexivity.
  - intros s0 Hs0. unfold Setting_Value.
    rewrite lookup_insert_ne by (intros Heq; apply (Hne s0 Hs0); symmetry; exact Heq).
    reflexivity.
  - intros cast v st2 e s0 Hset Hs0. unfold Setting_Value.
    rewrite (SetValue_frame cast _ _ _ _ _ (ValuePtr s0) Hset)
      by (cbn [ValuePtr]; apply (Hne s0 Hs0)).
    rewrite lookup_insert_ne by (intros Heq; apply (Hne s0 Hs0); symmetry; exact Heq).
    reflexivity.
Qed.

Lemma SetValue_nil cast (st : store) (s : Setting) (v : value) :
  st !! ValuePtr s = None ->
  if interimFails cast (Variant s) v
  then exists e, SetValue cast st s v = Ret (st, Some e)
  else exists msg, SetValue cast st s v = Panic msg.
Proof.
  intros Hnil. unfold interimFails, SetValue, assign.
  destruct (interimStep (Variant s)) as [word|].
  - destruct (cast ToStringSliceE v) as [tmp [e|]]; cbn [snd].
    + rewrite bool_decide_true by discriminate. eexists; reflexivity.
    + rewrite bool_decide_false by (intros H; apply H; reflexivity).
      destruct (cast (castOf (Variant s)) tmp) as [x err'].
      rewrite Hnil. eexists; reflexivity.
  - destruct (cast (castOf (Variant s)) v) as [x err].
    rewrite Hnil. eexists; reflexivity.
Qed.

(** X17. A setting whose value pointer is nil, as in a literal that leaves
    the value field out, panics on [Value] and on [SetValue].  The three
    variants that first cast to a string slice return the error of that
    step instead when it fails, since they return before the pointer is
    used. *)
Theorem SetValue_nil_pointer (cast : CastFn -> value -> value * error)
  (st : store) (s : Setting) (v : value) :
  st !! ValuePtr s = None ->
  (exists msg, Setting_Value st s = Panic msg) /\
  if interimFails cast (Variant s) v
  then exists e, SetValue cast st s v = Ret (st, Some e)
  else exists msg, SetValue cast st s v = Panic msg.
Proof.
  intros Hnil. split.
  - unfold Setting_Value. rewrite Hnil. eexists; reflexivity.
  - apply SetValue_nil, Hnil.
Qed.

(** X18. After a [SetValue] that got past the interim step, [Value]
    returns what the cast returned and the error is the one of the cast.
    Every setting with the same value pointer shows the new value, every
    other setting keeps its own, and the same [SetValue] once more changes
    nothing. *)
Theorem SetValue_then_Value (cast : CastFn -> value -> value * error)
  (st st' : store) (s : Setting) (v : value) (e : error) :
  SetValue cast st s v = Ret (st', e) ->
  interimFails cast (Variant s) v = false ->
  Setting_Value st' s = Ret (fst (finalCast cast (Variant s) v)) /\
  e = snd (finalCast cast (Variant s) v) /\
  (forall s2, ValuePtr s2 = ValuePtr s ->
     Setting_Value st' s2 = Setting_Value st' s) /\
  (forall s2, ValuePtr s2 <> ValuePtr s ->
     Setting_Value st' s2 = Setting_Value st s2) /\
  SetValue cast st' s v = Ret (st', e).
Proof.
  intros Hset Hinterim.
  destruct (st !! ValuePtr s) as [x0|] eqn:Hlive.
  2:{ pose proof (SetValue_nil cast st s v Hlive) as H.
      rewrite Hinterim in H. destruct H as [msg H]. congruence. }
  rewrite (SetValue_live cast st s v x0 Hlive), Hinterim in Hset.
  injection Hset as <- <-.
  split; [|split; [reflexivity|split; [|split]]].
  - unfold Setting_Value. rewrite lookup_insert_eq. reflexivity.
  - intros s2 Heq. unfold Setting_Value. rewrite Heq. reflexivity.
  - intros s2 Hne. unfold Setting_Value. rewrite lookup_insert_ne by congruence.
    reflexivity.
  - rewrite (SetValue_live cast _ s v (fst (finalCast cast (Variant s) v)))
      by apply lookup_insert_eq.
    rewrite Hinterim, insert_insert_eq. reflexivity.
Qed.

(** ** LoadGroups: order, errors, footprint *)

Lemma visits_forest_app ancestors l1 l2 :
  visits_forest ancestors (l1 ++ l2)
  = visits_forest ancestors l2 ++ visits_forest ancestors l1.
Proof.
  induction l1 as [|g l1 IH]; cbn [app].
  - cbn [visits_forest]. rewrite app_nil_r. reflexivity.
  - rewrite !visits_forest_cons, IH, app_assoc. reflexivity.
Qed.

Lemma LoadVisits_app cast s vs1 vs2 st :
  LoadVisits cast s (vs1 ++ vs2) st =
    match LoadVisits cast s vs1 st with
    | Ret (st1, None) => LoadVisits cast s vs2 st1
    | r => r
    end.
Proof.
  revert st. induction vs1 as [|[path g] vs1 IH]; intros st; [reflexivity|].
  cbn [app]. rewrite !LoadVisits_cons.
  destruct (LoadAt cast s path (Group_Settings g) st) as [[st1 [e|]]|msg];
    try reflexivity.
  apply IH.
Qed.

(** X19. [LoadGroups] takes the groups it is given from the last to the
    first: loading a list is loading its second part and then, when that
    raised no error, its first part from the store the second part left.
    An error or a panic in the later groups ends the call before the
    earlier ones are touched. *)
Theorem LoadGroups_app (cast : CastFn -> value -> value * error) (s : Source)
  (gs1 gs2 : list Group) (st : store) :
  LoadGroups cast s (gs1 ++ gs2) st =
    match LoadGroups cast s gs2 st with
    | Ret (st1, None) => LoadGroups cast s gs1 st1
    | r => r
    end.
Proof.
  rewrite !LoadGroups_visits, visits_forest_app, LoadVisits_app.
  destruct (LoadVisits cast s (visits_forest [] gs2) st) as [[st1 [e|]]|msg];
    try reflexivity.
  rewrite LoadGroups_visits. reflexivity.
Qed.

Lemma LoadAt_prefix cast s n prefix settings st :
  LoadAt cast s (n :: prefix) settings st
  = LoadAt cast (PrefixSource_Source {| PSource := s; Prefix := [n] |})
           prefix settings st.
Proof.
  revert st. induction settings as [|x settings IH]; intros st; [reflexivity|].
  cbn [LoadAt]. rewrite Get_PrefixSource, PrefixSource_Get_app.
  cbn [PSource Prefix app].
  destruct (Get s (n :: prefix ++ [Setting_Name x])) as [[v [|]]|msg];
    cbn; try reflexivity.
  - destruct (SetValue cast st x v) as [[st1 [e|]]|msg]; cbn; try reflexivity.
    apply IH.
  - apply IH.
Qed.

Lemma LoadVisits_prefix cast s n vs st :
  LoadVisits cast s (map (fun pg : list string * Group => (n :: fst pg, snd pg)) vs) st
  = LoadVisits cast (PrefixSource_Source {| PSource := s; Prefix := [n] |}) vs st.
Proof.
  revert st. induction vs as [|[path g] vs IH]; intros st; [reflexivity|].
  cbn [map fst snd]. rewrite !LoadVisits_cons, LoadAt_prefix.
  destruct (LoadAt _ _ path (Group_Settings g) st) as [[st1 [e|]]|msg];
    try reflexivity.
  apply IH.
Qed.

Lemma visits_forest_shift k n :
  forall ancestors groups,
    Groups_count groups <= k ->
    visits_forest (n :: ancestors) groups
    = map (fun pg : list string * Group => (n :: fst pg, snd pg))
          (visits_forest ancestors groups).
Proof.
  induction k as [|k IH]; intros ancestors [|g groups] Hk; try reflexivity.
  - rewrite Groups_count_cons, Group_count_unfold in Hk. lia.
  - rewrite Groups_count_cons, Group_count_unfold in Hk.
    rewrite !visits_forest_cons, map_app. cbn [map fst snd].
    rewrite (IH ancestors groups) by lia.
    change ((n :: ancestors) ++ [Group_Name g])
      with (n :: (ancestors ++ [Group_Name g])).
    rewrite (IH (ancestors ++ [Group_Name g]) (Group_Groups g)) by lia.
    reflexivity.
Qed.


Lemma LoadAt_error cast s prefix settings st st' e :
  LoadAt cast s prefix settings st = Ret (st', Some e) ->
  exists x msg v st0,
    In x settings /\
    Get s (prefix ++ [Setting_Name x]) = Ret (v, true) /\
    SetValue cast st0 x v = Ret (st', Some msg) /\
    e = "failed to load setting " +:+ Setting_Name x +:+ " due to: " +:+ msg.
Proof.
  revert st. induction settings as [|x settings IH]; intros st; [discriminate|].
  cbn [LoadAt].
  destruct (Get s (prefix ++ [Setting_Name x])) as [[v [|]]|msg] eqn:Hget;
    cbn; try discriminate.
  - destruct (SetValue cast st x v) as [[st1 [e1|]]|msg] eqn:Hset; cbn;
      try discriminate.
    + intros [= <- <-]. exists x, e1, v, st.
      split; [left; reflexivity|]. repeat split; assumption.
    + intros H. destruct (IH _ H) as (x' & msg & v' & st0 & Hin & Hrest).
      exists x', msg, v', st0. split; [right; exact Hin|exact Hrest].
  - intros H. destruct (IH _ H) as (x' & msg & v' & st0 & Hin & Hrest).
    exists x', msg, v', st0. split; [right; exact Hin|exact Hrest].
Qed.

Lemma LoadVisits_error cast s vs st st' e :
  LoadVisits cast s vs st = Ret (st', Some e) ->
  exists path g x msg v st0,
    In (path, g) vs /\ In x (Group_Settings g) /\
    Get s (path ++ [Setting_Name x]) = Ret (v, true) /\
    SetValue cast st0 x v = Ret (st', Some msg) /\
    e = "failed to load group " +:+ Group_Name g +:+ " due to: "
        +:+ "failed to load setting " +:+ Setting_Name x +:+ " due to: " +:+ msg.
Proof.
  revert st. induction vs as [|[path g] vs IH]; intros st; [discriminate|].
  rewrite LoadVisits_cons.
  destruct (LoadAt cast s path (Group_Settings g) st) as [[st1 [e1|]]|msg] eqn:Hg;
    try discriminate.
  - intros [= <- <-].
    destruct (LoadAt_error _ _ _ _ _ _ _ Hg) as (x & msg & v & st0 & Hin & Hget & Hset & ->).
    exists path, g, x, msg, v, st0.
    split; [left; reflexivity|]. repeat split; assumption.
  - intros H.
    destruct (IH _ H) as (path' & g' & x & msg & v & st0 & Hin & Hrest).
    exists path', g', x, msg, v, st0. split; [right; exact Hin|exact Hrest].
Qed.


Lemma SetValue_returns cast st s v :
  is_Some (st !! ValuePtr s) ->
  exists st' e, SetValue cast st s v = Ret (st', e) /\ dom st' = dom st.
Proof.
  intros [x0 Hlive]. rewrite (SetValue_live cast st s v x0 Hlive).
  destruct (interimFails cast (Variant s) v).
  - eexists _, _. split; reflexivity.
  - eexists _, _. split; [reflexivity|].
    apply dom_insert_lookup_L. eexists; exact Hlive.
Qed.

Lemma LoadAt_returns cast s prefix settings st :
  (forall path, path <> [] -> exists r, Get s path = Ret r) ->
  (forall x, In x settings -> is_Some (st !! ValuePtr x)) ->
  exists st' e, LoadAt cast s prefix settings st = Ret (st', e) /\ dom st' = dom st.
Proof.
  intros Hs. revert st. induction settings as [|x settings IH]; intros st Hlive.
  - eexists _, _. split; reflexivity.
  - cbn [LoadAt].
    destruct (Hs (prefix ++ [Setting_Name x])) as [[v found] ->].
    { destruct prefix; discriminate. }
    cbn. destruct found.
    + destruct (SetValue_returns cast st x v (Hlive x (or_introl eq_refl)))
        as (st1 & e1 & -> & Hdom).
      cbn. destruct e1 as [e1|].
      * eexists _, _. split; [reflexivity|exact Hdom].
      * destruct (IH st1) as (st' & e & -> & Hdom').
        { intros y Hy. apply elem_of_dom. rewrite Hdom. apply elem_of_dom.
          apply Hlive. right. exact Hy. }
        eexists _, _. split; [reflexivity|congruence].
    + apply IH. intros y Hy. apply Hlive. right. exact Hy.
Qed.

Lemma LoadVisits_returns cast s vs st :
  (forall path, path <> [] -> exists r, Get s path = Ret r) ->
  (forall path g x, In (path, g) vs -> In x (Group_Settings g) ->
                    is_Some (st !! ValuePtr x)) ->
  exists st' e, LoadVisits cast s vs st = Ret (st', e) /\ dom st' = dom st.
Proof.
  intros Hs. revert st. induction vs as [|[path g] vs IH]; intros st Hlive.
  - eexists _, _. split; reflexivity.
  - rewrite LoadVisits_cons.
    destruct (LoadAt_returns cast s path (Group_Settings g) st Hs)
      as (st1 & e1 & -> & Hdom).
    { intros x Hx. apply (Hlive path g x); [left; reflexivity|exact Hx]. }
    destruct e1 as [e1|].
    + eexists _, _. split; [reflexivity|exact Hdom].
    + destruct (IH st1) as (st' & e & -> & Hdom').
      { intros p' g' x Hin Hx. apply elem_of_dom. rewrite Hdom. apply elem_of_dom.
        apply (Hlive p' g' x); [right; exact Hin|exact Hx]. }
      eexists _, _. split; [reflexivity|congruence].
Qed.

(** X22. [LoadGroups] returns, without a panic, when the source returns on
    every path that is not empty and the value pointer of every setting of
    the forest is set.  It allocates and frees nothing, and it leaves every
    variable alone that no setting of the forest points to. *)
Theorem LoadGroups_footprint (cast : CastFn -> value -> value * error)
  (s : Source) (groups : list Group) (st : store) :
  (forall path, path <> [] -> exists r, Get s path = Ret r) ->
  (forall l, In l (Groups_ptrs groups) -> is_Some (st !! l)) ->
  exists st' e,
    LoadGroups cast s groups st = Ret (st', e) /\
    dom st' = dom st /\
    forall l, ~ In l (Groups_ptrs groups) -> st' !! l = st !! l.
Proof.
  intros Hs Hlive.
  destruct (LoadVisits_returns cast s (visits_forest [] groups) st Hs)
    as (st' & e & Hload & Hdom).
  { intros path g x Hin Hx. apply Hlive.
    apply (reaches_ptrs groups path g); [apply visits_forest_reaches, Hin|].
    apply in_map, Hx. }
  rewrite <- LoadGroups_visits in Hload.
  exists st', e. split; [exact Hload|]. split; [exact Hdom|].
  intros l Hl. apply (LoadGroups_frame cast s groups st st' e l Hload Hl).
Qed.

(** ** Convert: the values and fields it refuses *)

(** X23. [Convert] on what is not a pointer to a struct: the nil interface
    is an error; a nil pointer panics, in [Type] on the zero value
    [Indirect] returns for it; a struct passed by value is an error, as it
    cannot be addressed; a pointer to a pointer, and a value or a pointer
    to a value of a kind other than struct, are errors that name the
    type. *)
Theorem Convert_not_struct_pointer :
  Convert None = Ret (Err "nil value given to Convert") /\
  (forall tp p, exists msg, Convert (Some (GPtr tp p None)) = Panic msg) /\
  (forall t p n d fields,
      Convert (Some (GStruct t p n d fields))
      = Ret (Err ("unaddressable value " +:+ tString t +:+ " given to Convert"))) /\
  (forall tp p t' p' target,
      Convert (Some (GPtr tp p (Some (GPtr t' p' target))))
      = Ret (Err ("non-struct value " +:+ tString t' +:+ " given to Convert"))) /\
  (forall t p tp p0,
      tKind t <> KStruct ->
      Convert (Some (GLeaf t p))
      = Ret (Err ("non-struct value " +:+ tString t +:+ " given to Convert")) /\
      Convert (Some (GPtr tp p0 (Some (GLeaf t p))))
      = Ret (Err ("non-struct value " +:+ tString t +:+ " given to Convert"))).
Proof.
  split; [reflexivity|]. split; [intros; eexists; reflexivity|].
  split; [reflexivity|]. split; [reflexivity|].
  intros t p tp p0 Hk.
  split; rewrite Convert_eq; unfold Convert_start;
    cbn [ValueOf Indirect rv rType gtype rKind mret outcome_ret];
    rewrite bool_decide_false by exact Hk; reflexivity.
Qed.

Lemma newSettingAt_Ok_flags k name description v set :
  newSettingAt k name description v = Ret (Ok set) ->
  set = mkSetting k (mkBaseSetting name description) (ValuePtr set) /\
  rAddr v = Ret (ValuePtr set) /\
  flagRO v = NotRO /\
  exists t, rType v = Ret t /\ tString t = valueType k.
Proof.
  unfold newSettingAt.
  destruct (rType v) as [t|msg]; [|discriminate]. cbn.
  destruct (rAddr v) as [p|msg]; [|discriminate]. cbn.
  destruct (flagRO v); try discriminate.
  destruct (String.eqb_spec (tString t) (valueType k)); [|discriminate].
  intros [= <-]. repeat split. exists t. split; [reflexivity|assumption].
Qed.

Lemma settingFromValue_Ok_variant name description v set :
  settingFromValue name description v = Ret (Ok set) ->
  newSettingAt (Variant set) name description v = Ret (Ok set) /\
  Variant set <> BoolSliceSetting.
Proof.
  unfold settingFromValue.
  destruct (rType v) as [t|msg]; [|discriminate]. cbn.
  intros H.
  assert (Hk : exists k, newSettingAt k name description v = Ret (Ok set)
                         /\ k <> BoolSliceSetting).
  { repeat case_match; try discriminate;
      (eexists; split; [eassumption|discriminate]). }
  destruct Hk as (k & Hk & Hne).
  pose proof (newSettingAt_Ok k _ _ _ _ Hk) as [Hset _].
  assert (Variant set = k) by (rewrite Hset; reflexivity).
  subst k. split; assumption.
Qed.

(** X24. A setting [settingFromValue] returns is an alias of the variable
    it was made from: its value pointer is the address of the variable,
    whose type is the type the variant stores, and it carries the name and
    the description given.  The variable is addressable and was not
    reached through an unexported field.  The setting is never a
    [BoolSliceSetting], the one variant of setting.go for which the
    converter has no case. *)
Theorem settingFromValue_alias (name description : string) (v : rvalue)
  (set : Setting) :
  settingFromValue name description v = Ret (Ok set) ->
  Setting_Name set = name /\
  Setting_Description set = description /\
  rAddr v = Ret (ValuePtr set) /\
  CanAddr v = true /\
  flagRO v = NotRO /\
  (exists t, rType v = Ret t /\ tString t = valueType (Variant set)) /\
  Variant set <> BoolSliceSetting.
Proof.
  intros H. apply settingFromValue_Ok_variant in H as [H Hvar].
  apply newSettingAt_Ok_flags in H as (Hset & Haddr & Hro & Ht).
  rewrite Hset at 1 2. repeat split; try assumption.
  unfold rAddr in Haddr. unfold CanAddr.
  destruct (rv v); [|discriminate]. destruct (flagAddr v); [reflexivity|discriminate].
Qed.

(** The converter has no case for [[]bool]: a variable of that type is
    refused with an error. *)
Lemma settingFromValue_no_bool_slice :
  (forall name description p a r,
      settingFromValue name description
        (mkValue (Some (GLeaf boolSliceType p)) a r)
      = Ret (Err "unknown setting type []bool")) /\
  (forall name description v set,
      settingFromValue name description v = Ret (Ok set) ->
      Variant set <> BoolSliceSetting).
Proof.
  split; [reflexivity|].
  intros name description v set H.
  apply settingFromValue_Ok_variant in H as [_ H]. exact H.
Qed.

(** X25. A variable of a defined type, as in [type Level int], is taken
    for a setting by its kind, and the converter then panics: the pointer
    to the variable cannot be assigned to the pointer field of the
    setting.  [time.Duration] is the one defined type with a case of its
    own. *)
Theorem settingFromValue_defined_type (name description : string) (v : rvalue)
  (t : rtype) :
  rType v = Ret t ->
  In (rKind v) scalarKinds ->
  tString t <> Kind_String (rKind v) ->
  tString t <> timeName ->
  tString t <> durationName ->
  exists msg, settingFromValue name description v = Panic msg.
Proof.
  intros Ht Hkind Hname Htime Hdur. unfold settingFromValue.
  rewrite Ht. cbn.
  apply String.eqb_neq in Htime, Hdur. rewrite Htime, Hdur.
  assert (Hpanic : forall k, valueType k = Kind_String (rKind v) ->
                     exists msg, newSettingAt k name description v = Panic msg).
  { intros k Hk. unfold newSettingAt. rewrite Ht. cbn.
    destruct (rAddr v) as [p|msg]; [|eexists; reflexivity]. cbn.
    destruct (flagRO v); try (eexists; reflexivity).
    rewrite Hk. apply String.eqb_neq in Hname. rewrite Hname.
    eexists; reflexivity. }
  unfold scalarKinds in Hkind. cbn [In] in Hkind.
  repeat (destruct Hkind as [Hk|Hkind];
          [rewrite <- Hk in *; apply Hpanic; reflexivity|]).
  contradiction.
Qed.

(** X26. The settings of a group [Convert] returns are aliases of the
    variables of the value converted, so loading the group writes into
    that value and nowhere else: every variable outside of it keeps its
    value. *)
Theorem Convert_LoadGroups_frame (cast : CastFn -> value -> value * error)
  (s : Source) (v : option gval) (g : Group) (st st' : store) (e : error) :
  Convert v = Ret (Ok g) ->
  LoadGroups cast s [g] st = Ret (st', e) ->
  forall l, ~ In l (value_locs v) -> st' !! l = st !! l.
Proof.
  intros Hconv Hload l Hl.
  apply (LoadGroups_frame cast s [g] st st' e l Hload).
  intros Hin. apply Hl. unfold Groups_ptrs in Hin. cbn [flat_map] in Hin.
  rewrite app_nil_r in Hin. apply (Convert_ptrs v g l Hconv Hin).
Qed.

(** When the loop ends with a group, no turn ended the call, and every
    nested call returned a group. *)
Lemma Convert_rest_Ok_In stack :
  forall name g g',
    Convert_rest name g stack = Ret (Ok g') ->
    forall e, In e stack ->
      forall name0 g0,
        match Convert_step name0 g0 e with
        | StepDone _ => False
        | StepGroup i => exists sub, Convert i = Ret (Ok sub)
        | _ => True
        end.
Proof.
  induction stack as [|e0 stack IH]; intros name g g' Hok e Hin name0 g0;
    [contradiction|].
  change (e0 :: stack) with ([e0] ++ stack) in Hok.
  rewrite Convert_rest_app in Hok.
  destruct (Convert_rest name g [e0]) as [[g1|err]|msg] eqn:H0; try discriminate.
  destruct Hin as [<-|Hin]; [|apply (IH name g1 g' Hok e Hin)].
  rewrite Convert_rest_cons in H0.
  pose proof (Convert_step_indep name g name0 g0 e0) as Hindep.
  destruct (Convert_step name g e0) as [r| |set|i] eqn:Hstep;
    destruct (Convert_step name0 g0 e0) as [r'| |set'|i']; try contradiction;
    try exact I.
  - destruct (Convert_step_done _ _ _ _ Hstep) as [[msg ->]|[err ->]]; discriminate.
  - subst i'. destruct (Convert i) as [[sub|err]|msg]; try discriminate.
    eexists; reflexivity.
Qed.

Lemma pushFields_In f gv t p n d fields a r :
  In (f, gv) fields ->
  In {| Field := f; FValue := mkValue (Some gv) a (fieldRO r f) |}
     (pushFields (mkValue (Some (GStruct t p n d fields)) a r) []).
Proof.
  intros Hin. rewrite pushFields_app, app_nil_r. rewrite <- in_rev.
  unfold structFields. cbn [rv flagAddr flagRO].
  apply (in_map (fun fg : StructField * gval =>
                   {| Field := fst fg;
                      FValue := mkValue (Some (snd fg)) a (fieldRO r (fst fg)) |})
                fields (f, gv) Hin).
Qed.

Lemma Indirect_flagRO x : rv (Indirect x) <> None -> flagRO (Indirect x) = flagRO x.
Proof.
  unfold Indirect. destruct (rv x) as [[| ? ? [g|]|]|] eqn:Hx; cbn [rv flagRO];
    try reflexivity.
  intros H. contradiction.
Qed.

(** A turn on a value reached through an unexported field that is not
    embedded ends the call. *)
Lemma Convert_step_unexported name g e :
  flagRO (FValue e) <> NotRO -> Anonymous (Field e) = false ->
  exists r, Convert_step name g e = StepDone r.
Proof.
  intros Hro Hanon. unfold Convert_step. rewrite Hanon, andb_false_r.
  destruct (negb (CanAddr (Indirect (FValue e)))).
  { destruct (rType (FValue e)); eexists; reflexivity. }
  destruct (rType (Indirect (FValue e))) as [t|msg] eqn:Ht;
    [|eexists; reflexivity].
  assert (Hro' : flagRO (Indirect (FValue e)) <> NotRO).
  { rewrite Indirect_flagRO; [exact Hro|].
    unfold rType in Ht. destruct (rv (Indirect (FValue e))); discriminate. }
  destruct (negb (bool_decide (rKind (Indirect (FValue e)) = KStruct))
            || String.eqb (tString t) timeName).
  - destruct (settingFromValue _ _ _) as [[set|err]|msg] eqn:Hs;
      try (eexists; reflexivity).
    exfalso. apply Hro'.
    apply settingFromValue_Ok_variant in Hs as [Hs _].
    apply newSettingAt_Ok_flags in Hs as (_ & _ & Hnot & _). exact Hnot.
  - unfold rInterface. destruct (flagRO (FValue e)); try (eexists; reflexivity).
    contradiction.
Qed.

(** X27. A struct with an unexported field that is not embedded cannot be
    converted: [Convert] returns an error or panics, whatever the other
    fields are, and never a group. *)
Theorem Convert_refuses_unexported_field (tp t : rtype) (p0 p : loc)
  (n d : option string) (fields : list (StructField * gval))
  (f : StructField) (gv : gval) :
  In (f, gv) fields -> Exported f = false -> Anonymous f = false ->
  (exists e,
      Convert (Some (GPtr tp p0 (Some (GStruct t p n d fields)))) = Ret (Err e)) \/
  (exists msg,
      Convert (Some (GPtr tp p0 (Some (GStruct t p n d fields)))) = Panic msg).
Proof.
  intros Hin Hexp Hanon.
  destruct (Convert (Some (GPtr tp p0 (Some (GStruct t p n d fields)))))
    as [[g|e]|msg] eqn:Hok;
    [exfalso|left; eexists; reflexivity|right; eexists; reflexivity].
  rewrite Convert_ptr_struct in Hok.
  pose proof (Convert_rest_Ok_In _ _ _ _ Hok _
                (pushFields_In f gv t p n d fields true NotRO Hin) "" g) as H.
  destruct (Convert_step_unexported "" g
              {| Field := f; FValue := mkValue (Some gv) true (fieldRO NotRO f) |})
    as [r Hr].
  - cbn [FValue flagRO]. unfold fieldRO. rewrite Hexp, Hanon. discriminate.
  - exact Hanon.
  - rewrite Hr in H. exact H.
Qed.

Lemma Convert_struct_by_value t p n d fields :
  Convert (Some (GStruct t p n d fields))
  = Ret (Err ("unaddressable value " +:+ tString t +:+ " given to Convert")).
Proof. reflexivity. Qed.

(** X28. A field that holds a nil pointer, and a field that holds a struct
    by value and is neither embedded nor a [time.Time], cannot be
    converted either: the first is refused in the loop, the second by the
    nested call, which is given a copy it cannot address. *)
Theorem Convert_nil_or_value_field (tp t : rtype) (p0 p : loc)
  (n d : option string) (fields : list (StructField * gval))
  (f : StructField) (gv : gval) :
  In (f, gv) fields ->
  match gv with
  | GPtr _ _ None => True
  | GStruct t' _ _ _ _ => Anonymous f = false /\ tString t' <> timeName
  | _ => False
  end ->
  (exists e,
      Convert (Some (GPtr tp p0 (Some (GStruct t p n d fields)))) = Ret (Err e)) \/
  (exists msg,
      Convert (Some (GPtr tp p0 (Some (GStruct t p n d fields)))) = Panic msg).
Proof.
  intros Hin Hgv.
  destruct (Convert (Some (GPtr tp p0 (Some (GStruct t p n d fields)))))
    as [[g|e]|msg] eqn:Hok;
    [exfalso|left; eexists; reflexivity|right; eexists; reflexivity].
  rewrite Convert_ptr_struct in Hok.
  pose proof (Convert_rest_Ok_In _ _ _ _ Hok _
                (pushFields_In f gv t p n d fields true NotRO Hin) "" g) as H.
  unfold Convert_step in H. cbn [Field FValue] in H.
  destruct gv as [|tq q [target|]|t' q n' d' fs];
    [contradiction|contradiction|cbn in H; exact H|].
  - (* a struct by value; the nil pointer ended the turn above *)
    destruct Hgv as [Hanon Htime].
    cbn [Indirect rv rKind CanAddr flagAddr rType gtype] in H.
    rewrite Hanon, andb_false_r in H. cbn [negb] in H.
    rewrite bool_decide_true in H by reflexivity. cbn [negb orb] in H.
    apply String.eqb_neq in Htime. rewrite Htime in H.
    unfold rInterface in H. cbn [flagRO rv] in H.
    destruct (fieldRO NotRO f); try contradiction.
    destruct H as [sub Hsub].
    rewrite Convert_struct_by_value in Hsub.
    discriminate.
Qed.

(** ** Components: the group, nil arguments, the result of New *)

(** X29. [GroupFromComponent] is the first part of [NewComponent]: with a
    destination that is a pointer and not nil, every error and every panic
    of [GroupFromComponent] is the error or the panic of [NewComponent],
    from the same store, and a group it returns is the group
    [NewComponent] goes on to load. *)
Theorem GroupFromComponent_NewComponent
  (ConvertibleTo AssignableTo : rtype -> rtype -> bool) (backgroundType : rtype)
  (cast : CastFn -> value -> value * error) (s : Source)
  (v : option Component) (t elem : rtype) (l : loc) (st : store) :
  match GroupFromComponent ConvertibleTo backgroundType v st with
  | Panic msg =>
      NewComponent ConvertibleTo AssignableTo backgroundType cast s v
                   (DestPtr t elem (Some l)) st = Panic msg
  | Ret (st1, Err e) =>
      NewComponent ConvertibleTo AssignableTo backgroundType cast s v
                   (DestPtr t elem (Some l)) st = Ret (st1, Some e)
  | Ret (st1, Ok g) =>
      forall st2 e,
        LoadGroups cast s [g] st1 = Ret (st2, Some e) ->
        NewComponent ConvertibleTo AssignableTo backgroundType cast s v
                     (DestPtr t elem (Some l)) st = Ret (st2, Some e)
  end.
Proof.
  unfold GroupFromComponent, NewComponent.
  destruct (VerifyComponent ConvertibleTo backgroundType v) as [[e|]|msg];
    cbn; try reflexivity.
  destruct v as [c|]; [|reflexivity].
  destruct (CallSettings c st) as [[st1 smOut]|msg]; cbn; [|reflexivity].
  destruct (Convert smOut) as [[g|e]|msg]; cbn; try reflexivity.
  intros st2 e Hload. rewrite Hload. reflexivity.
Qed.

(** When the contract is not met, neither [Settings] nor [New] is
    called: [NewComponent] and [GroupFromComponent] return the error of
    [VerifyComponent] and the store is the one they were given. *)
Lemma NewComponent_unverified
  (ConvertibleTo AssignableTo : rtype -> rtype -> bool) (backgroundType : rtype)
  (cast : CastFn -> value -> value * error) (s : Source)
  (v : option Component) (t elem : rtype) (l : loc) (st : store) (e : string) :
  VerifyComponent ConvertibleTo backgroundType v = Ret (Some e) ->
  NewComponent ConvertibleTo AssignableTo backgroundType cast s v
               (DestPtr t elem (Some l)) st = Ret (st, Some e) /\
  GroupFromComponent ConvertibleTo backgroundType v st = Ret (st, Err e).
Proof.
  intros Hv. unfold NewComponent, GroupFromComponent. rewrite Hv.
  split; reflexivity.
Qed.

(** The nil interface is not an error but a panic: as the component,
    in [VerifyComponent], [GroupFromComponent] and [NewComponent], and as
    the destination of [NewComponent], whose message for a destination
    that is not a pointer is built from the type of the destination. *)
Lemma nil_interface_panics
  (ConvertibleTo AssignableTo : rtype -> rtype -> bool) (backgroundType : rtype)
  (cast : CastFn -> value -> value * error) (s : Source) (st : store) :
  (exists msg, VerifyComponent ConvertibleTo backgroundType None = Panic msg) /\
  (exists msg,
      GroupFromComponent ConvertibleTo backgroundType None st = Panic msg) /\
  (forall t elem l,
      exists msg,
        NewComponent ConvertibleTo AssignableTo backgroundType cast s None
                     (DestPtr t elem (Some l)) st = Panic msg) /\
  (forall v,
      exists msg,
        NewComponent ConvertibleTo AssignableTo backgroundType cast s v
                     DestNil st = Panic msg).
Proof.
  repeat split; intros; eexists; reflexivity.
Qed.

End Unicode.

(* ===================================================================== *)
(** * Part III: the theorems at concrete inputs                          *)
(* ===================================================================== *)

(** The lemmas of this part apply the theorems above to values taken from
    the tests and the examples of the package.  The lower-case mapping is
    [byteLower]. *)

#[global] Existing Instance byteLower.
#[global] Existing Instance byteLower_stable.


Lemma MapSource_Get_empty_path_panics_witness :
  (exists msg, MapSource_Get (NewMapSource [("a", VInt 1)]) [] = Panic msg) /\
  exists r, MapSource_Get (NewMapSource [("a", VInt 1)]) ["A"] = Ret r.
Proof.
  split.
  - apply (proj1 (MapSource_Get_empty_path_panics
                    (NewMapSource [("a", VInt 1)]))).
  - apply (proj1 (proj2 (MapSource_Get_empty_path_panics
                           (NewMapSource [("a", VInt 1)]))) ["A"]).
    discriminate.
Defined.

Lemma SetValue_cast_failure_witness :
  exists st' e,
    SetValue castModel {[ 0%nat := VInt 5 ]}
      (mkSetting IntSetting (mkBaseSetting "Int" "") 0%nat) (VString "false")
    = Ret (st', Some e) /\
    st' = <[0%nat := VInt 0]> {[ 0%nat := VInt 5 ]} /\
    Setting_Value st' (mkSetting IntSetting (mkBaseSetting "Int" "") 0%nat)
    = Ret (VInt 0).
Proof.
  apply (SetValue_cast_failure castModel {[ 0%nat := VInt 5 ]}
           (mkSetting IntSetting (mkBaseSetting "Int" "") 0%nat)
           (VString "false") (VInt 5)).
  - reflexivity.
  - reflexivity.
Defined.

(** The setting [a] is not in the source, [b] is found and fails to cast,
    and [c], which is found too, is never set. *)
Lemma Load_miss_and_abort_witness :
  Load castModel
       (MapSource_Source (NewMapSource [("B", VString "false"); ("c", VInt 3)]))
       [mkSetting StringSetting (mkBaseSetting "a" "") 0%nat;
        mkSetting IntSetting (mkBaseSetting "b" "") 1%nat;
        mkSetting IntSetting (mkBaseSetting "c" "") 2%nat]
       {[ 0%nat := VString "dflt"; 1%nat := VInt 7; 2%nat := VInt 9 ]}
  = Ret (<[1%nat := VInt 0]>
           {[ 0%nat := VString "dflt"; 1%nat := VInt 7; 2%nat := VInt 9 ]},
         Some "failed to load setting b due to: unable to cast to int").
Proof.
  apply (proj2 (proj2 (proj2 (Load_miss_and_abort castModel
           (MapSource_Source
              (NewMapSource [("B", VString "false"); ("c", VInt 3)])))))
           [mkSetting StringSetting (mkBaseSetting "a" "") 0%nat]
           (mkSetting IntSetting (mkBaseSetting "b" "") 1%nat)
           [mkSetting IntSetting (mkBaseSetting "c" "") 2%nat]
           {[ 0%nat := VString "dflt"; 1%nat := VInt 7; 2%nat := VInt 9 ]}
           {[ 0%nat := VString "dflt"; 1%nat := VInt 7; 2%nat := VInt 9 ]}
           (VString "false")).
  - reflexivity.
  - reflexivity.
  - reflexivity.
Defined.



Lemma VerifyComponent_contract_witness :
  VerifyComponent convertibleModel backgroundCtxType (Some testComponent)
  = Ret None.
Proof.
  apply (proj2 (proj2 (proj2 (proj2
           (VerifyComponent_contract convertibleModel backgroundCtxType
              testComponent))))).
  exists (mkMethod "Settings" [] [testConfPtr]),
         (mkMethod "New" [contextType; testConfPtr] [testItemPtr; errorType]),
         testConfPtr, contextType, testConfPtr, testItemPtr, errorType.
  repeat split; reflexivity.
Defined.


Lemma PrefixSource_Get_caller_slice_witness :
  fst (PrefixSource_path ["p"] (mkPathSlice ["a"; ""] 1)) = ["p"; "a"] /\
  take 1 (snd (PrefixSource_path ["p"] (mkPathSlice ["a"; ""] 1))) = ["p"].
Proof.
  apply (PrefixSource_Get_caller_slice ["p"] (mkPathSlice ["a"; ""] 1)).
  simpl. lia.
Defined.

(** The aggregate of C4: the finder is the second member, which was asked
    with the array as the first member left it. *)
Lemma MultiSource_Get_result_witness :
  exists before B after arr0,
    [PrefixSource_Source
       {| PSource := MapSource_Source (NewMapSource [("q", VInt 0)]);
          Prefix := ["p"] |};
     MapSource_Source (NewMapSource [("x", VInt 1); ("p", VInt 2)])]
    = before ++ B :: after /\
    missed before (mkPathSlice ["x"; ""] 1) arr0 /\
    GetSlice B (mkPathSlice arr0 1) = Ret (VInt 2, true, ["p"; "x"]).
Proof.
  apply (proj1 (proj1 (MultiSource_Get_result
    [PrefixSource_Source
       {| PSource := MapSource_Source (NewMapSource [("q", VInt 0)]);
          Prefix := ["p"] |};
     MapSource_Source (NewMapSource [("x", VInt 1); ("p", VInt 2)])]
    (mkPathSlice ["x"; ""] 1) (VInt 2) ["p"; "x"]))).
  reflexivity.
Defined.

Lemma MapSource_Get_app_witness :
  MapSource_Get {| Map := [("a", VMap [("b", VInt 1)])] |} (["a"] ++ ["b"])
  = MapSource_Get {| Map := [("b", VInt 1)] |} ["b"].
Proof.
  apply (MapSource_Get_app {| Map := [("a", VMap [("b", VInt 1)])] |} ["a"] ["b"]);
    discriminate.
Defined.

Lemma PrefixSource_MapSource_subtree_witness :
  PrefixSource_Get
    {| PSource := MapSource_Source {| Map := [("a", VMap [("b", VInt 1)])] |};
       Prefix := ["a"] |} []
  = Ret (VMap [("b", VInt 1)], true).
Proof.
  apply (PrefixSource_MapSource_subtree
           {| Map := [("a", VMap [("b", VInt 1)])] |} ["a"]
           (VMap [("b", VInt 1)]) true eq_refl []).
Defined.

Lemma lowerCaseMap_idempotent_witness :
  lowerCaseMap [("a", VMap [("b", VInt 1)]); ("c", VNil)]
  = [("a", VMap [("b", VInt 1)]); ("c", VNil)].
Proof.
  apply (proj2 (proj2 (lowerCaseMap_idempotent
                         [("a", VMap [("b", VInt 1)]); ("c", VNil)]))).
  reflexivity.
Defined.

Lemma NewMapSource_Get_roundtrip_witness :
  MapSource_Get (NewMapSource [("Host", VString "h"); ("PORT", VInt 80)]) ["port"]
  = Ret (VInt 80, true).
Proof.
  apply (proj1 (NewMapSource_Get_roundtrip
                  [("Host", VString "h"); ("PORT", VInt 80)]
                  ltac:(repeat constructor; simpl; intuition discriminate))
               "PORT" (VInt 80) "port").
  - right. left. reflexivity.
  - reflexivity.
Defined.

Lemma lowerCaseMap_clash_witness :
  lowerCaseMap [("Ab", VInt 1); ("aB", VInt 2)] = [("ab", VInt 2)] /\
  lowerCaseMap [("aB", VInt 2); ("Ab", VInt 1)] = [("ab", VInt 1)].
Proof.
  apply (lowerCaseMap_clash "Ab" "aB" (VInt 1) (VInt 2)).
  - discriminate.
  - reflexivity.
  - discriminate.
Defined.

Lemma NewEnvSource_parse_witness :
  (exists src, NewEnvSource ["A=1"] = Ret (Some src, None)) /\
  NewEnvSource (["A=1"] ++ "B" :: ["C=3"])
  = Ret (None, Some ("failed to parse variable " +:+ "B")).
Proof.
  apply (NewEnvSource_parse ["A=1"] ["C=3"] "B").
  - repeat constructor.
  - reflexivity.
Defined.

Lemma NewEnvSource_single_witness :
  exists src,
    NewEnvSource ["APP_DB_URL" +:+ String "=" "pg://u@h?x=1"]
    = Ret (Some src, None) /\
    MapSource_Get src (Split "_" "APP_DB_URL")
    = Ret (VString "pg://u@h?x=1", true).
Proof.
  apply (NewEnvSource_single "APP_DB_URL" "pg://u@h?x=1"). reflexivity.
Defined.

Lemma NewEnvSource_last_wins_witness :
  NewEnvSource (["A_B=0"] ++ ["A_C" +:+ String "=" "1"; "A_C" +:+ String "=" "2"])
  = NewEnvSource (["A_B=0"] ++ ["A_C" +:+ String "=" "2"]).
Proof.
  apply (NewEnvSource_last_wins ["A_B=0"] "A_C" "1" "2"). reflexivity.
Defined.

Lemma convertYamlMap_keys_witness :
  stringKeyedMap [("a", YMapI [(VInt 1, YScalar VNil)])] = false /\
  exists sk, isStringKey sk = false /\
             "map key 1 is not a string"
             = "map key " +:+ showKeyModel sk +:+ " is not a string".
Proof.
  apply (proj2 (convertYamlMap_keys showKeyModel
                  [("a", YMapI [(VInt 1, YScalar VNil)])])
               "map key 1 is not a string").
  reflexivity.
Defined.

Lemma convertYamlMap_idempotent_witness :
  convertYamlMap showKeyModel
    [("hosts", YSlice [YMapI [(VInt 1, YScalar (VString "a"))]])]
  = Ok [("hosts", YSlice [YMapI [(VInt 1, YScalar (VString "a"))]])].
Proof.
  apply (proj1 (convertYamlMap_idempotent showKeyModel
                  [("hosts", YSlice [YMapI [(VInt 1, YScalar (VString "a"))]])]
                  [])).
  reflexivity.
Defined.

Lemma convertYamlMap_entries_witness :
  exists tmp tmp',
    stringKeys showKeyModel [(VString "host", YScalar (VString "h"))] [] = Ok tmp /\
    convertYamlMap showKeyModel tmp = Ok tmp' /\
    ymap_get [("n", YScalar (VInt 1));
              ("db", YMapS [("host", YScalar (VString "h"))])] "db"
    = Some (YMapS tmp').
Proof.
  exact (convertYamlMap_entries showKeyModel
           [("db", YMapI [(VString "host", YScalar (VString "h"))]);
            ("n", YScalar (VInt 1))]
           [("n", YScalar (VInt 1));
            ("db", YMapS [("host", YScalar (VString "h"))])]
           ltac:(repeat constructor; simpl; intuition discriminate)
           eq_refl "db").
Defined.

Lemma NewSetting_independent_witness :
  Setting_Value
    (fst (NewSetting StringSetting "name" "" (VString "x") {[ 0%nat := VInt 1 ]}))
    (mkSetting IntSetting (mkBaseSetting "n" "") 0%nat)
  = Setting_Value {[ 0%nat := VInt 1 ]}
                  (mkSetting IntSetting (mkBaseSetting "n" "") 0%nat).
Proof.
  apply (proj1 (proj2 (proj2 (proj2 (proj2
           (NewSetting_independent StringSetting "name" "" (VString "x")
              {[ 0%nat := VInt 1 ]}))))));
    eexists; reflexivity.
Defined.

Lemma SetValue_nil_pointer_witness :
  (exists msg,
      Setting_Value ∅ (mkSetting IntSetting (mkBaseSetting "n" "") 0%nat)
      = Panic msg) /\
  exists msg,
    SetValue castModel ∅ (mkSetting IntSetting (mkBaseSetting "n" "") 0%nat)
             (VInt 1) = Panic msg.
Proof.
  apply (SetValue_nil_pointer castModel ∅
           (mkSetting IntSetting (mkBaseSetting "n" "") 0%nat) (VInt 1)).
  reflexivity.
Defined.

Lemma SetValue_then_Value_witness :
  Setting_Value (<[0%nat := VInt 42]> {[ 0%nat := VInt 5 ]})
                (mkSetting IntSetting (mkBaseSetting "n" "") 0%nat)
  = Ret (fst (finalCast castModel IntSetting (VString "42"))).
Proof.
  apply (SetValue_then_Value castModel {[ 0%nat := VInt 5 ]}
           (<[0%nat := VInt 42]> {[ 0%nat := VInt 5 ]})
           (mkSetting IntSetting (mkBaseSetting "n" "") 0%nat)
           (VString "42") None).
  - reflexivity.
  - reflexivity.
Defined.


Lemma LoadGroups_footprint_witness :
  exists st' e,
    LoadGroups castModel
      (MapSource_Source (NewMapSource [("app", VMap [("port", VString "81")])]))
      [SettingGroup "app" "" []
         [mkSetting IntSetting (mkBaseSetting "port" "") 0%nat]]
      {[ 0%nat := VInt 80; 1%nat := VInt 7 ]} = Ret (st', e) /\
    dom st' = dom ({[ 0%nat := VInt 80; 1%nat := VInt 7 ]} : store) /\
    forall l, ~ In l (Groups_ptrs
                        [SettingGroup "app" "" []
                           [mkSetting IntSetting (mkBaseSetting "port" "") 0%nat]]) ->
              st' !! l = ({[ 0%nat := VInt 80; 1%nat := VInt 7 ]} : store) !! l.
Proof.
  apply (LoadGroups_footprint castModel
           (MapSource_Source (NewMapSource [("app", VMap [("port", VString "81")])]))
           [SettingGroup "app" "" []
              [mkSetting IntSetting (mkBaseSetting "port" "") 0%nat]]
           {[ 0%nat := VInt 80; 1%nat := VInt 7 ]}).
  - intros [|p path] Hp; [contradiction|]. eexists. reflexivity.
  - intros l [<-|[]]. eexists. reflexivity.
Defined.

Lemma Convert_not_struct_pointer_witness :
  Convert (Some (GLeaf stringType 0%nat))
  = Ret (Err ("non-struct value " +:+ tString stringType +:+ " given to Convert")).
Proof.
  apply (proj2 (proj2 (proj2 (proj2 Convert_not_struct_pointer)))
           stringType 0%nat (ptrTo stringType) 0%nat).
  discriminate.
Defined.

Lemma settingFromValue_alias_witness :
  Setting_Name (mkSetting IntSetting (mkBaseSetting "Port" "the port") 7%nat)
  = "Port" /\
  Setting_Description (mkSetting IntSetting (mkBaseSetting "Port" "the port") 7%nat)
  = "the port" /\
  rAddr (mkValue (Some (GLeaf (mkType KInt "int" "int" None) 7%nat)) true NotRO)
  = Ret 7%nat /\
  CanAddr (mkValue (Some (GLeaf (mkType KInt "int" "int" None) 7%nat)) true NotRO)
  = true /\
  flagRO (mkValue (Some (GLeaf (mkType KInt "int" "int" None) 7%nat)) true NotRO)
  = NotRO /\
  (exists t,
    rType (mkValue (Some (GLeaf (mkType KInt "int" "int" None) 7%nat)) true NotRO)
    = Ret t /\ tString t = valueType IntSetting) /\
  Variant (mkSetting IntSetting (mkBaseSetting "Port" "the port") 7%nat)
  <> BoolSliceSetting.
Proof.
  apply (settingFromValue_alias "Port" "the port"
           (mkValue (Some (GLeaf (mkType KInt "int" "int" None) 7%nat)) true NotRO)
           (mkSetting IntSetting (mkBaseSetting "Port" "the port") 7%nat)).
  reflexivity.
Defined.

Lemma settingFromValue_defined_type_witness :
  exists msg,
    settingFromValue "Level" ""
      (mkValue (Some (GLeaf (mkType KInt "Level" "main.Level" None) 3%nat))
               true NotRO)
    = Panic msg.
Proof.
  apply (settingFromValue_defined_type "Level" ""
           (mkValue (Some (GLeaf (mkType KInt "Level" "main.Level" None) 3%nat))
                    true NotRO)
           (mkType KInt "Level" "main.Level" None)).
  - reflexivity.
  - simpl. tauto.
  - discriminate.
  - discriminate.
  - discriminate.
Defined.

Lemma Convert_LoadGroups_frame_witness :
  (<[4%nat := VString "b"]> {[ 4%nat := VString "a"; 9%nat := VInt 1 ]} : store)
    !! 9%nat
  = ({[ 4%nat := VString "a"; 9%nat := VInt 1 ]} : store) !! 9%nat.
Proof.
  apply (Convert_LoadGroups_frame castModel
           (MapSource_Source
              (NewMapSource [("nested", VMap [("inner", VMap [("v", VString "b")])])]))
           (Some nestedValue)
           (SettingGroup "nested" ""
              [SettingGroup "inner" "" []
                 [mkSetting StringSetting (mkBaseSetting "V" "") 4%nat]] [])
           {[ 4%nat := VString "a"; 9%nat := VInt 1 ]}
           (<[4%nat := VString "b"]> {[ 4%nat := VString "a"; 9%nat := VInt 1 ]})
           None).
  - reflexivity.
  - reflexivity.
  - simpl. intuition discriminate.
Defined.

Lemma Convert_refuses_unexported_field_witness :
  (exists e,
      Convert (Some (GPtr (ptrTo innerType) 0%nat
                       (Some (GStruct innerType 1%nat None None
                                [(mkField "v" false "" false,
                                  GLeaf stringType 2%nat)]))))
      = Ret (Err e)) \/
  (exists msg,
      Convert (Some (GPtr (ptrTo innerType) 0%nat
                       (Some (GStruct innerType 1%nat None None
                                [(mkField "v" false "" false,
                                  GLeaf stringType 2%nat)]))))
      = Panic msg).
Proof.
  apply (Convert_refuses_unexported_field (ptrTo innerType) innerType 0%nat 1%nat
           None None
           [(mkField "v" false "" false, GLeaf stringType 2%nat)]
           (mkField "v" false "" false) (GLeaf stringType 2%nat)).
  - left. reflexivity.
  - reflexivity.
  - reflexivity.
Defined.

Lemma Convert_nil_or_value_field_witness :
  (exists e, Convert (Some byValueValue) = Ret (Err e)) \/
  (exists msg, Convert (Some byValueValue) = Panic msg).
Proof.
  apply (Convert_nil_or_value_field
           (ptrTo (anonymousStruct "struct { V struct {} }"))
           (anonymousStruct "struct { V struct {} }") 0%nat 1%nat None None
           [(mkField "V" false "" true,
             GStruct (anonymousStruct "struct {}") 2%nat None None [])]
           (mkField "V" false "" true)
           (GStruct (anonymousStruct "struct {}") 2%nat None None [])).
  - left. reflexivity.
  - split; [reflexivity|discriminate].
Defined.

(** The value the source holds for the setting of [testConf] is a
    sequence, which does not cast to a string: the group is made and its
    load fails. *)
Lemma GroupFromComponent_NewComponent_witness :
  NewComponent convertibleModel assignableModel backgroundCtxType castModel
    (MapSource_Source
       (NewMapSource [("testconf", VMap [("value", VSlice [])])]))
    (Some testComponent)
    (DestPtr testItemPtr testItemType (Some 0%nat)) {[ 0%nat := VNil ]}
  = Ret (<[102%nat := VString ""]> {[ 0%nat := VNil ]},
         Some "failed to load group testConf due to: failed to load setting Value due to: unable to cast to string").
Proof.
  apply (GroupFromComponent_NewComponent convertibleModel assignableModel
           backgroundCtxType castModel
           (MapSource_Source
              (NewMapSource [("testconf", VMap [("value", VSlice [])])]))
           (Some testComponent) testItemPtr testItemType
           0%nat {[ 0%nat := VNil ]}).
  reflexivity.
Defined.

Lemma NewComponent_unverified_witness :
  NewComponent convertibleModel assignableModel backgroundCtxType castModel
    (MapSource_Source {| Map := [] |}) (Some (componentOf missingNewMethods))
    (DestPtr testItemPtr testItemType (Some 0%nat)) {[ 0%nat := VNil ]}
  = Ret ({[ 0%nat := VNil ]},
         Some "type *settings.testComponent does not have a `New(ctx, T) (T2, error)` method") /\
  GroupFromComponent convertibleModel backgroundCtxType
    (Some (componentOf missingNewMethods)) {[ 0%nat := VNil ]}
  = Ret ({[ 0%nat := VNil ]},
         Err "type *settings.testComponent does not have a `New(ctx, T) (T2, error)` method").
Proof.
  apply (NewComponent_unverified convertibleModel assignableModel
           backgroundCtxType castModel (MapSource_Source {| Map := [] |})
           (Some (componentOf missingNewMethods)) testItemPtr testItemType
           0%nat {[ 0%nat := VNil ]}).
  reflexivity.
Defined.

